(** * treeduction: a parallel reduction tree over Go channels

    A shallow embedding of [treeduction.go].  The tree is a set of
    goroutines connected by bounded channels, so the embedding has three
    layers:

    - channels with Go's send / receive / close semantics;
    - one state machine per goroutine body of the source (leaf adapter,
      root collector, ordered node, unordered node with its two forwarders
      and its closer), each program point exposing the channel operation it
      is about to perform;
    - the methods of [tree] ([New], [Add], [addOne], [updateCollectors],
      [Finish]) as state-passing functions, and an interleaving step
      function driven by an explicit schedule. *)

From Stdlib Require Import ZArith.
From stdpp Require Import base tactics option numbers list.

Set Default Proof Using "Type".
#[global] Set Warnings "-clear-no-such-hyp".

(** ** Channels *)

Section channels.
Context {T : Type}.

(** A [chan T]: the buffered values in FIFO order, the closed flag and
    the capacity given to [make]. *)
Record chan := Chan { buf : list T; closed : bool; cap : nat }.

(** [make(chan T, size)]: the runtime panics on a negative size
    ([None]); size 0 gives an unbuffered channel. *)
Definition make_chan (size : Z) : option chan :=
  if (size <? 0)%Z then None else Some (Chan [] false (Z.to_nat size)).

(** [ch <- v] served by the buffer: possible while there is room.  On a
    closed channel the runtime panics; the goroutine is then stuck. *)
Definition chan_send (v : T) (ch : chan) : option chan :=
  if closed ch then None
  else if length (buf ch) <? cap ch
       then Some (Chan (buf ch ++ [v]) false (cap ch))
       else None.

(** [v, ok := <-ch]: the oldest buffered value, or [(zero, false)] once
    the channel is closed and drained (rendered [None]); blocks ([None]
    for the whole operation) on an open empty channel. *)
Definition chan_recv (ch : chan) : option (option T * chan) :=
  match buf ch with
  | v :: rest => Some (Some v, Chan rest (closed ch) (cap ch))
  | [] => if closed ch then Some (None, ch) else None
  end.

(** [close(ch)]: closing twice panics. *)
Definition chan_close (ch : chan) : option chan :=
  if closed ch then None else Some (Chan (buf ch) true (cap ch)).

Definition chan_wf (ch : chan) : Prop := length (buf ch) ≤ cap ch.
End channels.

Global Arguments chan : clear implicits.

(** ** The tree and the goroutines it starts *)

(** Go's [error] interface; [nil] is [None] of [option error]. *)
Inductive error : Type := Err (code : nat).

(** The [tree] struct.  Channels, stop signals and the node-local wait
    groups live in the heap of [state] and are referred to by index; the
    context and its cancel function are the flag [cancelled]; the embedded
    [sync.WaitGroup] is its counter.  The combiner is the section variable
    below. *)
Record tree := Tree {
  roots : list (option nat);
  bufSize : Z;
  output : nat;
  stop : nat;
  cancelled : bool;
  wg : nat;
  waitForAll : bool;
  ordered : bool
}.

Section goroutines.
Context {T : Type}.

(** Program points of the leaf adapter of [Add]. *)
Inductive adapter_pc := ASelect | ASend (v : T) | AClose | AExit.

(** Program points of the collector of [updateCollectors].  [KEnter]
    is the top of the loop, where the operands of the [select] are
    evaluated: the field [t.stop] is read there, on every iteration. *)
Inductive collector_pc :=
  KEnter | KSelect (s : nat) | KSend (v : T) | KWgDone | KExit.

(** Program points of the goroutine of [orderedNode]. *)
Inductive onode_pc :=
  ORecv1 | ORecv2 (v1 : T) | OSend (v : T) | OSendLast (v1 : T) | OClose | OExit.

(** Program points of the outer goroutine of [unorderedNode]: [UStart]
    creates [fanIn] and [wg] and starts the three inner goroutines, the
    others are the pairing loop over [fanIn]. *)
Inductive unode_pc :=
| UStart
| URecv1 (fanIn : nat)
| URecv2 (fanIn : nat) (v1 : T)
| USend (fanIn : nat) (v : T)
| USendLast (fanIn : nat) (v1 : T)
| UClose (fanIn : nat)
| UExit (fanIn : nat).

(** [for v := range src { fanIn <- v }; wg.Done()] *)
Inductive forwarder_pc := FRecv | FSend (v : T) | FWgDone | FExit.

(** [wg.Wait(); close(fanIn)] *)
Inductive closer_pc := CWait | CClose | CExit.

Inductive goroutine :=
| Adapter (o c : nat) (pc : adapter_pc)
| Collector (c : nat) (pc : collector_pc)
| ONode (f s c : nat) (pc : onode_pc)
| UNode (f s c : nat) (pc : unode_pc)
| Forwarder (src fanIn w : nat) (pc : forwarder_pc)
| Closer (fanIn w : nat) (pc : closer_pc)
(** The caller's side, as in the tests: a producer sends its pending
    values on an input channel and then closes it (or leaves it open);
    a consumer ranges over a channel and records what it received. *)
| Producer (o : nat) (pending : list T) (closes : bool)
| Consumer (c : nat) (got : list T) (live : bool).

Inductive wgref := TreeWg | NodeWg (w : nat).

(** The operation a goroutine is about to perform, with its
    continuation. *)
Inductive op :=
| Recv (c : nat) (k : option T → goroutine)
| Send (c : nat) (v : T) (k : goroutine)
| Close (c : nat) (k : goroutine)
| StopClosed (s : nat) (k : goroutine)
| CtxDone (k : goroutine)
| Tau (k : goroutine)
| WgDone (w : wgref) (k : goroutine)
| WgWait (w : nat) (k : goroutine)
| Fork (size : Z) (n : nat) (k : nat → nat → list goroutine * goroutine).

Variable combiner : T → T → T.

(** The pending statement of a goroutine: one operation for a plain
    statement, the list of cases for a [select], nothing once the
    goroutine has returned. *)
Definition next (t : tree) (g : goroutine) : list op :=
  match g with
  | Adapter o c ASelect =>
      [ Recv o (λ r, match r with
                     | Some v => Adapter o c (ASend v)
                     | None => Adapter o c AClose
                     end);
        CtxDone (Adapter o c AClose) ]
  | Adapter o c (ASend v) => [ Send c v (Adapter o c ASelect) ]
  | Adapter o c AClose => [ Close c (Adapter o c AExit) ]
  | Adapter o c AExit => []
  | Collector c KEnter => [ Tau (Collector c (KSelect (stop t))) ]
  | Collector c (KSelect s) =>
      [ StopClosed s (Collector c KWgDone);
        Recv c (λ r, match r with
                     | Some v => Collector c (KSend v)
                     | None => Collector c KWgDone
                     end) ]
  | Collector c (KSend v) => [ Send (output t) v (Collector c KEnter) ]
  | Collector c KWgDone => [ WgDone TreeWg (Collector c KExit) ]
  | Collector c KExit => []
  | ONode f s c ORecv1 =>
      [ Recv f (λ r, match r with
                     | Some v1 => ONode f s c (ORecv2 v1)
                     | None => ONode f s c OClose
                     end) ]
  | ONode f s c (ORecv2 v1) =>
      [ Recv s (λ r, match r with
                     | Some v2 => ONode f s c (OSend (combiner v1 v2))
                     | None => ONode f s c (OSendLast v1)
                     end) ]
  | ONode f s c (OSend v) => [ Send c v (ONode f s c ORecv1) ]
  | ONode f s c (OSendLast v1) => [ Send c v1 (ONode f s c OClose) ]
  | ONode f s c OClose => [ Close c (ONode f s c OExit) ]
  | ONode f s c OExit => []
  | UNode f s c UStart =>
      [ Fork (bufSize t) 2 (λ fanIn w,
          ([ Forwarder f fanIn w FRecv;
             Forwarder s fanIn w FRecv;
             Closer fanIn w CWait ],
           UNode f s c (URecv1 fanIn))) ]
  | UNode f s c (URecv1 fanIn) =>
      [ Recv fanIn (λ r, match r with
                         | Some v1 => UNode f s c (URecv2 fanIn v1)
                         | None => UNode f s c (UClose fanIn)
                         end) ]
  | UNode f s c (URecv2 fanIn v1) =>
      [ Recv fanIn (λ r, match r with
                         | Some v2 => UNode f s c (USend fanIn (combiner v1 v2))
                         | None => UNode f s c (USendLast fanIn v1)
                         end) ]
  | UNode f s c (USend fanIn v) => [ Send c v (UNode f s c (URecv1 fanIn)) ]
  | UNode f s c (USendLast fanIn v1) => [ Send c v1 (UNode f s c (UClose fanIn)) ]
  | UNode f s c (UClose fanIn) => [ Close c (UNode f s c (UExit fanIn)) ]
  | UNode f s c (UExit fanIn) => []
  | Forwarder src fanIn w FRecv =>
      [ Recv src (λ r, match r with
                       | Some v => Forwarder src fanIn w (FSend v)
                       | None => Forwarder src fanIn w FWgDone
                       end) ]
  | Forwarder src fanIn w (FSend v) => [ Send fanIn v (Forwarder src fanIn w FRecv) ]
  | Forwarder src fanIn w FWgDone => [ WgDone (NodeWg w) (Forwarder src fanIn w FExit) ]
  | Forwarder src fanIn w FExit => []
  | Closer fanIn w CWait => [ WgWait w (Closer fanIn w CClose) ]
  | Closer fanIn w CClose => [ Close fanIn (Closer fanIn w CExit) ]
  | Closer fanIn w CExit => []
  | Producer o (v :: rest) closes => [ Send o v (Producer o rest closes) ]
  | Producer o [] true => [ Close o (Producer o [] false) ]
  | Producer o [] false => []
  | Consumer c got true =>
      [ Recv c (λ r, match r with
                     | Some v => Consumer c (got ++ [v]) true
                     | None => Consumer c got false
                     end) ]
  | Consumer c got false => []
  end.
End goroutines.

Global Arguments goroutine : clear implicits.
Global Arguments op : clear implicits.
Global Arguments adapter_pc : clear implicits.
Global Arguments collector_pc : clear implicits.
Global Arguments onode_pc : clear implicits.
Global Arguments unode_pc : clear implicits.
Global Arguments forwarder_pc : clear implicits.

(** ** The state of a running program *)

Section semantics.
Context {T : Type}.
Variable combiner : T → T → T.

(** The tree together with the runtime it lives in: the heap of
    channels, of [chan struct{}] stop signals (only ever closed, so a
    closed flag each), of node-local wait groups, and the goroutines. *)
Record state := State {
  tr : tree;
  chans : list (chan T);
  sigs : list bool;
  wgs : list nat;
  pool : list (goroutine T)
}.

Definition with_tr (t : tree) (st : state) : state :=
  State t (chans st) (sigs st) (wgs st) (pool st).
Definition with_chans (x : list (chan T)) (st : state) : state :=
  State (tr st) x (sigs st) (wgs st) (pool st).
Definition with_sigs (x : list bool) (st : state) : state :=
  State (tr st) (chans st) x (wgs st) (pool st).
Definition with_wgs (x : list nat) (st : state) : state :=
  State (tr st) (chans st) (sigs st) x (pool st).
Definition with_pool (x : list (goroutine T)) (st : state) : state :=
  State (tr st) (chans st) (sigs st) (wgs st) x.

Definition with_roots (x : list (option nat)) (t : tree) : tree :=
  Tree x (bufSize t) (output t) (stop t) (cancelled t) (wg t) (waitForAll t) (ordered t).
Definition with_stop (x : nat) (t : tree) : tree :=
  Tree (roots t) (bufSize t) (output t) x (cancelled t) (wg t) (waitForAll t) (ordered t).
Definition with_cancelled (x : bool) (t : tree) : tree :=
  Tree (roots t) (bufSize t) (output t) (stop t) x (wg t) (waitForAll t) (ordered t).
Definition with_wg (x : nat) (t : tree) : tree :=
  Tree (roots t) (bufSize t) (output t) (stop t) (cancelled t) x (waitForAll t) (ordered t).

(** [go g] *)
Definition spawn (g : goroutine T) (st : state) : state :=
  with_pool (pool st ++ [g]) st.

(** Goroutine [i] performs the operation [o]; [None] when the operation
    cannot proceed now (it blocks, or the runtime would panic). *)
Definition exec (i : nat) (o : op T) (st : state) : option state :=
  match o with
  | Recv c k =>
      ch ← chans st !! c;
      '(r, ch') ← chan_recv ch;
      Some (with_pool (<[i := k r]> (pool st)) (with_chans (<[c := ch']> (chans st)) st))
  | Send c v k =>
      ch ← chans st !! c;
      ch' ← chan_send v ch;
      Some (with_pool (<[i := k]> (pool st)) (with_chans (<[c := ch']> (chans st)) st))
  | Close c k =>
      ch ← chans st !! c;
      ch' ← chan_close ch;
      Some (with_pool (<[i := k]> (pool st)) (with_chans (<[c := ch']> (chans st)) st))
  | StopClosed s k =>
      b ← sigs st !! s;
      if b : bool then Some (with_pool (<[i := k]> (pool st)) st) else None
  | CtxDone k =>
      if cancelled (tr st) then Some (with_pool (<[i := k]> (pool st)) st) else None
  | Tau k => Some (with_pool (<[i := k]> (pool st)) st)
  | WgDone TreeWg k =>
      match wg (tr st) with
      | 0 => None
      | S n => Some (with_pool (<[i := k]> (pool st)) (with_tr (with_wg n (tr st)) st))
      end
  | WgDone (NodeWg w) k =>
      n ← wgs st !! w;
      match n with
      | 0 => None
      | S n' => Some (with_pool (<[i := k]> (pool st)) (with_wgs (<[w := n']> (wgs st)) st))
      end
  | WgWait w k =>
      n ← wgs st !! w;
      match n with
      | 0 => Some (with_pool (<[i := k]> (pool st)) st)
      | S _ => None
      end
  | Fork size n k =>
      ch ← make_chan size;
      let '(gs, g) := k (length (chans st)) (length (wgs st)) in
      Some (with_pool (<[i := g]> (pool st) ++ gs)
              (with_wgs (wgs st ++ [n]) (with_chans (chans st ++ [ch]) st)))
  end.

(** Case [b] of the pending statement of goroutine [i]. *)
Definition run_goroutine (i b : nat) (st : state) : option state :=
  g ← pool st !! i;
  o ← next combiner (tr st) g !! b;
  exec i o st.

(** A send meeting a waiting receive on an open channel with nothing
    buffered: the value is handed over directly.  This is the only way a
    value crosses an unbuffered channel. *)
Definition handoff (i bi j bj : nat) (st : state) : option state :=
  gi ← pool st !! i;
  gj ← pool st !! j;
  oi ← next combiner (tr st) gi !! bi;
  oj ← next combiner (tr st) gj !! bj;
  match oi, oj with
  | Send c v ks, Recv c' kr =>
      ch ← chans st !! c;
      if decide (i ≠ j ∧ c = c' ∧ buf ch = [] ∧ closed ch = false)
      then Some (with_pool (<[j := kr (Some v)]> (<[i := ks]> (pool st))) st)
      else None
  | _, _ => None
  end.

(** ** The methods of [tree] *)

(** [New]: the tree is created in a runtime that already holds the
    caller's channels and goroutines.  The slot table starts with 20
    empty slots; a negative [bufferSize] panics in [make]. *)
Definition New (bufferSize : Z) (waitForAll ordered : bool)
    (chans0 : list (chan T)) (pool0 : list (goroutine T)) : option state :=
  out ← make_chan bufferSize;
  Some {| tr := {| roots := replicate 20 None;
                   bufSize := bufferSize;
                   output := length chans0;
                   stop := 0;
                   cancelled := false;
                   wg := 0;
                   waitForAll := waitForAll;
                   ordered := ordered |};
          chans := chans0 ++ [out];
          sigs := [false];
          wgs := [];
          pool := pool0 |}.

Definition Output (st : state) : nat := output (tr st).

(** [c := make(chan T, t.bufSize); go func() { ... }(); return c] *)
Definition orderedNode (f s : nat) (st : state) : option (nat * state) :=
  ch ← make_chan (bufSize (tr st));
  let c := length (chans st) in
  Some (c, spawn (ONode f s c ORecv1) (with_chans (chans st ++ [ch]) st)).

Definition unorderedNode (f s : nat) (st : state) : option (nat * state) :=
  ch ← make_chan (bufSize (tr st));
  let c := length (chans st) in
  Some (c, spawn (UNode f s c UStart) (with_chans (chans st ++ [ch]) st)).

(** [for i := len(t.roots); i <= level; i++ { t.roots = append(t.roots, nil) }] *)
Definition extend (level : nat) (rs : list (option nat)) : list (option nat) :=
  rs ++ replicate (S level - length rs) None.

(** [addOne]; the recursion is bounded by the slots above [level], see
    [addOne]. *)
Fixpoint addOne_rec (fuel : nat) (root level : nat) (st : state) : option state :=
  match fuel with
  | 0 => None
  | S fuel =>
      let st := with_tr (with_roots (extend level (roots (tr st))) (tr st)) st in
      match roots (tr st) !! level with
      | None => None
      | Some None =>
          Some (with_tr (with_roots (<[level := Some root]> (roots (tr st))) (tr st)) st)
      | Some (Some prev) =>
          let st := with_tr (with_roots (<[level := None]> (roots (tr st))) (tr st)) st in
          '(c, st) ← (if ordered (tr st) then orderedNode prev root st
                      else unorderedNode prev root st);
          addOne_rec fuel c (S level) st
      end
  end.

Definition addOne (root level : nat) (st : state) : option state :=
  addOne_rec (S (length (roots (tr st)) - level)) root level st.

(** [updateCollectors]: close the stop signal, install a fresh one, and
    start a collector on every occupied slot. *)
Definition start_collector (st : state) (slot : option nat) : state :=
  match slot with
  | None => st
  | Some ch => spawn (Collector ch KEnter) (with_tr (with_wg (S (wg (tr st))) (tr st)) st)
  end.

Definition updateCollectors (st : state) : option state :=
  b ← sigs st !! stop (tr st);
  if b : bool then None
  else
    let st := with_sigs (<[stop (tr st) := true]> (sigs st)) st in
    let st := with_tr (with_stop (length (sigs st)) (tr st)) (with_sigs (sigs st ++ [false]) st) in
    Some (foldl start_collector st (roots (tr st))).

(** The body of the loop of [Add] for one input channel. *)
Definition add_leaf (o : nat) (st : state) : option state :=
  ch ← make_chan (bufSize (tr st));
  let c := length (chans st) in
  addOne c 0 (spawn (Adapter o c ASelect) (with_chans (chans st ++ [ch]) st)).

Fixpoint add_leaves (out : list nat) (st : state) : option state :=
  match out with
  | [] => Some st
  | o :: out => st ← add_leaf o st; add_leaves out st
  end.

Definition Add (out : list nat) (st : state) : option state :=
  st ← add_leaves out st;
  updateCollectors st.

Definition cancel (st : state) : state :=
  with_tr (with_cancelled true (tr st)) st.

(** The inner loop of [Finish]: fold the values still buffered into
    [final]. *)
Fixpoint drain (final : T) (buffered : list T) : T :=
  match buffered with
  | [] => final
  | v :: buffered => drain (combiner final v) buffered
  end.

(** [Finish] up to [t.wg.Wait()], where it may block. *)
Definition Finish_enter (st : state) : state :=
  if waitForAll (tr st) then st else cancel st.

(** [Finish] from the return of [t.wg.Wait()]: possible once the
    counter is zero.  In whole-tree mode the non-blocking receives take
    what the output buffer holds; the send of [final] and the close use
    the channel operations above. *)
Definition Finish_resume (st : state) : option (state * option error) :=
  match wg (tr st) with
  | S _ => None
  | 0 =>
      if waitForAll (tr st) then
        let st := cancel st in
        ch ← chans st !! output (tr st);
        ch ← match buf ch with
             | [] => Some ch
             | final :: buffered =>
                 chan_send (drain final buffered) (Chan [] (closed ch) (cap ch))
             end;
        ch ← chan_close ch;
        Some (with_chans (<[output (tr st) := ch]> (chans st)) st, None)
      else
        ch ← chans st !! output (tr st);
        ch ← chan_close ch;
        Some (with_chans (<[output (tr st) := ch]> (chans st)) st, None)
  end.

(** ** The caller and the scheduler *)

Inductive call := CAdd (out : list nat) | CFinish.

(** The caller runs [prog]; [waiting] holds while it is inside
    [Finish], and [result] records what [Finish] returned. *)
Record sys := Sys {
  world : state;
  prog : list call;
  waiting : bool;
  result : option (option error)
}.

Inductive action :=
| Run (i b : nat)
| Handoff (i bi j bj : nat)
| Caller.

Definition caller_step (s : sys) : option sys :=
  if waiting s then
    '(st, err) ← Finish_resume (world s);
    Some (Sys st (prog s) false (Some err))
  else
    match prog s with
    | [] => None
    | CAdd out :: rest =>
        st ← Add out (world s);
        Some (Sys st rest false (result s))
    | CFinish :: rest =>
        Some (Sys (Finish_enter (world s)) rest true (result s))
    end.

Definition step (a : action) (s : sys) : option sys :=
  match a with
  | Run i b =>
      st ← run_goroutine i b (world s);
      Some (Sys st (prog s) (waiting s) (result s))
  | Handoff i bi j bj =>
      st ← handoff i bi j bj (world s);
      Some (Sys st (prog s) (waiting s) (result s))
  | Caller => caller_step s
  end.

Fixpoint run (sched : list action) (s : sys) : option sys :=
  match sched with
  | [] => Some s
  | a :: sched => s ← step a s; run sched s
  end.

(** The caller's channels [srcs] (capacity and values to come), each
    fed by a producer that closes it at the end. *)
Definition source_chans (srcs : list (nat * list T)) : list (chan T) :=
  (λ src, Chan [] false src.1) <$> srcs.
Definition producers (srcs : list (nat * list T)) : list (goroutine T) :=
  imap (λ o src, Producer o src.2 true) srcs.

(** The caller's side of the output channel: [readers] goroutines ranging
    over it. *)
Definition consumers (out readers : nat) : list (goroutine T) :=
  replicate readers (Consumer out [] true).

Definition boot (bufferSize : Z) (waitForAll ordered : bool)
    (srcs : list (nat * list T)) (readers : nat) (p : list call) : option sys :=
  st ← New bufferSize waitForAll ordered (source_chans srcs)
          (producers srcs ++ consumers (length srcs) readers);
  Some (Sys st p false None).
End semantics.

Global Arguments state : clear implicits.
Global Arguments sys : clear implicits.

(** ** The slot table as a binary counter *)

Section counter_bits.
Local Open Scope N_scope.




End counter_bits.

Section placement.
Context {T : Type}.
Implicit Types (st : state T) (rs : list (option nat)).



Lemma extend_lookup rs level i :
  extend level rs !! i = Some None ∨ extend level rs !! i = rs !! i.
Proof.
  unfold extend. destruct (decide (i < length rs)) as [Hi|Hi].
  - right. by rewrite lookup_app_l.
  - destruct (decide (i < length rs + (S level - length rs))) as [Hj|Hj].
    + left. rewrite lookup_app_r by lia. apply lookup_replicate_2. lia.
    + right. rewrite !lookup_ge_None_2; [done|lia|].
      rewrite length_app, length_replicate. lia.
Qed.

Lemma extend_length rs level : level < length (extend level rs).
Proof. unfold extend. rewrite length_app, length_replicate. lia. Qed.










(** The recursion of [addOne] is bounded by the slots above [level]. *)
Lemma addOne_rec_total fuel root level st :
  length (roots (tr st)) - level < fuel → (0 ≤ bufSize (tr st))%Z →
  is_Some (addOne_rec fuel root level st).
Proof.
  revert root level st. induction fuel as [|fuel IH]; intros root level st Hfuel Hsize; [lia|].
  simpl. pose proof (extend_length (roots (tr st)) level) as Hlen.
  destruct (extend level (roots (tr st)) !! level) as [[prev|]|] eqn:Hslot.
  - assert (level < length (roots (tr st))) as Hin.
    { destruct (extend_lookup (roots (tr st)) level level) as [H|H]; [congruence|].
      rewrite Hslot in H. symmetry in H. by apply lookup_lt_Some in H. }
    assert (make_chan (T:=T) (bufSize (tr st)) = Some (Chan [] false (Z.to_nat (bufSize (tr st)))))
      as Hmk.
    { unfold make_chan. by destruct (Z.ltb_spec (bufSize (tr st)) 0); [lia|]. }
    unfold orderedNode, unorderedNode. simpl. rewrite Hmk.
    destruct (ordered (tr st)); simpl;
      (apply IH; simpl; [rewrite length_insert; unfold extend; rewrite length_app, length_replicate; lia|done]).
  - eauto.
  - apply lookup_ge_None in Hslot. lia.
Qed.

Lemma addOne_total root level st :
  (0 ≤ bufSize (tr st))%Z → is_Some (addOne root level st).
Proof. intros. apply addOne_rec_total; [lia|done]. Qed.

Lemma addOne_rec_fuel fuel fuel' root level st st' :
  addOne_rec fuel root level st = Some st' → fuel ≤ fuel' →
  addOne_rec fuel' root level st = Some st'.
Proof.
  revert fuel' root level st. induction fuel as [|fuel IH]; intros fuel' root level st; [done|].
  destruct fuel' as [|fuel']; [lia|]. simpl.
  destruct (extend level (roots (tr st)) !! level) as [[prev|]|]; [|done..].
  intros Hrec Hle. apply bind_Some in Hrec as ([c st1] & Hnode & Hrec).
  apply bind_Some. exists (c, st1). split; [done|]. apply IH; [done|lia].
Qed.
End placement.

(** ** Inversion of the channel operations *)

Section chan_facts.
Context {T : Type}.
Implicit Types (ch : chan T) (v : T).

Lemma make_chan_Some size ch :
  make_chan size = Some ch ↔ (0 ≤ size)%Z ∧ ch = Chan [] false (Z.to_nat size).
Proof.
  unfold make_chan. destruct (Z.ltb_spec size 0) as [Hneg|Hpos].
  - split; [done|]. intros [? _]. lia.
  - split; [by intros [= <-]|]. by intros [_ ->].
Qed.

Lemma chan_send_Some v ch ch' :
  chan_send v ch = Some ch' ↔
  closed ch = false ∧ length (buf ch) < cap ch ∧ ch' = Chan (buf ch ++ [v]) false (cap ch).
Proof.
  unfold chan_send. destruct (closed ch); [naive_solver|].
  destruct (Nat.ltb_spec (length (buf ch)) (cap ch)); [naive_solver|].
  split; [done|]. intros (_ & ? & _). lia.
Qed.

Lemma chan_recv_Some ch r ch' :
  chan_recv ch = Some (r, ch') ↔
  (∃ v rest, buf ch = v :: rest ∧ r = Some v ∧ ch' = Chan rest (closed ch) (cap ch)) ∨
  (buf ch = [] ∧ closed ch = true ∧ r = None ∧ ch' = ch).
Proof.
  unfold chan_recv. destruct (buf ch) as [|v rest].
  - destruct (closed ch); naive_solver.
  - naive_solver.
Qed.

Lemma chan_close_Some ch ch' :
  chan_close ch = Some ch' ↔ closed ch = false ∧ ch' = Chan (buf ch) true (cap ch).
Proof. unfold chan_close. destruct (closed ch); naive_solver. Qed.

Lemma chan_send_wf v ch ch' : chan_send v ch = Some ch' → chan_wf ch'.
Proof.
  intros (_ & Hlen & ->)%chan_send_Some. unfold chan_wf. simpl.
  rewrite length_app. simpl. lia.
Qed.

Lemma chan_recv_wf ch r ch' : chan_wf ch → chan_recv ch = Some (r, ch') → chan_wf ch'.
Proof.
  unfold chan_wf. intros Hwf [(v & rest & Hb & _ & ->)|(_ & _ & _ & ->)]%chan_recv_Some; [|done].
  simpl. rewrite Hb in Hwf. simpl in Hwf. lia.
Qed.

Lemma chan_close_wf ch ch' : chan_wf ch → chan_close ch = Some ch' → chan_wf ch'.
Proof. by intros Hwf [_ ->]%chan_close_Some. Qed.

Lemma chan_send_cap v ch ch' : chan_send v ch = Some ch' → cap ch' = cap ch.
Proof. by intros (_ & _ & ->)%chan_send_Some. Qed.

Lemma chan_recv_cap ch r ch' : chan_recv ch = Some (r, ch') → cap ch' = cap ch.
Proof. by intros [(v & rest & _ & _ & ->)|(_ & _ & _ & ->)]%chan_recv_Some. Qed.

Lemma chan_close_cap ch ch' : chan_close ch = Some ch' → cap ch' = cap ch.
Proof. by intros [_ ->]%chan_close_Some. Qed.
End chan_facts.

(** ** Reasoning principles for the methods and the scheduler *)

Section principles.
Context {T : Type}.
Variable combiner : T → T → T.
Implicit Types (st : state T) (s : sys T) (g : goroutine T) (o : op T).

(** The collectors started by [updateCollectors]. *)
Definition new_collectors (rs : list (option nat)) : list (goroutine T) :=
  (λ c, Collector c KEnter) <$> omap id rs.

Lemma foldl_start_collector rs st :
  foldl start_collector st rs =
  State (with_wg (wg (tr st) + length (new_collectors rs)) (tr st))
        (chans st) (sigs st) (wgs st) (pool st ++ new_collectors rs).
Proof.
  revert st. induction rs as [|[c|] rs IH]; intros st; simpl.
  - destruct st as [[] ? ? ? ?]. unfold with_wg. simpl.
    by rewrite Nat.add_0_r, app_nil_r.
  - rewrite IH. unfold new_collectors. simpl. rewrite <- app_assoc. simpl.
    unfold with_wg. simpl. rewrite Nat.add_succ_r. done.
  - apply IH.
Qed.

Lemma updateCollectors_Some st st' :
  updateCollectors st = Some st' ↔
  sigs st !! stop (tr st) = Some false ∧
  st' = State (with_wg (wg (tr st) + length (new_collectors (roots (tr st))))
                 (with_stop (length (sigs st)) (tr st)))
              (chans st) (<[stop (tr st) := true]> (sigs st) ++ [false]) (wgs st)
              (pool st ++ new_collectors (roots (tr st))).
Proof.
  unfold updateCollectors. destruct (sigs st !! stop (tr st)) as [[]|] eqn:Hs; simpl;
    [naive_solver| |naive_solver].
  rewrite foldl_start_collector. simpl. rewrite length_insert.
  split; [intros [= <-]|intros [_ ->]]; done.
Qed.

(** Induction over [Add]: [P] is the property between calls, [Pf root]
    the property while [addOne] still carries the stream [root]. *)
Section Add_principle.
Variable P : state T → Prop.
Variable Pf : nat → state T → Prop.
Variable ok : nat → Prop.

Hypothesis leaf : ∀ st (src : nat) ch,
  P st → ok src → make_chan (bufSize (tr st)) = Some ch →
  Pf (length (chans st))
     (spawn (Adapter src (length (chans st)) ASelect) (with_chans (chans st ++ [ch]) st)).
Hypothesis grow : ∀ st root level,
  Pf root st → Pf root (with_tr (with_roots (extend level (roots (tr st))) (tr st)) st).
Hypothesis store : ∀ st root level,
  Pf root st → roots (tr st) !! level = Some None →
  P (with_tr (with_roots (<[level := Some root]> (roots (tr st))) (tr st)) st).
Hypothesis pair : ∀ st root level prev ch,
  Pf root st → roots (tr st) !! level = Some (Some prev) →
  make_chan (bufSize (tr st)) = Some ch →
  Pf (length (chans st))
     (spawn (if ordered (tr st)
             then ONode prev root (length (chans st)) ORecv1
             else UNode prev root (length (chans st)) UStart)
        (with_chans (chans st ++ [ch])
           (with_tr (with_roots (<[level := None]> (roots (tr st))) (tr st)) st))).
Hypothesis collect : ∀ st st', P st → updateCollectors st = Some st' → P st'.

Lemma addOne_rec_preserves fuel root level st st' :
  Pf root st → addOne_rec fuel root level st = Some st' → P st'.
Proof using grow store pair.
  revert root level st. induction fuel as [|fuel IH]; intros root level st Hst; [done|].
  simpl. apply (grow _ _ level) in Hst.
  set (st0 := with_tr _ st) in *.
  change (extend level (roots (tr st))) with (roots (tr st0)).
  destruct (roots (tr st0) !! level) as [[prev|]|] eqn:Hslot; [| |done].
  - intros Hrec. apply bind_Some in Hrec as ([c st1] & Hnode & Hrec).
    apply IH in Hrec; [done|].
    pose proof (pair st0 root level prev) as Hpair.
    unfold orderedNode, unorderedNode in Hnode. simpl in Hnode.
    change (ordered (tr st)) with (ordered (tr st0)) in Hnode.
    change (bufSize (tr st)) with (bufSize (tr st0)) in Hnode.
    destruct (make_chan (bufSize (tr st0))) as [ch|] eqn:Hmk;
      [|by destruct (ordered (tr st0))].
    specialize (Hpair ch Hst Hslot eq_refl).
    destruct (ordered (tr st0)); simpl in Hnode; by simplify_eq.
  - intros [= <-]. exact (store st0 root level Hst Hslot).
Qed.

Lemma add_leaves_preserves out st st' :
  P st → Forall ok out → add_leaves out st = Some st' → P st'.
Proof using leaf grow store pair.
  revert st. induction out as [|src out IH]; intros st Hst Hok; simpl; [by intros [= <-]|].
  apply Forall_cons_1 in Hok as [Hsrc Hok].
  intros Hadd. apply bind_Some in Hadd as (st1 & Hleaf & Hadd).
  apply (IH st1); [|done..].
  unfold add_leaf in Hleaf. apply bind_Some in Hleaf as (ch & Hmk & Hone).
  eapply addOne_rec_preserves; [|exact Hone]. by apply leaf.
Qed.

Lemma Add_preserves out st st' : P st → Forall ok out → Add out st = Some st' → P st'.
Proof using leaf grow store pair collect.
  intros Hst Hok Hadd. apply bind_Some in Hadd as (st1 & Hleaves & Hupd).
  eauto using add_leaves_preserves.
Qed.
End Add_principle.

(** Invariants along any schedule, by the kind of step. *)
Section run_principle.
Variable P : sys T → Prop.

Hypothesis by_exec : ∀ s st' i b g o,
  P s → pool (world s) !! i = Some g →
  next combiner (tr (world s)) g !! b = Some o →
  exec i o (world s) = Some st' →
  P (Sys st' (prog s) (waiting s) (result s)).
Hypothesis by_handoff : ∀ s st' i bi j bj,
  P s → handoff combiner i bi j bj (world s) = Some st' →
  P (Sys st' (prog s) (waiting s) (result s)).
Hypothesis by_Add : ∀ s st' out rest,
  P s → waiting s = false → prog s = CAdd out :: rest →
  Add out (world s) = Some st' →
  P (Sys st' rest false (result s)).
Hypothesis by_enter : ∀ s rest,
  P s → waiting s = false → prog s = CFinish :: rest →
  P (Sys (Finish_enter (world s)) rest true (result s)).
Hypothesis by_resume : ∀ s st' err,
  P s → waiting s = true →
  Finish_resume combiner (world s) = Some (st', err) →
  P (Sys st' (prog s) false (Some err)).

Lemma step_preserves a s s' : P s → step combiner a s = Some s' → P s'.
Proof using by_exec by_handoff by_Add by_enter by_resume.
  intros Hs. destruct a as [i b|i bi j bj|]; simpl.
  - intros (st & Hrun & [= <-])%bind_Some.
    unfold run_goroutine in Hrun.
    apply bind_Some in Hrun as (g & Hg & Hrun).
    apply bind_Some in Hrun as (o & Ho & Hrun). eauto.
  - intros (st & Hrun & [= <-])%bind_Some. eauto.
  - unfold caller_step. destruct (waiting s) eqn:Hw.
    + intros ([st err] & Hres & [= <-])%bind_Some. eauto.
    + destruct (prog s) as [|[out|] rest] eqn:Hp; [done| |].
      * intros (st & Hadd & [= <-])%bind_Some. eauto.
      * intros [= <-]. eauto.
Qed.

Lemma run_preserves sched s s' : P s → run combiner sched s = Some s' → P s'.
Proof using by_exec by_handoff by_Add by_enter by_resume.
  revert s. induction sched as [|a sched IH]; intros s Hs; simpl; [by intros [= <-]|].
  intros (s1 & Hstep & Hrun)%bind_Some. eauto using step_preserves.
Qed.
End run_principle.

Lemma run_app sched1 sched2 s :
  run combiner (sched1 ++ sched2) s = s1 ← run combiner sched1 s; run combiner sched2 s1.
Proof.
  revert s. induction sched1 as [|a sched1 IH]; intros s; simpl; [done|].
  destruct (step combiner a s); simpl; [apply IH|done].
Qed.
End principles.

(** ** Well-formed states *)

Section wellformed.
Context {T : Type}.
Variable combiner : T → T → T.
Implicit Types (st : state T) (g : goroutine T) (o : op T).

Lemma exec_inv i o st st' :
  exec i o st = Some st' →
  match o with
  | Recv c k => ∃ ch r ch',
      chans st !! c = Some ch ∧ chan_recv ch = Some (r, ch') ∧
      st' = with_pool (<[i := k r]> (pool st)) (with_chans (<[c := ch']> (chans st)) st)
  | Send c v k => ∃ ch ch',
      chans st !! c = Some ch ∧ chan_send v ch = Some ch' ∧
      st' = with_pool (<[i := k]> (pool st)) (with_chans (<[c := ch']> (chans st)) st)
  | Close c k => ∃ ch ch',
      chans st !! c = Some ch ∧ chan_close ch = Some ch' ∧
      st' = with_pool (<[i := k]> (pool st)) (with_chans (<[c := ch']> (chans st)) st)
  | StopClosed s k =>
      sigs st !! s = Some true ∧ st' = with_pool (<[i := k]> (pool st)) st
  | CtxDone k =>
      cancelled (tr st) = true ∧ st' = with_pool (<[i := k]> (pool st)) st
  | Tau k => st' = with_pool (<[i := k]> (pool st)) st
  | WgDone TreeWg k => ∃ n,
      wg (tr st) = S n ∧
      st' = with_pool (<[i := k]> (pool st)) (with_tr (with_wg n (tr st)) st)
  | WgDone (NodeWg w) k => ∃ n,
      wgs st !! w = Some (S n) ∧
      st' = with_pool (<[i := k]> (pool st)) (with_wgs (<[w := n]> (wgs st)) st)
  | WgWait w k =>
      wgs st !! w = Some 0 ∧ st' = with_pool (<[i := k]> (pool st)) st
  | Fork size n k => ∃ ch,
      make_chan size = Some ch ∧
      st' = with_pool (<[i := (k (length (chans st)) (length (wgs st))).2]> (pool st)
                         ++ (k (length (chans st)) (length (wgs st))).1)
              (with_wgs (wgs st ++ [n]) (with_chans (chans st ++ [ch]) st))
  end.
Proof.
  destruct o as [c k|c v k|c k|sg k|k|k|[|w] k|w k|size n k]; simpl; intros H.
  - apply bind_Some in H as (ch & Hch & H).
    apply bind_Some in H as ([r ch'] & Hr & [= <-]). eauto 10.
  - apply bind_Some in H as (ch & Hch & H).
    apply bind_Some in H as (ch' & Hr & [= <-]). eauto 10.
  - apply bind_Some in H as (ch & Hch & H).
    apply bind_Some in H as (ch' & Hr & [= <-]). eauto 10.
  - apply bind_Some in H as ([] & Hs & H); by simplify_eq.
  - destruct (cancelled (tr st)); by simplify_eq.
  - by simplify_eq.
  - destruct (wg (tr st)); simplify_eq. eauto.
  - apply bind_Some in H as ([|n] & Hs & H); simplify_eq. eauto.
  - apply bind_Some in H as ([|n] & Hs & H); by simplify_eq.
  - apply bind_Some in H as (ch & Hch & H).
    destruct (k _ _) as [gs g'] eqn:Hk. simplify_eq/=. eauto.
Qed.

Lemma handoff_inv i bi j bj st st' :
  handoff combiner i bi j bj st = Some st' →
  ∃ gi gj c v ks kr ch,
    pool st !! i = Some gi ∧ pool st !! j = Some gj ∧
    next combiner (tr st) gi !! bi = Some (Send c v ks) ∧
    next combiner (tr st) gj !! bj = Some (Recv c kr) ∧
    i ≠ j ∧ chans st !! c = Some ch ∧ buf ch = [] ∧ closed ch = false ∧
    st' = with_pool (<[j := kr (Some v)]> (<[i := ks]> (pool st))) st.
Proof.
  unfold handoff. intros H.
  apply bind_Some in H as (gi & Hgi & H). apply bind_Some in H as (gj & Hgj & H).
  apply bind_Some in H as (oi & Hoi & H). apply bind_Some in H as (oj & Hoj & H).
  destruct oi as [| c v ks | | | | | | |]; try done.
  destruct oj as [c' kr | | | | | | | |]; try done.
  apply bind_Some in H as (ch & Hch & H).
  case_decide as Hd; [|done]. destruct Hd as (? & <- & ? & ?). simplify_eq.
  eauto 20.
Qed.

(** The channels, stop signals and wait groups a goroutine refers to. *)
Definition chan_ids g : list nat :=
  match g with
  | Adapter o c _ => [o; c]
  | Collector c _ => [c]
  | ONode f s c _ => [f; s; c]
  | UNode f s c pc =>
      match pc with
      | UStart => [f; s; c]
      | URecv1 fanIn | URecv2 fanIn _ | USend fanIn _ | USendLast fanIn _
      | UClose fanIn | UExit fanIn => [f; s; c; fanIn]
      end
  | Forwarder src fanIn _ _ => [src; fanIn]
  | Closer fanIn _ _ => [fanIn]
  | Producer o _ _ => [o]
  | Consumer c _ _ => [c]
  end.

Definition sig_ids g : list nat :=
  match g with
  | Collector _ (KSelect s) => [s]
  | _ => []
  end.

Definition wg_ids g : list nat :=
  match g with
  | Forwarder _ _ w _ | Closer _ w _ => [w]
  | _ => []
  end.

Definition ids_ok (nc ns nw : nat) g : Prop :=
  Forall (λ c, c < nc) (chan_ids g) ∧
  Forall (λ s, s < ns) (sig_ids g) ∧
  Forall (λ w, w < nw) (wg_ids g).

Record wf st : Prop := {
  wf_chans : Forall chan_wf (chans st);
  wf_size : (0 ≤ bufSize (tr st))%Z;
  wf_output : output (tr st) < length (chans st);
  wf_stop : sigs st !! stop (tr st) = Some false;
  wf_roots : ∀ level c, roots (tr st) !! level = Some (Some c) → c < length (chans st);
  wf_pool : Forall (ids_ok (length (chans st)) (length (sigs st)) (length (wgs st))) (pool st)
}.

Lemma ids_ok_mono nc ns nw nc' ns' nw' g :
  nc ≤ nc' → ns ≤ ns' → nw ≤ nw' → ids_ok nc ns nw g → ids_ok nc' ns' nw' g.
Proof.
  intros ??? (H1 & H2 & H3).
  repeat split; (eapply Forall_impl; [eassumption|]); simpl; lia.
Qed.

Lemma ids_ok_pool_mono nc ns nw nc' ns' nw' (gs : list (goroutine T)) :
  nc ≤ nc' → ns ≤ ns' → nw ≤ nw' →
  Forall (ids_ok nc ns nw) gs → Forall (ids_ok nc' ns' nw') gs.
Proof. intros ??? H. eapply Forall_impl; [exact H|]. intros g. by apply ids_ok_mono. Qed.

(** One step of a goroutine mentions only identifiers it already held,
    the current stop signal, the output, or what it has just created. *)
Lemma next_ids_ok st g b o :
  wf st → ids_ok (length (chans st)) (length (sigs st)) (length (wgs st)) g →
  next combiner (tr st) g !! b = Some o →
  match o with
  | Recv c k => c < length (chans st) ∧
      ∀ r, ids_ok (length (chans st)) (length (sigs st)) (length (wgs st)) (k r)
  | Send c _ k | Close c k => c < length (chans st) ∧
      ids_ok (length (chans st)) (length (sigs st)) (length (wgs st)) k
  | StopClosed _ k | CtxDone k | Tau k | WgDone _ k | WgWait _ k =>
      ids_ok (length (chans st)) (length (sigs st)) (length (wgs st)) k
  | Fork _ _ k =>
      Forall (ids_ok (S (length (chans st))) (length (sigs st)) (S (length (wgs st))))
        ((k (length (chans st)) (length (wgs st))).2 ::
         (k (length (chans st)) (length (wgs st))).1)
  end.
Proof.
  intros Hwf (Hc & Hs & Hw) Ho.
  pose proof (wf_output _ Hwf) as Hout.
  pose proof (lookup_lt_Some _ _ _ (wf_stop _ Hwf)) as Hstop.
  destruct g as [src c []|c []|f s c []|f s c []|src fanIn w []|fanIn w []
                 |src [|v rest] []|c got []];
    simpl in *; repeat (destruct b as [|b]; simplify_eq/=);
    unfold ids_ok; simpl; decompose_Forall_hyps;
    repeat match goal with
           | |- _ ∧ _ => split
           | |- ∀ _ : option _, _ => intros []
           | |- Forall _ _ => simpl; constructor
           end; simpl; try done; try lia.
Qed.

Lemma wf_exec st st' i b g o :
  wf st → pool st !! i = Some g → next combiner (tr st) g !! b = Some o →
  exec i o st = Some st' → wf st'.
Proof.
  intros Hwf Hg Ho Hex.
  pose proof (Forall_lookup_1 _ _ _ _ (wf_pool _ Hwf) Hg) as Hids.
  pose proof (next_ids_ok _ _ _ _ Hwf Hids Ho) as Hk.
  destruct Hwf as [Hch Hsz Hout Hstp Hrt Hpl].
  apply exec_inv in Hex.
  destruct o as [c k|c v k|c k|sg k|k|k|[|w] k|w k|size n k]; simpl in *.
  - destruct Hex as (ch & r & ch' & Hc & Hr & ->). destruct Hk as [Hlt Hk].
    split; simpl; rewrite ?length_insert; try done.
    + apply Forall_insert; [done|].
      eapply chan_recv_wf; [|done]. by eapply Forall_lookup_1.
    + by apply Forall_insert.
  - destruct Hex as (ch & ch' & Hc & Hr & ->). destruct Hk as [Hlt Hk].
    split; simpl; rewrite ?length_insert; try done.
    + apply Forall_insert; [done|]. by eapply chan_send_wf.
    + by apply Forall_insert.
  - destruct Hex as (ch & ch' & Hc & Hr & ->). destruct Hk as [Hlt Hk].
    split; simpl; rewrite ?length_insert; try done.
    + apply Forall_insert; [done|].
      eapply chan_close_wf; [|done]. by eapply Forall_lookup_1.
    + by apply Forall_insert.
  - destruct Hex as (? & ->). split; simpl; try done. by apply Forall_insert.
  - destruct Hex as (? & ->). split; simpl; try done. by apply Forall_insert.
  - subst st'. split; simpl; try done. by apply Forall_insert.
  - destruct Hex as (n & ? & ->). split; simpl; try done. by apply Forall_insert.
  - destruct Hex as (n & ? & ->). split; simpl; rewrite ?length_insert; try done.
    by apply Forall_insert.
  - destruct Hex as (? & ->). split; simpl; try done. by apply Forall_insert.
  - destruct Hex as (ch & Hmk & ->). apply make_chan_Some in Hmk as [? ->].
    apply Forall_cons_1 in Hk as [Hk1 Hk2].
    split; simpl; rewrite ?length_app; simpl; rewrite ?Nat.add_1_r; try done.
    + apply Forall_app. split; [done|]. repeat constructor. unfold chan_wf. simpl. lia.
    + lia.
    + intros level c Hc. apply Hrt in Hc. lia.
    + apply Forall_app. split; [|done].
      apply Forall_insert; [|done].
      eapply ids_ok_pool_mono; [| | |exact Hpl]; lia.
Qed.

Lemma wf_handoff st st' i bi j bj :
  wf st → handoff combiner i bi j bj st = Some st' → wf st'.
Proof.
  intros Hwf (gi & gj & c & v & ks & kr & ch & Hgi & Hgj & Hoi & Hoj & _ & _ & _ & _ & ->)%handoff_inv.
  pose proof (Forall_lookup_1 _ _ _ _ (wf_pool _ Hwf) Hgi) as Hidi.
  pose proof (Forall_lookup_1 _ _ _ _ (wf_pool _ Hwf) Hgj) as Hidj.
  pose proof (next_ids_ok _ _ _ _ Hwf Hidi Hoi) as [_ Hki].
  pose proof (next_ids_ok _ _ _ _ Hwf Hidj Hoj) as [_ Hkj].
  destruct Hwf as [Hch Hsz Hout Hstp Hrt Hpl].
  split; simpl; try done. by do 2 (apply Forall_insert; [|done]).
Qed.

(** What [Add] leaves alone. *)
Definition same_frame st st' : Prop :=
  bufSize (tr st') = bufSize (tr st) ∧ output (tr st') = output (tr st) ∧
  cancelled (tr st') = cancelled (tr st) ∧
  waitForAll (tr st') = waitForAll (tr st) ∧ ordered (tr st') = ordered (tr st) ∧
  wgs st' = wgs st.

Lemma Add_frame out st st' : Add out st = Some st' → same_frame st st'.
Proof.
  intros Hadd.
  eapply (Add_preserves (λ st1, same_frame st st1) (λ _ st1, same_frame st st1) (λ _, True));
    [..|exact Hadd]; try done.
  - intros st1 st2 H (_ & ->)%updateCollectors_Some. exact H.
  - by apply Forall_true.
Qed.

Lemma exec_frame i b g o st st' :
  next combiner (tr st) g !! b = Some o → exec i o st = Some st' →
  bufSize (tr st') = bufSize (tr st) ∧ output (tr st') = output (tr st) ∧
  cancelled (tr st') = cancelled (tr st) ∧
  waitForAll (tr st') = waitForAll (tr st) ∧ ordered (tr st') = ordered (tr st) ∧
  roots (tr st') = roots (tr st) ∧ stop (tr st') = stop (tr st) ∧ sigs st' = sigs st.
Proof.
  intros _ Hex. apply exec_inv in Hex.
  destruct o as [c k|c v k|c k|sg k|k|k|[|w] k|w k|size n k]; simpl in *;
    destruct_and?; repeat match goal with H : ∃ _, _ |- _ => destruct H end;
    destruct_and?; by subst.
Qed.

(** The caller passes channels of its own to [Add]: channels that
    existed before the tree, hence below its output channel. *)
Definition calls_ok (n : nat) (p : list call) : Prop :=
  Forall (λ c, match c with
               | CAdd out => Forall (λ src, src < n) out
               | CFinish => True
               end) p.

(** The steps of [Add] on a well-formed state. *)
Lemma wf_leaf st (src : nat) ch :
  wf st → src < length (chans st) → make_chan (bufSize (tr st)) = Some ch →
  wf (spawn (Adapter src (length (chans st)) ASelect) (with_chans (chans st ++ [ch]) st)).
Proof.
  intros [Hch Hsz Hop Hstp Hrt Hpl] Hsrc [_ ->]%make_chan_Some.
  split; simpl; rewrite ?length_app; simpl; try done; try lia.
  - apply Forall_app. split; [done|]. repeat constructor. unfold chan_wf. simpl. lia.
  - intros level c Hc. apply Hrt in Hc. lia.
  - apply Forall_app. split.
    + eapply ids_ok_pool_mono; [| | |exact Hpl]; lia.
    + repeat constructor; simpl; lia.
Qed.

Lemma wf_grow st level :
  wf st → wf (with_tr (with_roots (extend level (roots (tr st))) (tr st)) st).
Proof.
  intros [Hch Hsz Hop Hstp Hrt Hpl]. split; simpl; try done.
  intros lv c Hc. apply (Hrt lv).
  destruct (extend_lookup (roots (tr st)) level lv) as [H|H]; congruence.
Qed.

Lemma wf_store st (root level : nat) :
  wf st → root < length (chans st) →
  wf (with_tr (with_roots (<[level := Some root]> (roots (tr st))) (tr st)) st).
Proof.
  intros [Hch Hsz Hop Hstp Hrt Hpl] Hroot. split; simpl; try done.
  intros lv c Hc. destruct (decide (level = lv)) as [->|Hne].
  - apply list_lookup_insert_Some in Hc as [(_ & [= <-] & _)|[? _]]; done.
  - rewrite list_lookup_insert_ne in Hc by done. eauto.
Qed.

Lemma wf_pair st (root level prev : nat) ch :
  wf st → root < length (chans st) → roots (tr st) !! level = Some (Some prev) →
  make_chan (bufSize (tr st)) = Some ch →
  wf (spawn (if ordered (tr st)
             then ONode prev root (length (chans st)) ORecv1
             else UNode prev root (length (chans st)) UStart)
        (with_chans (chans st ++ [ch])
           (with_tr (with_roots (<[level := None]> (roots (tr st))) (tr st)) st))).
Proof.
  intros [Hch Hsz Hop Hstp Hrt Hpl] Hroot Hslot [_ ->]%make_chan_Some.
  pose proof (Hrt _ _ Hslot) as Hprev.
  split; simpl; rewrite ?length_app; simpl; try done; try lia.
  - apply Forall_app. split; [done|]. repeat constructor. unfold chan_wf. simpl. lia.
  - intros lv c Hc. destruct (decide (level = lv)) as [->|Hne].
    + rewrite list_lookup_insert_eq in Hc by (by eapply lookup_lt_Some). done.
    + rewrite list_lookup_insert_ne in Hc by done. apply Hrt in Hc. lia.
  - apply Forall_app. split.
    + eapply ids_ok_pool_mono; [| | |exact Hpl]; lia.
    + destruct (ordered (tr st)); repeat constructor; simpl; lia.
Qed.

Lemma wf_collect st st' : wf st → updateCollectors st = Some st' → wf st'.
Proof.
  intros [Hch Hsz Hop Hstp Hrt Hpl] (Hs & ->)%updateCollectors_Some.
  pose proof (lookup_lt_Some _ _ _ Hs) as Hlt.
  split; simpl; rewrite ?length_app, ?length_insert; simpl; try done.
  - rewrite lookup_app_r by (rewrite length_insert; lia).
    by rewrite length_insert, Nat.sub_diag.
  - apply Forall_app. split.
    + eapply ids_ok_pool_mono; [| | |exact Hpl]; lia.
    + unfold new_collectors. apply Forall_fmap, Forall_forall.
      intros c ([c'|] & (lv & Hc)%list_elem_of_lookup & [= <-])%list_elem_of_omap.
      repeat constructor. simpl. eauto.
Qed.

(** Induction over [Add] for a property of well-formed states: as
    [Add_preserves], with well-formedness carried along. *)
Section Add_wf_principle.
Variable P : state T → Prop.
Variable Pf : nat → state T → Prop.

Hypothesis leaf : ∀ st (src : nat) ch,
  wf st → P st → src < output (tr st) → make_chan (bufSize (tr st)) = Some ch →
  Pf (length (chans st))
     (spawn (Adapter src (length (chans st)) ASelect) (with_chans (chans st ++ [ch]) st)).
Hypothesis grow : ∀ st root level,
  wf st → root < length (chans st) → Pf root st →
  Pf root (with_tr (with_roots (extend level (roots (tr st))) (tr st)) st).
Hypothesis store : ∀ st root level,
  wf st → root < length (chans st) → Pf root st → roots (tr st) !! level = Some None →
  P (with_tr (with_roots (<[level := Some root]> (roots (tr st))) (tr st)) st).
Hypothesis pair : ∀ st root level prev ch,
  wf st → root < length (chans st) → Pf root st →
  roots (tr st) !! level = Some (Some prev) →
  make_chan (bufSize (tr st)) = Some ch →
  Pf (length (chans st))
     (spawn (if ordered (tr st)
             then ONode prev root (length (chans st)) ORecv1
             else UNode prev root (length (chans st)) UStart)
        (with_chans (chans st ++ [ch])
           (with_tr (with_roots (<[level := None]> (roots (tr st))) (tr st)) st))).
Hypothesis collect : ∀ st st', wf st → P st → updateCollectors st = Some st' → P st'.

Lemma Add_preserves_wf out st st' :
  wf st → P st → Forall (λ src, src < output (tr st)) out → Add out st = Some st' →
  wf st' ∧ P st'.
Proof using leaf grow store pair collect.
  intros Hwf HP Hout Hadd.
  cut ((wf st' ∧ output (tr st') = output (tr st)) ∧ P st'); [by intros [[] ?]|].
  eapply (Add_preserves
            (λ st1, (wf st1 ∧ output (tr st1) = output (tr st)) ∧ P st1)
            (λ root st1, ((wf st1 ∧ output (tr st1) = output (tr st)) ∧
                          root < length (chans st1)) ∧ Pf root st1)
            (λ src, src < output (tr st))); [..|done|exact Hout|exact Hadd].
  - intros st1 src ch [[Hwf1 Ho1] HP1] Hsrc Hmk.
    pose proof (wf_output _ Hwf1) as Hlt. rewrite Ho1 in Hlt.
    split; [split; [split|]|].
    + apply wf_leaf; [done|lia|done].
    + done.
    + simpl. rewrite length_app. simpl. lia.
    + apply leaf; [done..|by rewrite Ho1|done].
  - intros st1 root level [[[Hwf1 Ho1] Hroot] HP1].
    split; [split; [split|]|]; [by apply wf_grow|done|done|by apply grow].
  - intros st1 root level [[[Hwf1 Ho1] Hroot] HP1] Hslot.
    split; [split|]; [by apply wf_store|done|by apply store].
  - intros st1 root level prev ch [[[Hwf1 Ho1] Hroot] HP1] Hslot Hmk.
    split; [split; [split|]|].
    + by apply wf_pair.
    + done.
    + simpl. rewrite length_app. simpl. lia.
    + by apply pair.
  - intros st1 st2 [[Hwf1 Ho1] HP1] Hupd.
    split; [split|]; [by eapply wf_collect| |by eapply collect].
    apply updateCollectors_Some in Hupd as [_ ->]. done.
Qed.
End Add_wf_principle.

Lemma wf_Add out st st' :
  wf st → Forall (λ src, src < output (tr st)) out → Add out st = Some st' → wf st'.
Proof.
  intros Hwf Hout Hadd.
  by destruct (Add_preserves_wf (λ _, True) (λ _ _, True) ltac:(done) ltac:(done)
                 ltac:(done) ltac:(done) ltac:(done) out st st' Hwf I Hout Hadd).
Qed.

Lemma wf_cancel st : wf st → wf (cancel st).
Proof. by intros []. Qed.

Lemma wf_Finish_enter st : wf st → wf (Finish_enter st).
Proof. unfold Finish_enter. destruct (waitForAll _); eauto using wf_cancel. Qed.

Lemma wf_set_output st ch :
  wf st → chan_wf ch → wf (with_chans (<[output (tr st) := ch]> (chans st)) st).
Proof.
  intros [Hch Hsz Hop Hstp Hrt Hpl] Hwf.
  split; simpl; rewrite ?length_insert; try done. by apply Forall_insert.
Qed.

Lemma wf_Finish_resume st st' err :
  wf st → Finish_resume combiner st = Some (st', err) → wf st'.
Proof.
  intros Hwf. unfold Finish_resume. destruct (wg (tr st)); [|done].
  destruct (waitForAll (tr st)).
  - intros (ch & Hch & H)%bind_Some. apply bind_Some in H as (ch1 & Hsend & H).
    apply bind_Some in H as (ch2 & Hclose & [= <- <-]).
    apply (wf_set_output (cancel st)); [by apply wf_cancel|].
    eapply chan_close_wf; [|done].
    destruct (buf ch) eqn:Hb; simplify_eq.
    + by eapply Forall_lookup_1; [apply (wf_chans _ Hwf)|].
    + by eapply chan_send_wf.
  - intros (ch & Hch & H)%bind_Some.
    apply bind_Some in H as (ch2 & Hclose & [= <- <-]).
    apply wf_set_output; [done|].
    eapply chan_close_wf; [|done].
    by eapply Forall_lookup_1; [apply (wf_chans _ Hwf)|].
Qed.

(** A well-formed state with admissible calls still to come. *)
Definition sys_wf (s : sys T) : Prop :=
  wf (world s) ∧ calls_ok (output (tr (world s))) (prog s).

Lemma sys_wf_step a s s' : sys_wf s → step combiner a s = Some s' → sys_wf s'.
Proof.
  apply step_preserves; clear.
  - intros s st' i b g o [Hwf Hok] Hg Ho Hex. split; simpl.
    + eauto using wf_exec.
    + by destruct (exec_frame _ _ _ _ _ _ Ho Hex) as (_ & -> & _).
  - intros s st' i bi j bj [Hwf Hok] Hh. split; simpl; [eauto using wf_handoff|].
    apply handoff_inv in Hh as (? & ? & ? & ? & ? & ? & ? & H). by destruct_and!; subst.
  - intros s st' out rest [Hwf Hok] _ Hp Hadd. rewrite Hp in Hok.
    apply Forall_cons_1 in Hok as [Hout Hok]. split; simpl.
    + eauto using wf_Add.
    + by destruct (Add_frame _ _ _ Hadd) as (_ & -> & _).
  - intros s rest [Hwf Hok] _ Hp. rewrite Hp in Hok.
    apply Forall_cons_1 in Hok as [_ Hok]. split; simpl; [eauto using wf_Finish_enter|].
    unfold Finish_enter. by destruct (waitForAll _).
  - intros s st' err [Hwf Hok] _ Hres. split; simpl; [eauto using wf_Finish_resume|].
    unfold Finish_resume in Hres. destruct (wg _); [|done].
    destruct (waitForAll _); repeat (apply bind_Some in Hres as (? & ? & Hres));
      by simplify_eq.
Qed.

Lemma sys_wf_run sched s s' : sys_wf s → run combiner sched s = Some s' → sys_wf s'.
Proof.
  revert s. induction sched as [|a sched IH]; intros s Hs; simpl; [by intros [= <-]|].
  intros (s1 & Hstep & Hrun)%bind_Some. eauto using sys_wf_step.
Qed.

Lemma source_chans_length (srcs : list (nat * list T)) :
  length (source_chans srcs) = length srcs.
Proof. unfold source_chans. by rewrite length_fmap. Qed.

Lemma sys_wf_boot bufferSize w ord srcs readers p s :
  calls_ok (length srcs) p →
  boot bufferSize w ord srcs readers p = Some s → sys_wf s.
Proof.
  intros Hp. unfold boot, New.
  intros (st & (out & [Hsz ->]%make_chan_Some & [= <-])%bind_Some & [= <-])%bind_Some.
  split; simpl; rewrite ?source_chans_length; [|done].
  split; simpl; rewrite ?length_app, ?source_chans_length; simpl; try done; try lia.
  - apply Forall_app. split.
    + unfold source_chans. apply Forall_fmap, Forall_forall. intros [] _.
      unfold chan_wf. simpl. lia.
    + repeat constructor. unfold chan_wf. simpl. lia.
  - intros level c Hc. do 20 (destruct level as [|level]; [done|]). done.
  - apply Forall_app. split.
    + unfold producers. apply Forall_lookup. intros i g.
      rewrite list_lookup_imap. intros ([cp vs] & Hi%lookup_lt_Some & ->)%fmap_Some.
      repeat constructor. simpl. lia.
    + apply Forall_replicate. repeat constructor. simpl. lia.
Qed.
End wellformed.

(** ** One buffer capacity for every queue of the tree *)

Section capacity.
Context {T : Type}.
Variable combiner : T → T → T.
Implicit Types (st : state T) (g : goroutine T) (o : op T).

(** Every channel from index [n] on has the capacity the tree was given. *)
Definition uniform (n : nat) st : Prop :=
  ∀ c ch, n ≤ c → chans st !! c = Some ch → cap ch = Z.to_nat (bufSize (tr st)).

Lemma next_Fork t g b size n k :
  next combiner t g !! b = Some (Fork size n k) →
  size = bufSize t ∧ n = 2 ∧ ∃ f s c,
    g = UNode f s c UStart ∧ b = 0 ∧
    k = λ fanIn w, ([Forwarder f fanIn w FRecv; Forwarder s fanIn w FRecv; Closer fanIn w CWait],
                    UNode f s c (URecv1 fanIn)).
Proof.
  destruct g as [src c []|c []|f s c []|f s c []|src fanIn w []|fanIn w []
                 |src [|v rest] []|c got []];
    simpl; repeat (destruct b as [|b]; simpl; try done); intros [= <- <- <-]; eauto 10.
Qed.

Lemma uniform_set n st c ch ch' :
  uniform n st → chans st !! c = Some ch → cap ch' = cap ch →
  uniform n (with_chans (<[c := ch']> (chans st)) st).
Proof.
  intros Hu Hc Hcap c' ch0 Hn. simpl. destruct (decide (c = c')) as [<-|Hne].
  - rewrite list_lookup_insert_eq by (by eapply lookup_lt_Some).
    intros [= <-]. rewrite Hcap. by eapply Hu.
  - rewrite list_lookup_insert_ne by done. by apply Hu.
Qed.

Lemma uniform_alloc n st ch :
  uniform n st → make_chan (bufSize (tr st)) = Some ch →
  uniform n (with_chans (chans st ++ [ch]) st).
Proof.
  intros Hu [_ ->]%make_chan_Some c ch0 Hn. simpl.
  destruct (decide (c < length (chans st))) as [Hlt|Hge].
  - rewrite lookup_app_l by done. by apply Hu.
  - rewrite lookup_app_r by lia. intros [_ <-]%list_lookup_singleton_Some. done.
Qed.

Lemma uniform_exec n st st' i b g o :
  uniform n st → next combiner (tr st) g !! b = Some o → exec i o st = Some st' →
  uniform n st'.
Proof.
  intros Hu Ho Hex. apply exec_inv in Hex.
  destruct o as [c k|c v k|c k|sg k|k|k|[|w] k|w k|size m k]; simpl in *.
  - destruct Hex as (ch & r & ch' & Hc & Hr & ->).
    apply (uniform_set _ _ _ _ _ Hu Hc). by eapply chan_recv_cap.
  - destruct Hex as (ch & ch' & Hc & Hr & ->).
    apply (uniform_set _ _ _ _ _ Hu Hc). by eapply chan_send_cap.
  - destruct Hex as (ch & ch' & Hc & Hr & ->).
    apply (uniform_set _ _ _ _ _ Hu Hc). by eapply chan_close_cap.
  - by destruct Hex as (_ & ->).
  - by destruct Hex as (_ & ->).
  - by subst.
  - by destruct Hex as (m & _ & ->).
  - by destruct Hex as (m & _ & ->).
  - by destruct Hex as (_ & ->).
  - destruct Hex as (ch & Hmk & ->). apply next_Fork in Ho as (-> & _).
    by apply (uniform_alloc _ _ _ Hu).
Qed.

Lemma uniform_Add n out st st' : uniform n st → Add out st = Some st' → uniform n st'.
Proof.
  intros Hu Hadd.
  eapply (Add_preserves (uniform n) (λ _, uniform n) (λ _, True)); [..|exact Hu| |exact Hadd];
    try done.
  - intros st1 src ch Hu1 _ Hmk. by apply (uniform_alloc _ _ _ Hu1).
  - intros st1 root level prev ch Hu1 _ Hmk. by apply (uniform_alloc _ _ _ Hu1).
  - by intros st1 st2 Hu1 (_ & ->)%updateCollectors_Some.
  - by apply Forall_true.
Qed.

Lemma uniform_Finish_resume n st st' err :
  uniform n st → Finish_resume combiner st = Some (st', err) → uniform n st'.
Proof.
  intros Hu. unfold Finish_resume. destruct (wg (tr st)); [|done].
  destruct (waitForAll (tr st)).
  - intros (ch & Hch & H)%bind_Some. apply bind_Some in H as (ch1 & Hsend & H).
    apply bind_Some in H as (ch2 & Hclose & [= <- <-]).
    apply (uniform_set n (cancel st) _ ch); [done..|].
    rewrite (chan_close_cap _ _ Hclose).
    destruct (buf ch); simplify_eq; [done|]. by rewrite (chan_send_cap _ _ _ Hsend).
  - intros (ch & Hch & H)%bind_Some.
    apply bind_Some in H as (ch2 & Hclose & [= <- <-]).
    apply (uniform_set n st _ ch); [done..|]. by eapply chan_close_cap.
Qed.

Lemma uniform_run n sched (s s' : sys T) :
  uniform n (world s) → run combiner sched s = Some s' → uniform n (world s').
Proof.
  apply (run_preserves combiner (λ s, uniform n (world s))); simpl.
  - eauto using uniform_exec.
  - intros s1 st' i bi j bj Hu (? & ? & ? & ? & ? & ? & ? & H)%handoff_inv.
    by destruct_and!; subst.
  - eauto using uniform_Add.
  - intros s1 rest Hu _ _. unfold Finish_enter. by destruct (waitForAll _).
  - eauto using uniform_Finish_resume.
Qed.
End capacity.

(** ** Placement, construction and the result of [Finish] *)

Section sequential_claims.
Context {T : Type}.
Variable combiner : T → T → T.
Implicit Types (st : state T) (g : goroutine T).



Lemma add_leaf_total src st :
  (0 ≤ bufSize (tr st))%Z → is_Some (add_leaf src st).
Proof.
  intros Hsz. unfold add_leaf.
  assert (make_chan (T:=T) (bufSize (tr st)) = Some (Chan [] false (Z.to_nat (bufSize (tr st)))))
    as -> by (by apply make_chan_Some).
  simpl. by apply addOne_total.
Qed.

Lemma addOne_rec_bufSize fuel root level st st' :
  addOne_rec fuel root level st = Some st' → bufSize (tr st') = bufSize (tr st).
Proof.
  apply (addOne_rec_preserves (λ st1, bufSize (tr st1) = bufSize (tr st))
           (λ _ st1, bufSize (tr st1) = bufSize (tr st))); done.
Qed.

Lemma add_leaves_total out st :
  (0 ≤ bufSize (tr st))%Z → is_Some (add_leaves out st).
Proof.
  revert st. induction out as [|src out IH]; intros st Hsz; simpl; [eauto|].
  destruct (add_leaf_total src st Hsz) as [st1 Hst1]. rewrite Hst1. simpl.
  apply IH. unfold add_leaf in Hst1.
  apply bind_Some in Hst1 as (ch & _ & Hone).
  apply addOne_rec_bufSize in Hone. by rewrite Hone.
Qed.




Lemma Finish_resume_err st st' err :
  Finish_resume combiner st = Some (st', err) → err = None.
Proof.
  unfold Finish_resume. destruct (wg (tr st)); [|done].
  destruct (waitForAll (tr st)); intros H;
    repeat (apply bind_Some in H as (? & ? & H)); by simplify_eq.
Qed.

(** C9: in both modes, whenever [Finish] returns, the error it returns
    is [nil]. *)
Theorem Finish_returns_nil bufferSize w ord srcs readers p sched (s s' : sys T) err :
  boot bufferSize w ord srcs readers p = Some s →
  run combiner sched s = Some s' →
  result s' = Some err →
  err = None.
Proof.
  intros Hboot Hrun.
  cut (result s' = None ∨ result s' = Some None); [intros [->| ->]; congruence|].
  eapply (run_preserves combiner (λ s, result s = None ∨ result s = Some None));
    [..|exact Hrun]; simpl; try done.
  - intros s1 st' err' _ _ ->%Finish_resume_err. by right.
  - unfold boot in Hboot. apply bind_Some in Hboot as (st & _ & [= <-]). by left.
Qed.

End sequential_claims.


(** ** Completion barriers and channel ownership *)

Section barriers.
Context {T : Type}.
Variable combiner : T → T → T.
Implicit Types (st : state T) (g : goroutine T) (o : op T).

Ltac next_cases g b Ho :=
  destruct g as [?src ?c []|?c []|?f ?s ?c []|?f ?s ?c []|?src ?fanIn ?w []|?fanIn ?w []
                 |?src [|?v ?rest] []|?c ?got []];
  simpl in Ho; repeat (destruct b as [|b]; simpl in Ho; try done); simplify_eq.

(** What a goroutine contributes to the tree's wait group: one for every
    collector that has not yet called [t.wg.Done()]. *)
Definition collecting g : nat :=
  match g with
  | Collector _ KExit => 0
  | Collector _ _ => 1
  | _ => 0
  end.

(** Likewise for the wait group [w] of an unordered node and its two
    forwarders. *)
Definition forwarding (w : nat) g : nat :=
  match g with
  | Forwarder _ _ _ FExit => 0
  | Forwarder _ _ w' _ => if decide (w = w') then 1 else 0
  | _ => 0
  end.

Definition barriers st : Prop :=
  wg (tr st) = sum_list (collecting <$> pool st) ∧
  ∀ w n, wgs st !! w = Some n → n = sum_list (forwarding w <$> pool st).

Lemma sum_list_insert {A} (f : A → nat) (l : list A) i x y :
  l !! i = Some x →
  sum_list (f <$> <[i := y]> l) + f x = sum_list (f <$> l) + f y.
Proof.
  revert i. induction l as [|z l IH]; intros [|i] Hi; simplify_eq/=; [lia|].
  specialize (IH _ Hi). lia.
Qed.

Lemma sum_list_insert_same {A} (f : A → nat) (l : list A) i x y :
  l !! i = Some x → f y = f x → sum_list (f <$> <[i := y]> l) = sum_list (f <$> l).
Proof. intros Hi Hf. pose proof (sum_list_insert f l i x y Hi). lia. Qed.

Lemma sum_list_zero {A} (f : A → nat) (l : list A) :
  sum_list (f <$> l) = 0 ↔ Forall (λ x, f x = 0) l.
Proof.
  induction l as [|z l IH]; [by split; [constructor|]|].
  rewrite fmap_cons, Forall_cons, <- IH. simpl. lia.
Qed.

(** How one operation changes the two counts. *)
Lemma next_collecting t g b o :
  next combiner t g !! b = Some o →
  match o with
  | Recv _ k => ∀ r, collecting (k r) = collecting g
  | WgDone TreeWg k => collecting g = 1 ∧ collecting k = 0
  | Send _ _ k | Close _ k | StopClosed _ k | CtxDone k | Tau k | WgDone (NodeWg _) k
  | WgWait _ k => collecting k = collecting g
  | Fork _ _ k => ∀ x y, collecting (k x y).2 = collecting g ∧
                         Forall (λ g', collecting g' = 0) (k x y).1
  end.
Proof.
  intros Ho. next_cases g b Ho; simpl; try done; try (by intros []).
  intros x y. split; [done|]. by repeat constructor.
Qed.

Lemma next_forwarding w t g b o :
  next combiner t g !! b = Some o →
  match o with
  | Recv _ k => ∀ r, forwarding w (k r) = forwarding w g
  | WgDone (NodeWg w') k =>
      forwarding w k = 0 ∧ forwarding w g = (if decide (w = w') then 1 else 0)
  | Send _ _ k | Close _ k | StopClosed _ k | CtxDone k | Tau k | WgDone TreeWg k
  | WgWait _ k => forwarding w k = forwarding w g
  | Fork _ _ k => ∀ x y, forwarding w (k x y).2 = forwarding w g ∧
      sum_list (forwarding w <$> (k x y).1) = (if decide (w = y) then 2 else 0)
  end.
Proof.
  intros Ho. next_cases g b Ho; simpl; try done; try (by intros []).
  intros x y. split; [done|]. by destruct (decide (w = y)).
Qed.

Lemma forwarding_fresh nc ns nw w g :
  ids_ok nc ns nw g → nw ≤ w → forwarding w g = 0.
Proof.
  intros (_ & _ & Hw) Hle. destruct g as [| | | |src fanIn w' []|fanIn w' []| |]; simpl; try done;
    simpl in Hw; apply Forall_cons_1 in Hw as [Hw _]; case_decide; try done; lia.
Qed.

Lemma barriers_exec st st' i b g o :
  wf st → barriers st → pool st !! i = Some g →
  next combiner (tr st) g !! b = Some o → exec i o st = Some st' → barriers st'.
Proof.
  intros Hwf [Hwg Hnode] Hg Ho Hex.
  apply exec_inv in Hex.
  destruct o as [c k|c v k|c k|sg k|k|k|[|w'] k|w' k|size m k]; simpl in *;
    repeat match goal with
           | H : ∃ _, _ |- _ => destruct H
           | H : _ ∧ _ |- _ => destruct H
           end; subst st';
    pose proof (next_collecting _ _ _ _ Ho) as Hc;
    pose proof (λ w, next_forwarding w _ _ _ _ Ho) as Hf;
    split; simpl in *.
  all: try (by rewrite (sum_list_insert_same _ _ _ _ _ Hg)).
  all: try (intros w n Hw; rewrite (sum_list_insert_same _ _ _ _ _ Hg); [by apply Hnode|];
            by apply (Hf w)).
  - (* t.wg.Done() *)
    pose proof (sum_list_insert collecting _ i _ k Hg) as Hsum.
    destruct Hc as [Hc1 Hc2]. rewrite Hc1, Hc2 in Hsum. lia.
  - (* wg.Done() of a node *)
    intros w n Hw. pose proof (sum_list_insert (forwarding w) _ i _ k Hg) as Hsum.
    destruct (Hf w) as [Hf1 Hf2]. rewrite Hf1, Hf2 in Hsum.
    destruct (decide (w = w')) as [->|Hne].
    + rewrite list_lookup_insert_eq in Hw by (by eapply lookup_lt_Some).
      match goal with H : wgs st !! w' = Some _ |- _ => apply Hnode in H end. simplify_eq. lia.
    + rewrite list_lookup_insert_ne in Hw by done. apply Hnode in Hw. lia.
  - (* the start of an unordered node *)
    rewrite fmap_app, sum_list_with_app.
    destruct (Hc (length (chans st)) (length (wgs st))) as [Hc1 Hc2].
    rewrite (sum_list_insert_same _ _ _ _ _ Hg) by done.
    apply sum_list_zero in Hc2. unfold sum_list in *. lia.
  - intros w n Hw. rewrite fmap_app, sum_list_with_app.
    destruct (Hf w (length (chans st)) (length (wgs st))) as [Hf1 Hf2].
    rewrite (sum_list_insert_same _ _ _ _ _ Hg) by done.
    apply next_Fork in Ho as (_ & -> & _).
    unfold sum_list in *. rewrite Hf2.
    destruct (decide (w < length (wgs st))) as [Hlt|Hge].
    + rewrite lookup_app_l in Hw by done. apply Hnode in Hw.
      case_decide; [lia|]. unfold sum_list in *. lia.
    + rewrite lookup_app_r in Hw by lia.
      apply list_lookup_singleton_Some in Hw as [Hw <-].
      case_decide; [|lia].
      cut (sum_list (forwarding w <$> pool st) = 0); [unfold sum_list; lia|].
      apply sum_list_zero. eapply Forall_impl; [apply (wf_pool _ Hwf)|].
      intros g' Hg'. eapply forwarding_fresh; [done|lia].
Qed.

Lemma barriers_handoff st st' i bi j bj :
  barriers st → handoff combiner i bi j bj st = Some st' → barriers st'.
Proof.
  intros [Hwg Hnode]
    (gi & gj & c & v & ks & kr & ch & Hgi & Hgj & Hoi & Hoj & Hij & _ & _ & _ & ->)%handoff_inv.
  assert (<[i:=ks]> (pool st) !! j = Some gj) as Hgj' by (by rewrite list_lookup_insert_ne).
  split; simpl.
  - rewrite (sum_list_insert_same _ _ _ _ _ Hgj'), (sum_list_insert_same _ _ _ _ _ Hgi); [done|..].
    + apply (next_collecting _ _ _ _ Hoi).
    + apply (next_collecting _ _ _ _ Hoj).
  - intros w n Hw.
    rewrite (sum_list_insert_same _ _ _ _ _ Hgj'), (sum_list_insert_same _ _ _ _ _ Hgi);
      [by apply Hnode|..].
    + apply (next_forwarding w _ _ _ _ Hoi).
    + apply (next_forwarding w _ _ _ _ Hoj).
Qed.

Lemma barriers_spawn st g :
  barriers st → collecting g = 0 → (∀ w, forwarding w g = 0) → barriers (spawn g st).
Proof.
  intros [Hwg Hnode] Hc Hf. split; simpl.
  - rewrite fmap_app, sum_list_with_app. simpl. unfold sum_list in *. lia.
  - intros w n Hw. rewrite fmap_app, sum_list_with_app. simpl. rewrite Hf.
    apply Hnode in Hw. unfold sum_list in *. lia.
Qed.

Lemma new_collectors_collecting rs :
  sum_list (collecting <$> new_collectors (T:=T) rs) = length (new_collectors (T:=T) rs).
Proof.
  unfold new_collectors. induction (omap id rs) as [|c l IH]; [done|].
  rewrite !fmap_cons. simpl. by rewrite IH.
Qed.

Lemma new_collectors_forwarding w rs :
  sum_list (forwarding w <$> new_collectors (T:=T) rs) = 0.
Proof.
  unfold new_collectors. induction (omap id rs) as [|c l IH]; [done|].
  rewrite !fmap_cons. simpl. by rewrite IH.
Qed.

Lemma barriers_Add out st st' : barriers st → Add out st = Some st' → barriers st'.
Proof.
  intros Hb Hadd.
  eapply (Add_preserves barriers (λ _, barriers) (λ _, True)); [..|exact Hb| |exact Hadd];
    try done.
  - intros st1 src ch Hb1 _ _.
    by apply (barriers_spawn (with_chans (chans st1 ++ [ch]) st1)).
  - intros st1 root level prev ch Hb1 _ _.
    apply (barriers_spawn (with_chans (chans st1 ++ [ch]) (with_tr _ st1))); [done|..];
      by destruct (ordered (tr st1)).
  - intros st1 st2 [Hwg Hnode] (_ & ->)%updateCollectors_Some. split; simpl.
    + pose proof (new_collectors_collecting (roots (tr st1))) as Hnew.
      rewrite fmap_app, sum_list_with_app, Hwg. unfold sum_list in *. lia.
    + intros w n Hw. rewrite fmap_app, sum_list_with_app.
      pose proof (new_collectors_forwarding w (roots (tr st1))) as Hnew.
      apply Hnode in Hw. unfold sum_list in *. lia.
  - by apply Forall_true.
Qed.

Lemma barriers_chans st x : barriers st → barriers (with_chans x st).
Proof. by intros []. Qed.

Lemma barriers_Finish_enter st : barriers st → barriers (Finish_enter st).
Proof. unfold Finish_enter. by destruct (waitForAll _). Qed.

Lemma barriers_Finish_resume st st' err :
  barriers st → Finish_resume combiner st = Some (st', err) → barriers st'.
Proof.
  intros Hb. unfold Finish_resume. destruct (wg (tr st)) eqn:Hwg; [|done].
  destruct (waitForAll (tr st)); intros H;
    repeat (apply bind_Some in H as (? & ? & H)); simplify_eq; by destruct Hb.
Qed.

(** The invariant carried along every schedule from here on. *)
Definition sound (s : sys T) : Prop := sys_wf s ∧ barriers (world s).

Lemma sound_step a s s' : sound s → step combiner a s = Some s' → sound s'.
Proof.
  apply (step_preserves combiner sound); clear a s s'.
  - intros s st' i b g o [Hwf Hb] Hg Ho Hex. split.
    + apply (sys_wf_step combiner (Run i b) s); [done|]. simpl. unfold run_goroutine.
      rewrite Hg. simpl. rewrite Ho. simpl. by rewrite Hex.
    + eapply barriers_exec; [apply Hwf|done..].
  - intros s st' i bi j bj [Hwf Hb] Hh. split.
    + apply (sys_wf_step combiner (Handoff i bi j bj) s); [done|]. simpl. by rewrite Hh.
    + by eapply barriers_handoff.
  - intros s st' out rest [Hwf Hb] Hw Hp Hadd. split.
    + apply (sys_wf_step combiner Caller s); [done|]. simpl. unfold caller_step.
      rewrite Hw, Hp. by rewrite Hadd.
    + by eapply barriers_Add.
  - intros s rest [Hwf Hb] Hw Hp. split.
    + apply (sys_wf_step combiner Caller s); [done|]. simpl. unfold caller_step.
      by rewrite Hw, Hp.
    + by apply barriers_Finish_enter.
  - intros s st' err [Hwf Hb] Hw Hres. split.
    + apply (sys_wf_step combiner Caller s); [done|]. simpl. unfold caller_step.
      rewrite Hw. by rewrite Hres.
    + by eapply barriers_Finish_resume.
Qed.

Lemma sound_run sched s s' : sound s → run combiner sched s = Some s' → sound s'.
Proof.
  revert s. induction sched as [|a sched IH]; intros s Hs; simpl; [by intros [= <-]|].
  intros (s1 & Hstep & Hrun)%bind_Some. eauto using sound_step.
Qed.

Lemma sound_boot bufferSize w ord srcs readers p s :
  calls_ok (length srcs) p → boot bufferSize w ord srcs readers p = Some s → sound s.
Proof.
  intros Hp Hboot. split; [by eapply sys_wf_boot|].
  unfold boot, New in Hboot.
  apply bind_Some in Hboot as (st & (out & _ & [= <-])%bind_Some & [= <-]).
  split; simpl; [|done].
  symmetry. apply sum_list_zero, Forall_app. split.
  - unfold producers. apply Forall_lookup. intros i g.
    rewrite list_lookup_imap. by intros ([cp vs] & _ & ->)%fmap_Some.
  - by apply Forall_replicate.
Qed.
End barriers.

(** ** [Finish] in streaming mode *)

Section streaming.
Context {T : Type}.
Variable combiner : T → T → T.
Implicit Types (st : state T) (g : goroutine T) (s : sys T).

(** The configuration of the tree never changes. *)
Definition same_config st st' : Prop :=
  bufSize (tr st') = bufSize (tr st) ∧ output (tr st') = output (tr st) ∧
  waitForAll (tr st') = waitForAll (tr st) ∧ ordered (tr st') = ordered (tr st).

Lemma Finish_resume_frame st st' err :
  Finish_resume combiner st = Some (st', err) →
  bufSize (tr st') = bufSize (tr st) ∧ output (tr st') = output (tr st) ∧
  waitForAll (tr st') = waitForAll (tr st) ∧ ordered (tr st') = ordered (tr st) ∧
  roots (tr st') = roots (tr st) ∧ pool st' = pool st ∧ wg (tr st') = wg (tr st) ∧
  wgs st' = wgs st ∧ sigs st' = sigs st ∧ stop (tr st') = stop (tr st) ∧
  length (chans st') = length (chans st) ∧
  ∀ c, c ≠ output (tr st) → chans st' !! c = chans st !! c.
Proof.
  unfold Finish_resume. destruct (wg (tr st)) eqn:Hwg; [|done].
  destruct (waitForAll (tr st)) eqn:Hmode; intros H;
    repeat (apply bind_Some in H as (? & ? & H)); simplify_eq; simpl;
    rewrite length_insert; split_and!; try done;
    intros c Hc; by rewrite list_lookup_insert_ne.
Qed.

Lemma run_config sched s s' :
  run combiner sched s = Some s' → same_config (world s) (world s').
Proof.
  intros Hrun.
  eapply (run_preserves combiner (λ s1, same_config (world s) (world s1))); [..|exact Hrun];
    unfold same_config; simpl; [| | | | |done].
  - intros s1 st' i b g o (H1 & H2 & H3 & H4) _ Ho Hex.
    destruct (exec_frame _ _ _ _ _ _ _ Ho Hex) as (-> & -> & _ & -> & -> & _). done.
  - intros s1 st' i bi j bj Hs (? & ? & ? & ? & ? & ? & ? & H)%handoff_inv.
    by destruct_and!; subst.
  - intros s1 st' out rest (H1 & H2 & H3 & H4) _ _ Hadd.
    pose proof (Add_frame _ _ _ Hadd) as Hf. unfold same_frame in Hf.
    destruct Hf as (-> & -> & _ & -> & -> & _). done.
  - intros s1 rest Hs _ _. unfold Finish_enter.
    destruct (waitForAll (tr (world s1))) eqn:Hm; simpl; by rewrite ?Hm.
  - intros s1 st' err (H1 & H2 & H3 & H4) _ Hres.
    destruct (Finish_resume_frame _ _ _ Hres) as (-> & -> & -> & -> & _). done.
Qed.

(** While the caller is inside [Finish] in streaming mode, the token has
    been tripped. *)
Definition tripped s : Prop :=
  waiting s = true → waitForAll (tr (world s)) = false → cancelled (tr (world s)) = true.

Lemma tripped_run sched s s' :
  tripped s → run combiner sched s = Some s' → tripped s'.
Proof.
  apply (run_preserves combiner tripped); unfold tripped; simpl; try done.
  - intros s1 st' i b g o Hs _ Ho Hex.
    destruct (exec_frame _ _ _ _ _ _ _ Ho Hex) as (_ & _ & -> & -> & _). done.
  - intros s1 st' i bi j bj Hs (? & ? & ? & ? & ? & ? & ? & H)%handoff_inv.
    by destruct_and!; subst.
  - intros s1 rest _ _ _ _. unfold Finish_enter.
    destruct (waitForAll (tr (world s1))) eqn:Hm; simpl; [by rewrite Hm|done].
Qed.

(** All collectors of the pool have returned. *)
Definition collectors_exited (gs : list (goroutine T)) : Prop :=
  ∀ i c pc, gs !! i = Some (Collector c pc) → pc = KExit.

Lemma barrier_zero st :
  barriers st → wg (tr st) = 0 → collectors_exited (pool st).
Proof.
  intros [Hwg _] Hz. rewrite Hz in Hwg. symmetry in Hwg.
  apply sum_list_zero in Hwg. intros i c pc Hi.
  apply (Forall_lookup_1 _ _ _ _ Hwg) in Hi. by destruct pc.
Qed.

(** C5 (as amended): in streaming mode [Finish] trips the token before it
    waits; it returns only when every root collector has returned (the
    barrier counts collectors, not leaf adapters); it closes the output
    channel only then; and the values buffered in the output channel are
    still there after the close, to be received in order. *)
Theorem Finish_streaming_waits_for_collectors
    bufferSize ord srcs readers p sched (s s1 s2 : sys T) :
  calls_ok (length srcs) p →
  boot bufferSize false ord srcs readers p = Some s →
  run combiner sched s = Some s1 →
  waiting s1 = true →
  step combiner Caller s1 = Some s2 →
  cancelled (tr (world s1)) = true ∧
  collectors_exited (pool (world s1)) ∧
  ∃ ch, chans (world s1) !! Output (world s1) = Some ch ∧ closed ch = false ∧
        chans (world s2) !! Output (world s2) = Some (Chan (buf ch) true (cap ch)) ∧
        ∀ v rest, buf ch = v :: rest →
                  chan_recv (Chan (buf ch) true (cap ch)) = Some (Some v, Chan rest true (cap ch)).
Proof.
  intros Hp Hboot Hrun Hw Hstep.
  pose proof (sound_run combiner _ _ _ (sound_boot _ _ _ _ _ _ _ Hp Hboot) Hrun) as [[Hwf _] Hb].
  assert (waitForAll (tr (world s1)) = false) as Hmode.
  { destruct (run_config _ _ _ Hrun) as (_ & _ & -> & _).
    unfold boot, New in Hboot.
    apply bind_Some in Hboot as (st & (out & _ & [= <-])%bind_Some & [= <-]). done. }
  assert (tripped s1) as Htrip.
  { eapply tripped_run; [|exact Hrun]. unfold boot in Hboot.
    apply bind_Some in Hboot as (st & _ & [= <-]). by intros ?. }
  split; [by apply Htrip|].
  simpl in Hstep. unfold caller_step in Hstep. rewrite Hw in Hstep.
  apply bind_Some in Hstep as ([st' err] & Hres & [= <-]).
  unfold Finish_resume in Hres. destruct (wg (tr (world s1))) eqn:Hwg; [|done].
  split; [by apply barrier_zero|].
  rewrite Hmode in Hres.
  apply bind_Some in Hres as (ch & Hch & Hres).
  apply bind_Some in Hres as (ch' & [Hopen ->]%chan_close_Some & [= <- <-]).
  exists ch. unfold Output. simpl. split; [done|]. split; [done|]. split.
  - rewrite list_lookup_insert_eq; [done|]. by eapply lookup_lt_Some.
  - intros v rest Hbuf. unfold chan_recv. simpl. by rewrite Hbuf.
Qed.
End streaming.

(** ** Who closes which channel *)

Section owners.
Context {T : Type}.
Variable combiner : T → T → T.
Implicit Types (st : state T) (g : goroutine T) (o : op T).

Ltac next_cases g b Ho :=
  destruct g as [?src ?c []|?c []|?f ?s ?c []|?f ?s ?c []|?src ?fanIn ?w []|?fanIn ?w []
                 |?src [|?v ?rest] []|?c ?got []];
  simpl in Ho; repeat (destruct b as [|b]; simpl in Ho; try done); simplify_eq.

(** The channel a goroutine writes to and closes. *)
Definition owned g : list nat :=
  match g with
  | Adapter _ c _ | ONode _ _ c _ | UNode _ _ c _ => [c]
  | Closer fanIn _ _ => [fanIn]
  | Producer o _ _ => [o]
  | Collector _ _ | Forwarder _ _ _ _ | Consumer _ _ _ => []
  end.

(** The goroutine has returned. *)
Definition finished g : bool :=
  match g with
  | Adapter _ _ AExit | Collector _ KExit | ONode _ _ _ OExit | UNode _ _ _ (UExit _)
  | Forwarder _ _ _ FExit | Closer _ _ CExit | Producer _ [] false | Consumer _ _ false => true
  | _ => false
  end.

Lemma finished_next t g : finished g = true ↔ next combiner t g = [].
Proof.
  destruct g as [src c []|c []|f s c []|f s c []|src fanIn w []|fanIn w []
                 |src [|v rest] []|c got []]; done.
Qed.

Record owners st : Prop := {
  own_nodup : NoDup (pool st ≫= owned);
  own_output : output (tr st) ∉ pool st ≫= owned;
  own_open : ∀ i g c ch,
    pool st !! i = Some g → c ∈ owned g → chans st !! c = Some ch →
    closed ch = true → finished g = true
}.

Lemma next_owned t g b o :
  next combiner t g !! b = Some o →
  finished g = false ∧
  match o with
  | Close c k => owned g = [c] ∧ owned k = [c] ∧ finished k = true
  | Recv _ k => ∀ r, owned (k r) = owned g
  | Fork _ _ k => ∀ x y, owned (k x y).2 = owned g ∧ (k x y).1 ≫= owned = [x]
  | Send _ _ k | StopClosed _ k | CtxDone k | Tau k | WgDone _ k | WgWait _ k =>
      owned k = owned g
  end.
Proof.
  intros Ho. next_cases g b Ho; simpl; split; try done; try (by intros []).
Qed.

Lemma owned_lt nc ns nw g c : ids_ok nc ns nw g → c ∈ owned g → c < nc.
Proof.
  intros (Hc & _ & _) Hin.
  destruct g as [src c' pc|c' pc|f s c' pc|f s c' []|src fanIn w pc|fanIn w pc
                 |src pending closes|c' got live]; simpl in *;
    decompose_Forall_hyps; try (by inversion Hin);
    by apply list_elem_of_singleton in Hin as ->.
Qed.

Lemma owned_pool_lt st c : wf st → c ∈ pool st ≫= owned → c < length (chans st).
Proof.
  intros Hwf (g & Hc & (i & Hg)%list_elem_of_lookup)%list_elem_of_bind.
  eapply owned_lt; [|done]. by eapply Forall_lookup_1; [apply (wf_pool _ Hwf)|].
Qed.

Lemma bind_insert_same {A B} (f : A → list B) (l : list A) i x y :
  l !! i = Some x → f y = f x → <[i := y]> l ≫= f = l ≫= f.
Proof.
  revert i. induction l as [|z l IH]; intros [|i] Hi Hf; simplify_eq/=; [by rewrite Hf|].
  by rewrite (IH _ Hi Hf).
Qed.

Lemma NoDup_lookup_bind {A B} (f : A → list B) (l : list A) i j x y c :
  NoDup (l ≫= f) → l !! i = Some x → l !! j = Some y → c ∈ f x → c ∈ f y → i = j.
Proof.
  revert i j. induction l as [|z l IH]; intros i j Hnd Hi Hj Hx Hy; [done|].
  rewrite bind_cons in Hnd. apply NoDup_app in Hnd as (_ & Hdisj & Hnd).
  destruct i as [|i], j as [|j]; simplify_eq/=; [done| | |f_equal; eauto].
  - exfalso. apply (Hdisj c Hx). apply list_elem_of_bind. exists y. split; [done|].
    by eapply list_elem_of_lookup_2.
  - exfalso. apply (Hdisj c Hy). apply list_elem_of_bind. exists x. split; [done|].
    by eapply list_elem_of_lookup_2.
Qed.

(** A channel closed after the step was closed before it. *)
Definition no_new_close st st' : Prop :=
  ∀ c ch', chans st' !! c = Some ch' → closed ch' = true →
           ∃ ch, chans st !! c = Some ch ∧ closed ch = true.

Lemma no_new_close_set st c ch ch' :
  chans st !! c = Some ch → closed ch' = closed ch →
  no_new_close st (with_chans (<[c := ch']> (chans st)) st).
Proof.
  intros Hc Hcl c0 ch0. simpl. destruct (decide (c = c0)) as [<-|Hne].
  - rewrite list_lookup_insert_eq by (by eapply lookup_lt_Some).
    intros [= <-] Hc0. exists ch. split; [done|congruence].
  - rewrite list_lookup_insert_ne by done. eauto.
Qed.

Lemma no_new_close_same st st' : chans st' = chans st → no_new_close st st'.
Proof. intros Heq c ch'. rewrite Heq. eauto. Qed.

Lemma owners_update st st' i g k :
  owners st → pool st !! i = Some g → finished g = false → owned k = owned g →
  pool st' = <[i := k]> (pool st) → output (tr st') = output (tr st) →
  no_new_close st st' → owners st'.
Proof.
  intros [Hnd Hout Hopen] Hg Hfin Hown Hpool Houtput Hflags.
  split; rewrite ?Hpool, ?Houtput, ?(bind_insert_same _ _ _ _ _ Hg Hown); try done.
  intros j g' c ch' Hj Hc Hch' Hcl.
  destruct (Hflags _ _ Hch' Hcl) as (ch & Hch & Hcl').
  destruct (decide (i = j)) as [<-|Hne].
  - rewrite list_lookup_insert_eq in Hj by (by eapply lookup_lt_Some). simplify_eq.
    rewrite Hown in Hc. pose proof (Hopen _ _ _ _ Hg Hc Hch Hcl'). congruence.
  - rewrite list_lookup_insert_ne in Hj by done. eauto.
Qed.

Lemma owners_exec st st' i b g o :
  wf st → owners st → pool st !! i = Some g →
  next combiner (tr st) g !! b = Some o → exec i o st = Some st' → owners st'.
Proof.
  intros Hwf Hown Hg Ho Hex.
  pose proof (next_owned _ _ _ _ Ho) as [Hfin Hk].
  apply exec_inv in Hex.
  destruct o as [c k|c v k|c k|sg k|k|k|[|w'] k|w' k|size m k]; simpl in *.
  - destruct Hex as (ch & r & ch' & Hc & Hr & ->).
    eapply (owners_update st _ i g (k r)); try done.
    apply no_new_close_set with ch; [done|].
    by apply chan_recv_Some in Hr as [(? & ? & ? & ? & ->)|(_ & _ & _ & ->)].
  - destruct Hex as (ch & ch' & Hc & (Hcl & _ & ->)%chan_send_Some & ->).
    eapply (owners_update st _ i g k); try done.
    by apply no_new_close_set with ch.
  - (* close *)
    destruct Hex as (ch & ch' & Hc & (Hcl & ->)%chan_close_Some & ->).
    destruct Hk as (Hog & Hok & Hfk). destruct Hown as [Hnd Hout Hopen].
    split; simpl; rewrite ?(bind_insert_same _ _ _ _ _ Hg) by congruence; try done.
    intros j g' c' ch' Hj Hc' Hch' Hcl'.
    destruct (decide (i = j)) as [<-|Hne].
    + rewrite list_lookup_insert_eq in Hj by (by eapply lookup_lt_Some). by simplify_eq.
    + rewrite list_lookup_insert_ne in Hj by done.
      destruct (decide (c = c')) as [<-|Hcc].
      * exfalso. apply Hne.
        eapply (NoDup_lookup_bind _ _ _ _ _ _ c Hnd Hg Hj); [by rewrite Hog; left|done].
      * rewrite list_lookup_insert_ne in Hch' by done. eauto.
  - destruct Hex as (_ & ->). eapply (owners_update st _ i g k); try done; by apply no_new_close_same.
  - destruct Hex as (_ & ->). eapply (owners_update st _ i g k); try done; by apply no_new_close_same.
  - subst st'. eapply (owners_update st _ i g k); try done; by apply no_new_close_same.
  - destruct Hex as (n & _ & ->). eapply (owners_update st _ i g k); try done; by apply no_new_close_same.
  - destruct Hex as (n & _ & ->). eapply (owners_update st _ i g k); try done; by apply no_new_close_same.
  - destruct Hex as (_ & ->). eapply (owners_update st _ i g k); try done; by apply no_new_close_same.
  - (* the start of an unordered node *)
    destruct Hex as (ch & [_ ->]%make_chan_Some & ->).
    destruct (Hk (length (chans st)) (length (wgs st))) as [Hk1 Hk2].
    destruct Hown as [Hnd Hout Hopen].
    assert (length (chans st) ∉ pool st ≫= owned) as Hfresh.
    { intros Hin%(owned_pool_lt _ _ Hwf). lia. }
    split; simpl; rewrite ?bind_app, ?Hk2, ?(bind_insert_same _ _ _ _ _ Hg Hk1).
    + apply NoDup_app. split; [done|]. split; [|apply NoDup_singleton].
      intros c Hc ->%list_elem_of_singleton. done.
    + rewrite elem_of_app, list_elem_of_singleton. intros [?|Heq]; [done|].
      pose proof (wf_output _ Hwf). lia.
    + intros j g' c ch' Hj Hc Hch' Hcl'.
      assert (chans st !! c = Some ch') as Hch.
      { destruct (decide (c < length (chans st))) as [Hlt|Hge].
        - by rewrite lookup_app_l in Hch'.
        - rewrite lookup_app_r in Hch' by lia.
          apply list_lookup_singleton_Some in Hch' as [_ <-]. done. }
      pose proof (lookup_lt_Some _ _ _ Hch) as Hlt.
      destruct (decide (j < length (pool st))) as [Hjl|Hjl].
      * rewrite lookup_app_l in Hj by (by rewrite length_insert).
        destruct (decide (i = j)) as [<-|Hne].
        -- rewrite list_lookup_insert_eq in Hj by done. simplify_eq.
           rewrite Hk1 in Hc. pose proof (Hopen _ _ _ _ Hg Hc Hch Hcl'). congruence.
        -- rewrite list_lookup_insert_ne in Hj by done. eauto.
      * rewrite lookup_app_r in Hj by (rewrite length_insert; lia).
        assert (c ∈ (k (length (chans st)) (length (wgs st))).1 ≫= owned) as Hin.
        { apply list_elem_of_bind. exists g'. split; [done|]. by eapply list_elem_of_lookup_2. }
        rewrite Hk2 in Hin. apply list_elem_of_singleton in Hin. lia.
Qed.

Lemma owners_handoff st st' i bi j bj :
  owners st → handoff combiner i bi j bj st = Some st' → owners st'.
Proof.
  intros Hown
    (gi & gj & c & v & ks & kr & ch & Hgi & Hgj & Hoi & Hoj & Hij & _ & _ & _ & ->)%handoff_inv.
  pose proof (next_owned _ _ _ _ Hoi) as [Hfi Hki].
  pose proof (next_owned _ _ _ _ Hoj) as [Hfj Hkj]. simpl in *.
  assert (<[i:=ks]> (pool st) !! j = Some gj) as Hgj' by (by rewrite list_lookup_insert_ne).
  eapply (owners_update (with_pool (<[i:=ks]> (pool st)) st) _ j gj (kr (Some v)));
    try done; [|by apply no_new_close_same].
  eapply (owners_update st _ i gi ks); try done. by apply no_new_close_same.
Qed.

Lemma owners_spawn st g ch :
  wf st → owners st → owned g = [length (chans st)] → closed ch = false →
  owners (spawn g (with_chans (chans st ++ [ch]) st)).
Proof.
  intros Hwf [Hnd Hout Hopen] Hg Hch.
  assert (length (chans st) ∉ pool st ≫= owned) as Hfresh.
  { intros Hin%(owned_pool_lt _ _ Hwf). lia. }
  split; simpl; rewrite ?bind_app; simpl; rewrite ?Hg, ?app_nil_r.
  - apply NoDup_app. split; [done|]. split; [|apply NoDup_singleton].
    intros c Hc ->%list_elem_of_singleton. done.
  - rewrite elem_of_app, list_elem_of_singleton. intros [?|Heq]; [done|].
    pose proof (wf_output _ Hwf). lia.
  - intros j g' c ch' Hj Hc Hch' Hcl'.
    assert (chans st !! c = Some ch') as Hch0.
    { destruct (decide (c < length (chans st))) as [Hlt|Hge].
      - by rewrite lookup_app_l in Hch'.
      - rewrite lookup_app_r in Hch' by lia.
        apply list_lookup_singleton_Some in Hch' as [_ <-]. congruence. }
    pose proof (lookup_lt_Some _ _ _ Hch0) as Hlt.
    destruct (decide (j < length (pool st))) as [Hjl|Hjl].
    + rewrite lookup_app_l in Hj by done. eauto.
    + rewrite lookup_app_r in Hj by lia.
      apply list_lookup_singleton_Some in Hj as [_ <-].
      rewrite Hg in Hc. apply list_elem_of_singleton in Hc. lia.
Qed.

Lemma owners_roots st rs : owners st → owners (with_tr (with_roots rs (tr st)) st).
Proof. by intros []. Qed.

Lemma wf_roots_set st rs :
  wf st → (∀ level c, rs !! level = Some (Some c) → c < length (chans st)) →
  wf (with_tr (with_roots rs (tr st)) st).
Proof. intros [] Hrs. by split. Qed.

Lemma new_collectors_owned rs : new_collectors (T:=T) rs ≫= owned = [].
Proof.
  unfold new_collectors. induction (omap id rs) as [|c l IH]; [done|].
  by rewrite fmap_cons, bind_cons, IH.
Qed.

Lemma owners_collect st st' : owners st → updateCollectors st = Some st' → owners st'.
Proof.
  intros [Hnd Hout Hopen] (_ & ->)%updateCollectors_Some.
  split; simpl; rewrite ?bind_app, ?new_collectors_owned, ?app_nil_r; try done.
  intros j g c ch Hj Hc Hch Hcl.
  destruct (decide (j < length (pool st))) as [Hjl|Hjl].
  - rewrite lookup_app_l in Hj by done. eauto.
  - rewrite lookup_app_r in Hj by lia.
    assert (c ∈ new_collectors (T:=T) (roots (tr st)) ≫= owned) as Hin.
    { apply list_elem_of_bind. exists g. split; [done|]. by eapply list_elem_of_lookup_2. }
    rewrite new_collectors_owned in Hin. by inversion Hin.
Qed.

Lemma owners_Add out st st' :
  wf st → owners st → Forall (λ src, src < output (tr st)) out →
  Add out st = Some st' → owners st'.
Proof.
  intros Hwf Hown Hout Hadd.
  eapply (Add_preserves_wf owners (λ _, owners)); [..|exact Hwf|exact Hown|exact Hout|exact Hadd].
  - intros st1 src ch Hwf1 Hown1 _ [_ ->]%make_chan_Some. by apply owners_spawn.
  - intros st1 root level _ _ Hown1. by apply owners_roots.
  - intros st1 root level _ _ Hown1 _. by apply owners_roots.
  - intros st1 root level prev ch Hwf1 Hroot Hown1 Hslot [_ ->]%make_chan_Some.
    apply (owners_spawn (with_tr (with_roots (<[level:=None]> (roots (tr st1))) (tr st1)) st1));
      [|by apply owners_roots|by destruct (ordered (tr st1))|done].
    apply wf_roots_set; [done|]. intros lv c Hc.
    apply list_lookup_insert_Some in Hc as [(_ & [=] & _)|[_ Hc]].
    by eapply wf_roots.
  - intros st1 st2 _ Hown1 Hupd. by eapply owners_collect.
Qed.

Lemma owners_Finish_enter st : owners st → owners (Finish_enter st).
Proof. unfold Finish_enter. intros []. by destruct (waitForAll _). Qed.

Lemma owners_Finish_resume st st' err :
  owners st → Finish_resume combiner st = Some (st', err) → owners st'.
Proof.
  intros [Hnd Hout Hopen] Hres.
  destruct (Finish_resume_frame _ _ _ _ Hres) as
    (_ & Ho & _ & _ & _ & Hp & _ & _ & _ & _ & _ & Hch).
  split; rewrite ?Hp, ?Ho; try done.
  intros j g c ch Hj Hc Hc' Hcl. rewrite Hch in Hc'; [eauto|].
  intros ->. apply Hout, list_elem_of_bind. exists g. split; [done|].
  by eapply list_elem_of_lookup_2.
Qed.

(** No goroutine closes the output channel: it stays open until [Finish]
    returns. *)
Lemma Close_not_output st i g b c k :
  owners st → pool st !! i = Some g →
  next combiner (tr st) g !! b = Some (Close c k) → c ≠ output (tr st).
Proof.
  intros [_ Hout _] Hg Ho ->. apply next_owned in Ho as (_ & Hog & _).
  apply Hout, list_elem_of_bind. exists g. split; [by rewrite Hog; left|].
  by eapply list_elem_of_lookup_2.
Qed.

Definition is_open st (c : nat) : Prop :=
  ∃ ch, chans st !! c = Some ch ∧ closed ch = false.

Lemma is_open_set st c c' ch ch' :
  is_open st c → chans st !! c' = Some ch → (c = c' → closed ch' = false) →
  is_open (with_chans (<[c' := ch']> (chans st)) st) c.
Proof.
  intros (ch0 & Hc & Hcl) Hc' Hsame. unfold is_open. simpl.
  destruct (decide (c' = c)) as [->|Hne].
  - rewrite list_lookup_insert_eq by (by eapply lookup_lt_Some). eauto.
  - rewrite list_lookup_insert_ne by done. eauto.
Qed.

Lemma is_open_alloc st c ch : is_open st c → is_open (with_chans (chans st ++ [ch]) st) c.
Proof.
  intros (ch0 & Hc & Hcl). exists ch0. split; [|done]. simpl.
  rewrite lookup_app_l; [done|]. by eapply lookup_lt_Some.
Qed.

Lemma is_open_exec st st' i o c :
  is_open st c → (∀ k, o ≠ Close c k) → exec i o st = Some st' → is_open st' c.
Proof.
  intros Hopen Hne Hex. apply exec_inv in Hex.
  destruct o as [c' k|c' v k|c' k|sg k|k|k|[|w'] k|w' k|size m k]; simpl in *.
  - destruct Hex as (ch & r & ch' & Hc & Hr & ->).
    apply (is_open_set st c c' ch ch' Hopen Hc). intros <-.
    destruct Hopen as (ch0 & ? & ?). simplify_eq.
    by apply chan_recv_Some in Hr as [(? & ? & ? & ? & ->)|(_ & _ & _ & ->)].
  - destruct Hex as (ch & ch' & Hc & (Hcl & _ & ->)%chan_send_Some & ->).
    by apply (is_open_set st c c' ch _ Hopen Hc).
  - destruct Hex as (ch & ch' & Hc & (Hcl & ->)%chan_close_Some & ->).
    apply (is_open_set st c c' ch _ Hopen Hc). intros <-. by destruct (Hne k).
  - by destruct Hex as (_ & ->).
  - by destruct Hex as (_ & ->).
  - by subst.
  - by destruct Hex as (n & _ & ->).
  - by destruct Hex as (n & _ & ->).
  - by destruct Hex as (_ & ->).
  - destruct Hex as (ch & _ & ->). by apply (is_open_alloc st c ch) in Hopen.
Qed.

Lemma is_open_Add out st st' c : is_open st c → Add out st = Some st' → is_open st' c.
Proof.
  intros Hopen Hadd.
  eapply (Add_preserves (λ st1, is_open st1 c) (λ _ st1, is_open st1 c) (λ _, True));
    [..|exact Hopen|by apply Forall_true|exact Hadd]; try done.
  - intros st1 src ch H _ _. by apply (is_open_alloc st1).
  - intros st1 root level prev ch H _ _. by apply (is_open_alloc (with_tr _ st1)).
  - by intros st1 st2 H (_ & ->)%updateCollectors_Some.
Qed.

(** The invariant of every reachable state: well-formed, both kinds of
    barrier accounted for, every channel closed by its owner only, and
    the output channel open until [Finish] has returned. *)
Definition steady (s : sys T) : Prop :=
  sound s ∧ owners (world s) ∧
  (result s = None → is_open (world s) (output (tr (world s)))).

Lemma steady_step a s1 s2 : steady s1 → step combiner a s1 = Some s2 → steady s2.
Proof.
  intros Hs Hstep. destruct Hs as (Hsound & Hown & Hout).
  pose proof (sound_step combiner _ _ _ Hsound Hstep) as Hsound'.
  split; [done|]. destruct Hsound as [Hwf Hbar]. clear Hsound'.
  revert Hstep.
  cut (owners (world s1) ∧ (result s1 = None → is_open (world s1) (output (tr (world s1)))) ∧
       sys_wf s1 →
       step combiner a s1 = Some s2 →
       owners (world s2) ∧ (result s2 = None → is_open (world s2) (output (tr (world s2)))) ∧
       sys_wf s2).
  { intros H Hstep. by destruct H as (? & ? & _). }
  clear. apply (step_preserves combiner
    (λ s, owners (world s) ∧ (result s = None → is_open (world s) (output (tr (world s)))) ∧
          sys_wf s)); simpl.
  - intros s st' i b g o (Hown & Hout & Hwf) Hg Ho Hex.
    assert (sys_wf (Sys st' (prog s) (waiting s) (result s))) as Hwf'.
    { apply (sys_wf_step combiner (Run i b) s); [done|]. simpl. unfold run_goroutine.
      rewrite Hg. simpl. rewrite Ho. simpl. by rewrite Hex. }
    split; [by eapply owners_exec; [apply Hwf|..]|]. split; [|done].
    intros Hres. destruct (exec_frame _ _ _ _ _ _ _ Ho Hex) as (_ & -> & _).
    eapply is_open_exec; [by apply Hout| |done].
    intros k ->. by eapply Close_not_output.
  - intros s st' i bi j bj (Hown & Hout & Hwf) Hh.
    assert (sys_wf (Sys st' (prog s) (waiting s) (result s))) as Hwf'.
    { apply (sys_wf_step combiner (Handoff i bi j bj) s); [done|]. simpl. by rewrite Hh. }
    split; [by eapply owners_handoff|]. split; [|done].
    apply handoff_inv in Hh as (? & ? & ? & ? & ? & ? & ? & H). by destruct_and!; subst.
  - intros s st' out rest (Hown & Hout & Hwf) Hw Hp Hadd.
    assert (sys_wf (Sys st' rest false (result s))) as Hwf'.
    { apply (sys_wf_step combiner Caller s); [done|]. simpl. unfold caller_step.
      rewrite Hw, Hp. by rewrite Hadd. }
    destruct Hwf as [Hwf Hcalls]. rewrite Hp in Hcalls.
    apply Forall_cons_1 in Hcalls as [Hcall _].
    split; [by eapply owners_Add|]. split; [|done].
    intros Hres. pose proof (Add_frame _ _ _ Hadd) as Hf. unfold same_frame in Hf.
    destruct Hf as (_ & -> & _). eapply is_open_Add; [by apply Hout|done].
  - intros s rest (Hown & Hout & Hwf) Hw Hp.
    assert (sys_wf (Sys (Finish_enter (world s)) rest true (result s))) as Hwf'.
    { apply (sys_wf_step combiner Caller s); [done|]. simpl. unfold caller_step.
      by rewrite Hw, Hp. }
    split; [by apply owners_Finish_enter|]. split; [|done].
    unfold Finish_enter. by destruct (waitForAll _).
  - intros s st' err (Hown & Hout & Hwf) Hw Hres.
    assert (sys_wf (Sys st' (prog s) false (Some err))) as Hwf'.
    { apply (sys_wf_step combiner Caller s); [done|]. simpl. unfold caller_step.
      rewrite Hw. by rewrite Hres. }
    split; [by eapply owners_Finish_resume|]. by split.
Qed.

Lemma steady_run sched s s' : steady s → run combiner sched s = Some s' → steady s'.
Proof.
  revert s. induction sched as [|a sched IH]; intros s Hs; simpl; [by intros [= <-]|].
  intros (s1 & Hstep & Hrun)%bind_Some. eauto using steady_step.
Qed.

Lemma producers_owned srcs :
  producers (T:=T) srcs ≫= owned = seq 0 (length srcs).
Proof.
  unfold producers. cut (∀ n, imap (λ (j : nat) src, Producer (n + j) src.2 true) srcs ≫= owned
                              = seq n (length srcs)); [intros H; apply (H 0)|].
  induction srcs as [|src srcs IH]; intros n; [done|].
  simpl. rewrite Nat.add_0_r. f_equal. rewrite <- IH. f_equal.
  apply imap_ext. intros i x _. simpl. f_equal. lia.
Qed.

Lemma steady_boot bufferSize w ord srcs readers p s :
  calls_ok (length srcs) p → boot bufferSize w ord srcs readers p = Some s → steady s.
Proof.
  intros Hp Hboot. split; [by eapply sound_boot|].
  unfold boot, New in Hboot.
  apply bind_Some in Hboot as (st & (out & [_ ->]%make_chan_Some & [= <-])%bind_Some & [= <-]).
  assert ((producers srcs ++ consumers (length srcs) readers) ≫= owned
          = seq 0 (length srcs)) as Hown.
  { rewrite bind_app, producers_owned. unfold consumers.
    induction readers as [|n IH]; simpl; [by rewrite app_nil_r|done]. }
  simpl. split; [split; simpl; rewrite ?Hown|].
  - apply NoDup_seq.
  - rewrite source_chans_length, elem_of_seq. lia.
  - intros i g c ch Hi Hc Hch Hcl. exfalso.
    assert (c ∈ (producers srcs ++ consumers (length srcs) readers) ≫= owned) as Hin.
    { apply list_elem_of_bind. exists g. split; [done|]. by eapply list_elem_of_lookup_2. }
    rewrite Hown, elem_of_seq in Hin.
    rewrite lookup_app_l in Hch by (rewrite source_chans_length; lia).
    unfold source_chans in Hch. rewrite list_lookup_fmap in Hch.
    by apply fmap_Some in Hch as (src & _ & ->).
  - intros _. exists (Chan [] false (Z.to_nat bufferSize)). split; [|done]. simpl.
    by rewrite lookup_app_r, Nat.sub_diag.
Qed.
End owners.

(** ** [Finish] in whole-tree mode *)

Section whole_tree.
Context {T : Type}.
Variable combiner : T → T → T.
Implicit Types (st : state T) (g : goroutine T) (s : sys T).

Lemma drain_fold_left final buffered :
  drain combiner final buffered = fold_left combiner buffered final.
Proof. revert final. induction buffered as [|v buffered IH]; intros final; simpl; auto. Qed.

(** What the output channel holds after the final fold. *)
Definition folded (buffered : list T) : list T :=
  match buffered with
  | [] => []
  | final :: buffered => [fold_left combiner buffered final]
  end.

Lemma boot_config bufferSize w ord srcs readers p s :
  boot bufferSize w ord srcs readers p = Some s →
  bufSize (tr (world s)) = bufferSize ∧ waitForAll (tr (world s)) = w ∧
  ordered (tr (world s)) = ord ∧ output (tr (world s)) = length srcs ∧
  cancelled (tr (world s)) = false ∧ prog s = p ∧ waiting s = false ∧ result s = None.
Proof.
  unfold boot, New.
  intros (st & (out & _ & [= <-])%bind_Some & [= <-])%bind_Some. simpl.
  by rewrite source_chans_length.
Qed.

End whole_tree.

(** ** States in which nothing can move *)

Section quiescence.
Context {T : Type}.
Variable combiner : T → T → T.
Implicit Types (g : goroutine T) (s : sys T).

(** No action is enabled: every goroutine has returned or is blocked for
    good, and so is the caller. *)
Definition stuck s : Prop := ∀ a, step combiner a s = None.

Definition all_actions (n : nat) : list action :=
  (i ← seq 0 n; b ← [0; 1]; [Run i b]) ++
  (i ← seq 0 n; j ← seq 0 n; bi ← [0; 1]; bj ← [0; 1]; [Handoff i bi j bj]) ++
  [Caller].

Definition quiescent s : bool :=
  forallb (λ a, match step combiner a s with Some _ => false | None => true end)
          (all_actions (length (pool (world s)))).

Lemma next_length t g : length (next combiner t g) ≤ 2.
Proof.
  destruct g as [src c []|c []|f s c []|f s c []|src fanIn w []|fanIn w []
                 |src [|v rest] []|c got []]; simpl; lia.
Qed.

Lemma next_lookup_ge t g b : 2 ≤ b → next combiner t g !! b = None.
Proof. intros Hb. apply lookup_ge_None. pose proof (next_length t g). lia. Qed.

Lemma quiescent_stuck s : quiescent s = true → stuck s.
Proof.
  unfold quiescent. rewrite forallb_forall. intros Hall a.
  destruct (step combiner a s) as [s'|] eqn:Hstep; [exfalso|done].
  assert (a ∈ all_actions (length (pool (world s)))) as Hin.
  { unfold all_actions. destruct a as [i b|i bi j bj|]; simpl in Hstep.
    - apply bind_Some in Hstep as (st & Hrun & _). unfold run_goroutine in Hrun.
      apply bind_Some in Hrun as (g & Hg & Hrun). apply bind_Some in Hrun as (o & Ho & _).
      apply elem_of_app. left. apply list_elem_of_bind. exists i. split.
      + destruct b as [|[|b]]; [simpl; by repeat constructor..|].
        by rewrite next_lookup_ge in Ho by lia.
      + apply elem_of_seq. apply lookup_lt_Some in Hg. lia.
    - apply bind_Some in Hstep as (st & Hh & _).
      apply handoff_inv in Hh as (gi & gj & c & v & ks & kr & ch & Hgi & Hgj & Hoi & Hoj & _).
      apply elem_of_app. right. apply elem_of_app. left.
      apply list_elem_of_bind. exists i. split; [|apply elem_of_seq; apply lookup_lt_Some in Hgi; lia].
      apply list_elem_of_bind. exists j. split; [|apply elem_of_seq; apply lookup_lt_Some in Hgj; lia].
      destruct bi as [|[|bi]]; [| |by rewrite next_lookup_ge in Hoi by lia];
        (destruct bj as [|[|bj]]; [| |by rewrite next_lookup_ge in Hoj by lia]);
        simpl; by repeat constructor.
    - apply elem_of_app. right. apply elem_of_app. right. by repeat constructor. }
  apply list_elem_of_In in Hin. apply Hall in Hin. by rewrite Hstep in Hin.
Qed.
End quiescence.

(** ** An ordered node on its own *)

Section ordered_node.
Context {T : Type}.
Variable combiner : T → T → T.
Implicit Types (a b : list T) (ch : chan T).

(** A runtime without tree calls: the given channels and goroutines. *)
Definition bench (chs : list (chan T)) (gs : list (goroutine T)) : sys T :=
  Sys (State (Tree [] 0 (length chs) 0 false 0 false false) chs [false] [] gs) [] false None.

(** The node with what it needs around it: two producers feeding its
    input channels 0 and 1 with [a] and [b] and closing them, and a
    consumer ranging over its output channel 2. *)
Record onode_view := OView {
  o_f : chan T; o_s : chan T; o_c : chan T;
  o_a : list T; o_a_open : bool;
  o_b : list T; o_b_open : bool;
  o_pc : onode_pc T;
  o_got : list T; o_live : bool
}.

Definition onode_sys (v : onode_view) : sys T :=
  bench [o_f v; o_s v; o_c v]
        [Producer 0 (o_a v) (o_a_open v); Producer 1 (o_b v) (o_b_open v);
         ONode 0 1 2 (o_pc v); Consumer 2 (o_got v) (o_live v)].

Definition onode_start (capf caps capc : nat) a b : onode_view :=
  OView (Chan [] false capf) (Chan [] false caps) (Chan [] false capc)
        a true b true ORecv1 [] true.

(** The moves of this system, read off [step]. *)
Inductive onode_move : onode_view → onode_view → Prop :=
| om_send_a f s c v a oa b ob pc got live :
    closed f = false → length (buf f) < cap f →
    onode_move (OView f s c (v :: a) oa b ob pc got live)
               (OView (Chan (buf f ++ [v]) false (cap f)) s c a oa b ob pc got live)
| om_close_a f s c b ob pc got live :
    closed f = false →
    onode_move (OView f s c [] true b ob pc got live)
               (OView (Chan (buf f) true (cap f)) s c [] false b ob pc got live)
| om_send_b f s c v a oa b ob pc got live :
    closed s = false → length (buf s) < cap s →
    onode_move (OView f s c a oa (v :: b) ob pc got live)
               (OView f (Chan (buf s ++ [v]) false (cap s)) c a oa b ob pc got live)
| om_close_b f s c a oa pc got live :
    closed s = false →
    onode_move (OView f s c a oa [] true pc got live)
               (OView f (Chan (buf s) true (cap s)) c a oa [] false pc got live)
| om_recv1 f s c v1 rest a oa b ob got live :
    buf f = v1 :: rest →
    onode_move (OView f s c a oa b ob ORecv1 got live)
               (OView (Chan rest (closed f) (cap f)) s c a oa b ob (ORecv2 v1) got live)
| om_recv1_end f s c a oa b ob got live :
    buf f = [] → closed f = true →
    onode_move (OView f s c a oa b ob ORecv1 got live)
               (OView f s c a oa b ob OClose got live)
| om_recv2 f s c v1 v2 rest a oa b ob got live :
    buf s = v2 :: rest →
    onode_move (OView f s c a oa b ob (ORecv2 v1) got live)
               (OView f (Chan rest (closed s) (cap s)) c a oa b ob
                      (OSend (combiner v1 v2)) got live)
| om_recv2_end f s c v1 a oa b ob got live :
    buf s = [] → closed s = true →
    onode_move (OView f s c a oa b ob (ORecv2 v1) got live)
               (OView f s c a oa b ob (OSendLast v1) got live)
| om_send f s c v a oa b ob got live :
    closed c = false → length (buf c) < cap c →
    onode_move (OView f s c a oa b ob (OSend v) got live)
               (OView f s (Chan (buf c ++ [v]) false (cap c)) a oa b ob ORecv1 got live)
| om_send_last f s c v a oa b ob got live :
    closed c = false → length (buf c) < cap c →
    onode_move (OView f s c a oa b ob (OSendLast v) got live)
               (OView f s (Chan (buf c ++ [v]) false (cap c)) a oa b ob OClose got live)
| om_close f s c a oa b ob got live :
    closed c = false →
    onode_move (OView f s c a oa b ob OClose got live)
               (OView f s (Chan (buf c) true (cap c)) a oa b ob OExit got live)
| om_take f s c v rest a oa b ob pc got :
    buf c = v :: rest →
    onode_move (OView f s c a oa b ob pc got true)
               (OView f s (Chan rest (closed c) (cap c)) a oa b ob pc (got ++ [v]) true)
| om_take_end f s c a oa b ob pc got :
    buf c = [] → closed c = true →
    onode_move (OView f s c a oa b ob pc got true)
               (OView f s c a oa b ob pc got false)
| om_hand_a f s c v a oa b ob got live :
    buf f = [] → closed f = false →
    onode_move (OView f s c (v :: a) oa b ob ORecv1 got live)
               (OView f s c a oa b ob (ORecv2 v) got live)
| om_hand_b f s c v1 v2 a oa b ob got live :
    buf s = [] → closed s = false →
    onode_move (OView f s c a oa (v2 :: b) ob (ORecv2 v1) got live)
               (OView f s c a oa b ob (OSend (combiner v1 v2)) got live)
| om_hand_send f s c v a oa b ob got :
    buf c = [] → closed c = false →
    onode_move (OView f s c a oa b ob (OSend v) got true)
               (OView f s c a oa b ob ORecv1 (got ++ [v]) true)
| om_hand_send_last f s c v a oa b ob got :
    buf c = [] → closed c = false →
    onode_move (OView f s c a oa b ob (OSendLast v) got true)
               (OView f s c a oa b ob OClose (got ++ [v]) true).

Lemma onode_step_move (act : action) v s' :
  step combiner act (onode_sys v) = Some s' → ∃ v', s' = onode_sys v' ∧ onode_move v v'.
Proof.
  destruct v as [f s c pa oa pb ob pc got live].
  destruct act as [i b|i bi j bj|]; simpl; [| |done].
  - intros (st & Hrun & [= <-])%bind_Some. unfold run_goroutine in Hrun.
    apply bind_Some in Hrun as (g & Hg & Hrun).
    apply bind_Some in Hrun as (o & Ho & Hex).
    apply exec_inv in Hex.
    destruct i as [|[|[|[|i]]]]; simpl in Hg; simplify_eq.
    + destruct pa as [|v pa]; [destruct oa|]; destruct b as [|b]; simplify_eq/=.
      * destruct Hex as (ch & ch' & [= <-] & (Hcl & ->)%chan_close_Some & ->).
        eexists (OView _ _ _ _ _ _ _ _ _ _). split; [reflexivity|]. by constructor.
      * destruct Hex as (ch & ch' & [= <-] & (Hcl & Hlen & ->)%chan_send_Some & ->).
        eexists (OView _ _ _ _ _ _ _ _ _ _). split; [reflexivity|]. by constructor.
    + destruct pb as [|v pb]; [destruct ob|]; destruct b as [|b]; simplify_eq/=.
      * destruct Hex as (ch & ch' & [= <-] & (Hcl & ->)%chan_close_Some & ->).
        eexists (OView _ _ _ _ _ _ _ _ _ _). split; [reflexivity|]. by constructor.
      * destruct Hex as (ch & ch' & [= <-] & (Hcl & Hlen & ->)%chan_send_Some & ->).
        eexists (OView _ _ _ _ _ _ _ _ _ _). split; [reflexivity|]. by constructor.
    + destruct pc; destruct b as [|b]; simplify_eq/=.
      * destruct Hex as (ch & r & ch' & [= <-] &
          [(v1 & rest & Hb & -> & ->)|(Hb & Hcl & -> & ->)]%chan_recv_Some & ->);
          (eexists (OView _ _ _ _ _ _ _ _ _ _); split; [reflexivity|]; by constructor).
      * destruct Hex as (ch & r & ch' & [= <-] &
          [(v2 & rest & Hb & -> & ->)|(Hb & Hcl & -> & ->)]%chan_recv_Some & ->);
          (eexists (OView _ _ _ _ _ _ _ _ _ _); split; [reflexivity|]; by constructor).
      * destruct Hex as (ch & ch' & [= <-] & (Hcl & Hlen & ->)%chan_send_Some & ->).
        eexists (OView _ _ _ _ _ _ _ _ _ _). split; [reflexivity|]. by constructor.
      * destruct Hex as (ch & ch' & [= <-] & (Hcl & Hlen & ->)%chan_send_Some & ->).
        eexists (OView _ _ _ _ _ _ _ _ _ _). split; [reflexivity|]. by constructor.
      * destruct Hex as (ch & ch' & [= <-] & (Hcl & ->)%chan_close_Some & ->).
        eexists (OView _ _ _ _ _ _ _ _ _ _). split; [reflexivity|]. by constructor.
    + destruct live; destruct b as [|b]; simplify_eq/=.
      destruct Hex as (ch & r & ch' & [= <-] &
          [(v1 & rest & Hb & -> & ->)|(Hb & Hcl & -> & ->)]%chan_recv_Some & ->);
          (eexists (OView _ _ _ _ _ _ _ _ _ _); split; [reflexivity|]; by constructor).
  - intros (st & Hh & [= <-])%bind_Some.
    apply handoff_inv in Hh
      as (gi & gj & c0 & v0 & ks & kr & ch & Hgi & Hgj & Hoi & Hoj & Hij & Hch & Hb & Hcl & ->).
    simpl in *.
    assert (∃ w, (gj = ONode 0 1 2 w ∧ j = 2 ∧ pc = w) ∨
                 (gj = Consumer 2 got true ∧ j = 3 ∧ live = true)) as Hrecv.
    { destruct j as [|[|[|[|j]]]]; simpl in Hgj; simplify_eq.
      - destruct pa as [|? pa]; [destruct oa|]; destruct bj as [|bj]; simplify_eq/=.
      - destruct pb as [|? pb]; [destruct ob|]; destruct bj as [|bj]; simplify_eq/=.
      - exists pc. by left.
      - exists pc. right. destruct live; destruct bj as [|bj]; by simplify_eq/=. }
    destruct Hrecv as (w & [(-> & -> & ->)|(-> & -> & ->)]).
    + destruct w; destruct bj as [|bj]; simplify_eq/=;
        (destruct i as [|[|[|[|i]]]]; simpl in Hgi; simplify_eq;
         [destruct pa as [|? pa]; [destruct oa|]|destruct pb as [|? pb]; [destruct ob|]
          |destruct live];
         destruct bi as [|bi]; simplify_eq/=);
        (eexists (OView _ _ _ _ _ _ _ _ _ _); split; [reflexivity|]; by constructor).
    + destruct bj as [|bj]; simplify_eq/=.
      destruct i as [|[|[|[|i]]]]; simpl in Hgi; simplify_eq.
      * destruct pa as [|? pa]; [destruct oa|]; destruct bi as [|bi]; simplify_eq/=.
      * destruct pb as [|? pb]; [destruct ob|]; destruct bi as [|bi]; simplify_eq/=.
      * destruct pc; destruct bi as [|bi]; simplify_eq/=;
          (eexists (OView _ _ _ _ _ _ _ _ _ _); split; [reflexivity|]; by constructor).
Qed.

Lemma onode_move_step v v' :
  onode_move v v' → ∃ act, step combiner act (onode_sys v) = Some (onode_sys v').
Proof.
  intros Hm. destruct Hm.
  all: try match goal with H : closed ?ch = false |- _ => pose proof H as Hopen end.
  - exists (Run 0 0). simpl. unfold run_goroutine. simpl.
    by rewrite (proj2 (chan_send_Some v f _) (conj H (conj H0 eq_refl))).
  - exists (Run 0 0). simpl. unfold run_goroutine. simpl.
    by rewrite (proj2 (chan_close_Some f _) (conj H eq_refl)).
  - exists (Run 1 0). simpl. unfold run_goroutine. simpl.
    by rewrite (proj2 (chan_send_Some v s _) (conj H (conj H0 eq_refl))).
  - exists (Run 1 0). simpl. unfold run_goroutine. simpl.
    by rewrite (proj2 (chan_close_Some s _) (conj H eq_refl)).
  - exists (Run 2 0). simpl. unfold run_goroutine. simpl. unfold chan_recv. by rewrite H.
  - exists (Run 2 0). simpl. unfold run_goroutine. simpl. unfold chan_recv. by rewrite H, H0.
  - exists (Run 2 0). simpl. unfold run_goroutine. simpl. unfold chan_recv. by rewrite H.
  - exists (Run 2 0). simpl. unfold run_goroutine. simpl. unfold chan_recv. by rewrite H, H0.
  - exists (Run 2 0). simpl. unfold run_goroutine. simpl.
    by rewrite (proj2 (chan_send_Some v c _) (conj H (conj H0 eq_refl))).
  - exists (Run 2 0). simpl. unfold run_goroutine. simpl.
    by rewrite (proj2 (chan_send_Some v c _) (conj H (conj H0 eq_refl))).
  - exists (Run 2 0). simpl. unfold run_goroutine. simpl.
    by rewrite (proj2 (chan_close_Some c _) (conj H eq_refl)).
  - exists (Run 3 0). simpl. unfold run_goroutine. simpl. unfold chan_recv. by rewrite H.
  - exists (Run 3 0). simpl. unfold run_goroutine. simpl. unfold chan_recv. by rewrite H, H0.
  - exists (Handoff 0 0 2 0). simpl. unfold handoff. simpl.
    rewrite decide_True; [done|]. by repeat split; try lia.
  - exists (Handoff 1 0 2 0). simpl. unfold handoff. simpl.
    rewrite decide_True; [done|]. by repeat split; try lia.
  - exists (Handoff 2 0 3 0). simpl. unfold handoff. simpl.
    rewrite decide_True; [done|]. by repeat split; try lia.
  - exists (Handoff 2 0 3 0). simpl. unfold handoff. simpl.
    rewrite decide_True; [done|]. by repeat split; try lia.
Qed.

(** The measure of the work left: every move lowers it. *)
Definition onode_pc_work (pc : onode_pc T) : nat :=
  match pc with
  | ORecv1 => 2 | ORecv2 _ => 5 | OSend _ => 6 | OSendLast _ => 4 | OClose => 1 | OExit => 0
  end.

Definition onode_work (v : onode_view) : nat :=
  5 * length (o_a v) + (if o_a_open v then 1 else 0) +
  5 * length (o_b v) + (if o_b_open v then 1 else 0) +
  4 * length (buf (o_f v)) + 4 * length (buf (o_s v)) +
  onode_pc_work (o_pc v) + 2 * length (buf (o_c v)) + (if o_live v then 1 else 0).

Lemma onode_move_work v v' : onode_move v v' → onode_work v' < onode_work v.
Proof.
  intros Hm. destruct Hm; unfold onode_work; simpl; rewrite ?length_app; simpl;
    repeat match goal with H : buf _ = _ |- _ => rewrite H end; simpl; lia.
Qed.

(** What the claim says the node emits: the pairs in lock-step, then the
    value of the first stream left without a partner, if there is one. *)
Definition lockstep a b : list T :=
  zip_with combiner a b ++ match a !! length b with Some v => [v] | None => [] end.

Definition unread_f (v : onode_view) : list T := buf (o_f v) ++ o_a v.
Definition unread_s (v : onode_view) : list T := buf (o_s v) ++ o_b v.
Definition emitted (v : onode_view) : list T := o_got v ++ buf (o_c v).

Definition paired a b (i : nat) : list T := zip_with combiner (take i a) (take i b).

Record onode_inv a b (v : onode_view) : Prop := {
  oi_f : closed (o_f v) = negb (o_a_open v) ∧ (o_a_open v = false → o_a v = []);
  oi_s : closed (o_s v) = negb (o_b_open v) ∧ (o_b_open v = false → o_b v = []);
  oi_c : closed (o_c v) = true ↔ o_pc v = OExit;
  oi_live : o_live v = false → closed (o_c v) = true ∧ buf (o_c v) = [];
  oi_data :
    match o_pc v with
    | ORecv1 => ∃ i,
        unread_f v = drop i a ∧ unread_s v = drop i b ∧ emitted v = paired a b i ∧
        i ≤ length a ∧ i ≤ length b
    | ORecv2 v1 => ∃ i,
        a !! i = Some v1 ∧ unread_f v = drop (S i) a ∧ unread_s v = drop i b ∧
        emitted v = paired a b i ∧ i ≤ length b
    | OSend x => ∃ i v1 v2,
        a !! i = Some v1 ∧ b !! i = Some v2 ∧ x = combiner v1 v2 ∧
        unread_f v = drop (S i) a ∧ unread_s v = drop (S i) b ∧ emitted v = paired a b i
    | OSendLast v1 =>
        a !! length b = Some v1 ∧ unread_f v = drop (S (length b)) a ∧ unread_s v = [] ∧
        emitted v = zip_with combiner a b
    | OClose | OExit =>
        unread_f v = drop (S (length b)) a ∧ unread_s v = drop (length a) b ∧
        emitted v = lockstep a b
    end
}.

Lemma drop_cons_inv {A} (l : list A) i x rest :
  x :: rest = drop i l → l !! i = Some x ∧ rest = drop (S i) l.
Proof.
  intros H. split.
  - by rewrite <- (Nat.add_0_r i), <- lookup_drop, <- H.
  - replace (S i) with (i + 1) by lia. by rewrite <- drop_drop, <- H.
Qed.

Lemma paired_S a b i v1 v2 :
  a !! i = Some v1 → b !! i = Some v2 → paired a b (S i) = paired a b i ++ [combiner v1 v2].
Proof.
  intros Ha Hb. unfold paired. rewrite (take_S_r _ _ _ Ha), (take_S_r _ _ _ Hb).
  rewrite zip_with_app; [done|].
  apply lookup_lt_Some in Ha, Hb. rewrite !length_take. lia.
Qed.

Lemma paired_all_l a b : length a ≤ length b → paired a b (length a) = zip_with combiner a b.
Proof.
  intros Hle. unfold paired. rewrite <- zip_with_take. apply take_ge.
  rewrite length_zip_with. lia.
Qed.

Lemma paired_all_r a b : length b ≤ length a → paired a b (length b) = zip_with combiner a b.
Proof.
  intros Hle. unfold paired. rewrite <- zip_with_take. apply take_ge.
  rewrite length_zip_with. lia.
Qed.

Lemma paired_prefix a b i : paired a b i `prefix_of` lockstep a b.
Proof.
  unfold paired, lockstep. rewrite <- zip_with_take.
  apply prefix_app_r, prefix_take.
Qed.

Lemma onode_inv_start capf caps capc a b :
  onode_inv a b (onode_start capf caps capc a b).
Proof.
  split; simpl; try done.
  exists 0. unfold unread_f, unread_s, emitted, paired. simpl. repeat split; lia.
Qed.

Lemma onode_move_inv a b v v' : onode_inv a b v → onode_move v v' → onode_inv a b v'.
Proof.
  intros [Hf Hs Hc Hlive Hdata] Hm.
  destruct Hm; unfold unread_f, unread_s, emitted in *; simpl in *.
  - split; unfold unread_f, unread_s, emitted; simpl; try done.
    + destruct Hf as [Hf1 Hf2]. split; [congruence|]. intros ->. by specialize (Hf2 eq_refl).
    + by rewrite <- app_assoc.
  - split; unfold unread_f, unread_s, emitted; simpl; try done.
  - split; unfold unread_f, unread_s, emitted; simpl; try done.
    + destruct Hs as [Hs1 Hs2]. split; [congruence|]. intros ->. by specialize (Hs2 eq_refl).
    + by rewrite <- app_assoc.
  - split; unfold unread_f, unread_s, emitted; simpl; try done.
  - (* first receive *)
    rewrite H in Hdata. simpl in Hdata.
    destruct Hdata as (i & (Hv1 & Hrest)%drop_cons_inv & Hsd & He & Hia & Hib).
    split; unfold unread_f, unread_s, emitted; simpl; try done.
    + split; [by intros ?%Hc|done].
    + exists i. by repeat split.
  - (* first stream ended *)
    rewrite H in Hdata. simpl in Hdata.
    destruct Hf as [Hf1 Hf2]. rewrite H0 in Hf1.
    rewrite Hf2 in Hdata by (by destruct oa).
    destruct Hdata as (i & Hnil & Hsd & He & Hia & Hib).
    symmetry in Hnil. apply drop_nil_inv in Hnil. assert (i = length a) as -> by lia.
    split; unfold unread_f, unread_s, emitted; simpl; try done.
    + split; [congruence|done].
    + split; [by intros ?%Hc|done].
    + rewrite H, Hf2 by (by destruct oa). simpl.
      split; [by rewrite drop_ge by lia|]. split; [done|].
      rewrite He, paired_all_l by done. unfold lockstep.
      by rewrite (lookup_ge_None_2 a (length b)), app_nil_r by lia.
  - (* second receive *)
    rewrite H in Hdata. simpl in Hdata.
    destruct Hdata as (i & Ha & Hfd & (Hv2 & Hrest)%drop_cons_inv & He & Hib).
    split; unfold unread_f, unread_s, emitted; simpl; try done.
    + split; [by intros ?%Hc|done].
    + exists i, v1, v2. by repeat split.
  - (* second stream ended *)
    rewrite H in Hdata. simpl in Hdata.
    destruct Hs as [Hs1 Hs2]. rewrite H0 in Hs1.
    rewrite Hs2 in Hdata by (by destruct ob).
    destruct Hdata as (i & Ha & Hfd & Hnil & He & Hib).
    symmetry in Hnil. apply drop_nil_inv in Hnil. assert (i = length b) as -> by lia.
    split; unfold unread_f, unread_s, emitted; simpl; try done.
    + split; [congruence|done].
    + split; [by intros ?%Hc|done].
    + rewrite H, Hs2 by (by destruct ob). simpl. repeat split; try done.
      rewrite He. apply paired_all_r. apply lookup_lt_Some in Ha. lia.
  - (* send *)
    destruct Hdata as (i & v1 & v2 & Ha & Hb & -> & Hfd & Hsd & He).
    split; unfold unread_f, unread_s, emitted; simpl; try done.
    + intros Hl. destruct (Hlive Hl) as [? _]. congruence.
    + exists (S i). rewrite (paired_S _ _ _ _ _ Ha Hb), app_assoc, He.
      apply lookup_lt_Some in Ha, Hb. repeat split; try done; lia.
  - (* send of the unpaired value *)
    destruct Hdata as (Ha & Hfd & Hsd & He).
    split; unfold unread_f, unread_s, emitted; simpl; try done.
    + intros Hl. destruct (Hlive Hl) as [? _]. congruence.
    + repeat split; try done.
      * rewrite Hsd. symmetry. apply drop_ge. apply lookup_lt_Some in Ha. lia.
      * rewrite app_assoc, He. unfold lockstep. by rewrite Ha.
  - (* close *)
    split; unfold unread_f, unread_s, emitted; simpl; try done.
    intros Hl. destruct (Hlive Hl) as [? _]. congruence.
  - (* the consumer takes a value *)
    rewrite H in Hdata.
    split; unfold unread_f, unread_s, emitted; simpl; try done.
    by rewrite <- app_assoc.
  - (* the consumer sees the end *)
    split; unfold unread_f, unread_s, emitted; simpl; try done.
  - (* hand-over from the first producer *)
    rewrite H in Hdata. simpl in Hdata.
    destruct Hdata as (i & (Hv1 & Hrest)%drop_cons_inv & Hsd & He & Hia & Hib).
    split; unfold unread_f, unread_s, emitted; simpl; try done.
    + destruct Hf as [Hf1 Hf2]. split; [done|]. intros ->. by specialize (Hf2 eq_refl).
    + split; [by intros ?%Hc|done].
    + exists i. rewrite H. by repeat split.
  - (* hand-over from the second producer *)
    rewrite H in Hdata. simpl in Hdata.
    destruct Hdata as (i & Ha & Hfd & (Hv2 & Hrest)%drop_cons_inv & He & Hib).
    split; unfold unread_f, unread_s, emitted; simpl; try done.
    + destruct Hs as [Hs1 Hs2]. split; [done|]. intros ->. by specialize (Hs2 eq_refl).
    + split; [by intros ?%Hc|done].
    + exists i, v1, v2. rewrite H. by repeat split.
  - (* hand-over to the consumer *)
    rewrite H in Hdata. rewrite app_nil_r in Hdata.
    destruct Hdata as (i & v1 & v2 & Ha & Hb & -> & Hfd & Hsd & He).
    split; unfold unread_f, unread_s, emitted; simpl; try done.
    + split; [|done]. intros Hcl. congruence.
    + exists (S i). rewrite H, app_nil_r, (paired_S _ _ _ _ _ Ha Hb), He.
      apply lookup_lt_Some in Ha, Hb. repeat split; try done; lia.
  - rewrite H in Hdata. rewrite app_nil_r in Hdata.
    destruct Hdata as (Ha & Hfd & Hsd & He).
    split; unfold unread_f, unread_s, emitted; simpl; try done.
    + split; [|done]. intros Hcl. congruence.
    + rewrite H, app_nil_r. repeat split; try done.
      * rewrite Hsd. symmetry. apply drop_ge. apply lookup_lt_Some in Ha. lia.
      * rewrite He. unfold lockstep. by rewrite Ha.
Qed.

Lemma onode_emitted_prefix a b v : onode_inv a b v → emitted v `prefix_of` lockstep a b.
Proof.
  intros [_ _ _ _ Hdata]. destruct (o_pc v).
  - destruct Hdata as (i & _ & _ & -> & _). apply paired_prefix.
  - destruct Hdata as (i & _ & _ & _ & -> & _). apply paired_prefix.
  - destruct Hdata as (i & v1 & v2 & _ & _ & _ & _ & _ & ->). apply paired_prefix.
  - destruct Hdata as (_ & _ & _ & ->). unfold lockstep. by apply prefix_app_r.
  - by destruct Hdata as (_ & _ & ->).
  - by destruct Hdata as (_ & _ & ->).
Qed.

(** As long as the node has not returned, or the consumer has not seen
    the end of its stream, something can move. *)
Lemma onode_progress a b v :
  onode_inv a b v → o_pc v ≠ OExit ∨ o_live v = true → ∃ v', onode_move v v'.
Proof.
  intros [Hf Hs Hc Hlive _] Hgo.
  destruct v as [f s c pa oa pb ob pc got live]; simpl in *.
  assert (pc ≠ OExit → closed c = false ∧ live = true) as Hrun.
  { intros Hpc. destruct (closed c) eqn:Hcl; [by destruct Hpc; apply Hc|].
    split; [done|]. destruct live; [done|]. destruct (Hlive eq_refl). congruence. }
  destruct pc as [|v1|x|v1| |].
  - destruct (buf f) as [|v1 rest] eqn:Hb; [|eexists; by apply om_recv1].
    destruct (closed f) eqn:Hcl; [eexists; by apply om_recv1_end|].
    destruct Hf as [Hf _]. destruct oa; [|done].
    destruct pa as [|v pa]; eexists; [by apply om_close_a|by apply om_hand_a].
  - destruct (buf s) as [|v2 rest] eqn:Hb; [|eexists; by apply om_recv2].
    destruct (closed s) eqn:Hcl; [eexists; by apply om_recv2_end|].
    destruct Hs as [Hs _]. destruct ob; [|done].
    destruct pb as [|v pb]; eexists; [by apply om_close_b|by apply om_hand_b].
  - destruct Hrun as [Hcl ->]; [done|].
    destruct (buf c) as [|y rest] eqn:Hb; eexists; [by apply om_hand_send|by apply om_take].
  - destruct Hrun as [Hcl ->]; [done|].
    destruct (buf c) as [|y rest] eqn:Hb; eexists; [by apply om_hand_send_last|by apply om_take].
  - destruct Hrun as [Hcl ->]; [done|]. eexists. by apply om_close.
  - destruct Hgo as [?| ->]; [done|].
    destruct (buf c) as [|y rest] eqn:Hb; eexists; [apply om_take_end|by apply om_take]; [done|].
    by apply Hc.
Qed.

Lemma onode_run a b v sched s' :
  onode_inv a b v → run combiner sched (onode_sys v) = Some s' →
  ∃ v', s' = onode_sys v' ∧ onode_inv a b v' ∧ length sched + onode_work v' ≤ onode_work v.
Proof.
  revert v. induction sched as [|act sched IH]; intros v Hinv; simpl.
  - intros [= <-]. exists v. split; [done|]. split; [done|]. lia.
  - intros (s1 & Hstep & Hrun)%bind_Some.
    apply onode_step_move in Hstep as (v1 & -> & Hmove).
    destruct (IH v1 (onode_move_inv _ _ _ _ Hinv Hmove) Hrun) as (v' & -> & Hinv' & Hwork).
    exists v'. split; [done|]. split; [done|].
    apply onode_move_work in Hmove. lia.
Qed.

(** C2: an ordered node fed the finite streams [a] and [b], under any
    schedule and any channel capacities.  What it has emitted is at all
    times a prefix of the lock-step pairs [combiner a_i b_i] followed by
    the unpaired value of [a], if any; no schedule is longer than the work
    there is; and when nothing can move any more the node has closed its
    output having emitted exactly that list, leaving [a] unread from its
    position [length b + 1] on and [b] from its position [length a]
    on. *)
Theorem ordered_node_lockstep capf caps capc a b sched s' :
  run combiner sched (onode_sys (onode_start capf caps capc a b)) = Some s' →
  ∃ v, s' = onode_sys v ∧
       emitted v `prefix_of` lockstep a b ∧
       length sched ≤ 5 * (length a + length b) + 5 ∧
       (stuck combiner s' →
        o_pc v = OExit ∧ closed (o_c v) = true ∧ o_got v = lockstep a b ∧
        unread_f v = drop (S (length b)) a ∧ unread_s v = drop (length a) b).
Proof.
  intros Hrun.
  destruct (onode_run a b _ _ _ (onode_inv_start capf caps capc a b) Hrun)
    as (v & -> & Hinv & Hwork).
  exists v. split; [done|]. split; [by apply onode_emitted_prefix|]. split.
  { unfold onode_work in Hwork at 2. simpl in Hwork. lia. }
  intros Hstuck.
  assert (o_pc v = OExit ∧ o_live v = false) as [Hpc Hlive].
  { assert (¬ (o_pc v ≠ OExit ∨ o_live v = true)) as Hno.
    { intros Hgo. destruct (onode_progress a b v Hinv Hgo) as (v' & Hmove).
      apply onode_move_step in Hmove as (act & Hstep). by rewrite Hstuck in Hstep. }
    destruct (o_pc v), (o_live v); try done; destruct Hno; by (left + right). }
  destruct Hinv as [_ _ Hc Hl Hdata]. rewrite Hpc in Hdata.
  destruct (Hl Hlive) as [Hcl Hbuf]. destruct Hdata as (Hfd & Hsd & He).
  unfold emitted in He. rewrite Hbuf, app_nil_r in He. done.
Qed.
End ordered_node.

(** ** An unordered node on its own *)

Section unordered_node.
Context {T : Type}.
Variable combiner : T → T → T.
Implicit Types (a b : list T) (ch : chan T).











































End unordered_node.


(** ** What no run of the tree does *)

Section safety.
Context {T : Type}.
Variable combiner : T → T → T.
Implicit Types (st : state T) (g : goroutine T).

Lemma sum_list_lookup_le {A} (f : A → nat) (l : list A) i x :
  l !! i = Some x → f x ≤ sum_list (f <$> l).
Proof.
  revert i. induction l as [|y l IH]; intros [|i] Hi; simplify_eq/=; [lia|].
  specialize (IH _ Hi). lia.
Qed.

Lemma add_leaves_signals out st st' :
  add_leaves out st = Some st' → sigs st' = sigs st ∧ stop (tr st') = stop (tr st).
Proof.
  intros Hadd.
  eapply (add_leaves_preserves (λ st1, sigs st1 = sigs st ∧ stop (tr st1) = stop (tr st))
            (λ _ st1, sigs st1 = sigs st ∧ stop (tr st1) = stop (tr st)) (λ _, True));
    [..|exact Hadd]; try done.
  by apply Forall_true.
Qed.

Lemma Add_total out st : wf st → is_Some (Add out st).
Proof.
  intros Hwf. unfold Add.
  destruct (add_leaves_total out st (wf_size _ Hwf)) as [st1 Hst1]. rewrite Hst1. simpl.
  destruct (add_leaves_signals _ _ _ Hst1) as [Hsigs Hstop].
  unfold updateCollectors. rewrite Hsigs, Hstop, (wf_stop _ Hwf). simpl. eauto.
Qed.

(** A goroutine of the tree that stands at a [close] finds its channel
    open: no run closes a channel twice. *)
Theorem close_finds_open_channel bufferSize w ord srcs readers p sched (s s' : sys T)
    i b g c k :
  calls_ok (length srcs) p →
  boot bufferSize w ord srcs readers p = Some s →
  run combiner sched s = Some s' →
  pool (world s') !! i = Some g →
  next combiner (tr (world s')) g !! b = Some (Close c k) →
  is_open (world s') c ∧ is_Some (step combiner (Run i b) s').
Proof.
  intros Hp Hboot Hrun Hg Ho.
  destruct (steady_run combiner _ _ _ (steady_boot _ _ _ _ _ _ _ Hp Hboot) Hrun)
    as ([[Hwf _] _] & Hown & _).
  pose proof (Forall_lookup_1 _ _ _ _ (wf_pool _ Hwf) Hg) as Hids.
  destruct (next_ids_ok combiner _ _ _ _ Hwf Hids Ho) as [Hc _].
  destruct (lookup_lt_is_Some_2 _ _ Hc) as [ch Hch].
  destruct (next_owned combiner _ _ _ _ Ho) as (Hrunning & Hog & _).
  assert (closed ch = false) as Hopen.
  { destruct (closed ch) eqn:Hcl; [|done].
    rewrite (own_open _ Hown i g c ch) in Hrunning; [done..| |done|done].
    rewrite Hog. by left. }
  split; [by exists ch|].
  simpl. unfold run_goroutine. rewrite Hg. simpl. rewrite Ho. simpl. rewrite Hch. simpl.
  unfold chan_close. rewrite Hopen. simpl. eauto.
Qed.

(** A goroutine that stands at a [wg.Done()] finds the counter of its
    wait group positive: no run drives a counter below zero. *)
Theorem wg_Done_finds_positive_counter bufferSize w ord srcs readers p sched (s s' : sys T)
    i b g r k :
  calls_ok (length srcs) p →
  boot bufferSize w ord srcs readers p = Some s →
  run combiner sched s = Some s' →
  pool (world s') !! i = Some g →
  next combiner (tr (world s')) g !! b = Some (WgDone r k) →
  match r with
  | TreeWg => 0 < wg (tr (world s'))
  | NodeWg x => ∃ n, wgs (world s') !! x = Some (S n)
  end ∧
  is_Some (step combiner (Run i b) s').
Proof.
  intros Hp Hboot Hrun Hg Ho.
  destruct (sound_run combiner _ _ _ (sound_boot _ _ _ _ _ _ _ Hp Hboot) Hrun)
    as [[Hwf _] [Htree Hnode]].
  pose proof (Forall_lookup_1 _ _ _ _ (wf_pool _ Hwf) Hg) as (_ & _ & Hids).
  assert (match r with
          | TreeWg => 0 < wg (tr (world s'))
          | NodeWg x => ∃ n, wgs (world s') !! x = Some (S n)
          end) as Hpos.
  { destruct r as [|x].
    - pose proof (next_collecting combiner _ _ _ _ Ho) as [Hone _]. simpl in Hone.
      pose proof (sum_list_lookup_le collecting _ _ _ Hg). lia.
    - pose proof (next_forwarding combiner x _ _ _ _ Ho) as [_ Hone]. simpl in Hone.
      rewrite decide_True in Hone by done.
      assert (x < length (wgs (world s'))) as Hx.
      { destruct g as [?src ?c []|?c []|?f ?s ?c []|?f ?s ?c []|?src ?fanIn ?y []|?fanIn ?y []
                       |?src [|?v ?rest] []|?c ?got []];
          simpl in Ho; repeat (destruct b as [|b]; simpl in Ho; try done); simplify_eq.
        simpl in Hids. by apply Forall_cons_1 in Hids as [? _]. }
      destruct (lookup_lt_is_Some_2 _ _ Hx) as [n Hn].
      pose proof (Hnode _ _ Hn) as Hsum.
      pose proof (sum_list_lookup_le (forwarding x) _ _ _ Hg).
      destruct n as [|n]; [lia|]. by exists n. }
  split; [done|].
  simpl. unfold run_goroutine. rewrite Hg. simpl. rewrite Ho. simpl.
  destruct r as [|x].
  - destruct (wg (tr (world s'))); [lia|]. simpl. eauto.
  - destruct Hpos as [n ->]. simpl. eauto.
Qed.

(** [Add] neither blocks nor panics: whenever the caller is about to
    call it, the call goes through. *)
Theorem Add_returns bufferSize w ord srcs readers p sched (s s' : sys T) out rest :
  calls_ok (length srcs) p →
  boot bufferSize w ord srcs readers p = Some s →
  run combiner sched s = Some s' →
  waiting s' = false → prog s' = CAdd out :: rest →
  ∃ s'', step combiner Caller s' = Some s'' ∧ prog s'' = rest ∧ waiting s'' = false ∧
         result s'' = result s'.
Proof.
  intros Hp Hboot Hrun Hw Hprog.
  destruct (sys_wf_run combiner _ _ _ (sys_wf_boot _ _ _ _ _ _ _ Hp Hboot) Hrun) as [Hwf _].
  destruct (Add_total out _ Hwf) as [st Hst].
  exists (Sys st rest false (result s')). split; [|done].
  simpl. unfold caller_step. by rewrite Hw, Hprog, Hst.
Qed.

(** Every channel the tree makes has the capacity [bufferSize] given to
    [New], the output channel included, and never holds more values. *)
Theorem tree_channels_sized_by_bufferSize bufferSize w ord srcs readers p sched
    (s s' : sys T) c ch :
  calls_ok (length srcs) p →
  boot bufferSize w ord srcs readers p = Some s →
  run combiner sched s = Some s' →
  length srcs ≤ c → chans (world s') !! c = Some ch →
  cap ch = Z.to_nat bufferSize ∧ length (buf ch) ≤ Z.to_nat bufferSize.
Proof.
  intros Hp Hboot Hrun Hc Hch.
  destruct (sys_wf_run combiner _ _ _ (sys_wf_boot _ _ _ _ _ _ _ Hp Hboot) Hrun) as [Hwf _].
  destruct (boot_config _ _ _ _ _ _ _ Hboot) as (Hsz & _).
  destruct (run_config combiner _ _ _ Hrun) as (Hsz' & _).
  assert (uniform (length srcs) (world s)) as Hu.
  { unfold boot, New in Hboot.
    apply bind_Some in Hboot
      as (st & (out & [_ ->]%make_chan_Some & [= <-])%bind_Some & [= <-]).
    intros c0 ch0 Hc0. simpl. intros Hch0.
    rewrite lookup_app_r in Hch0 by (by rewrite source_chans_length).
    rewrite source_chans_length in Hch0.
    destruct (c0 - length srcs) as [|n]; [|by destruct n]. by simplify_eq/=. }
  pose proof (uniform_run combiner _ _ _ _ Hu Hrun c ch Hc Hch) as Hcap.
  rewrite Hsz', Hsz in Hcap. split; [done|].
  rewrite <- Hcap. exact (Forall_lookup_1 _ _ _ _ (wf_chans _ Hwf) Hch).
Qed.

(** [Output] is the channel [New] made, whatever has been added since; no
    goroutine of the tree closes it, and it stays open until [Finish]
    returns. *)
Theorem Output_open_until_Finish_returns bufferSize w ord srcs readers p sched
    (s s' : sys T) :
  calls_ok (length srcs) p →
  boot bufferSize w ord srcs readers p = Some s →
  run combiner sched s = Some s' →
  Output (world s') = length srcs ∧
  (∀ i g b c k, pool (world s') !! i = Some g →
                next combiner (tr (world s')) g !! b = Some (Close c k) →
                c ≠ Output (world s')) ∧
  (result s' = None → is_open (world s') (Output (world s'))).
Proof.
  intros Hp Hboot Hrun.
  destruct (steady_run combiner _ _ _ (steady_boot _ _ _ _ _ _ _ Hp Hboot) Hrun)
    as (_ & Hown & Hopen).
  destruct (boot_config _ _ _ _ _ _ _ Hboot) as (_ & _ & _ & Hout & _).
  destruct (run_config combiner _ _ _ Hrun) as (_ & Hout' & _).
  unfold Output. split; [congruence|]. split; [|done].
  intros i g b c k Hg Ho. by eapply Close_not_output.
Qed.
End safety.


(** ** A leaf adapter on its own *)

Section leaf_adapter.
Context {T : Type}.
Variable combiner : T → T → T.
Implicit Types (a : list T) (ch : chan T).

(** Where the caller stands: it has not called [Finish] yet, it is
    inside it, or [Finish] has returned. *)
Inductive caller_at := BeforeFinish | InFinish | AfterFinish.

(** The adapter with what it needs around it: a streaming tree whose
    only goroutine it is, a producer feeding its source, channel 0, with
    [a] and closing it, a consumer ranging over its queue, channel 1, and a
    caller that calls [Finish] once, which trips the token and closes the
    output channel, channel 2. *)
Record adapter_view := AView {
  l_o : chan T; l_c : chan T; l_out : nat;
  l_a : list T; l_a_open : bool;
  l_pc : adapter_pc T;
  l_got : list T; l_live : bool;
  l_caller : caller_at
}.

Definition adapter_sys (size : Z) (v : adapter_view) : sys T :=
  Sys (State (Tree [] size 2 0
                   (match l_caller v with BeforeFinish => false | _ => true end)
                   0 false false)
             [l_o v; l_c v;
              Chan [] (match l_caller v with AfterFinish => true | _ => false end) (l_out v)]
             [false] []
             [Producer 0 (l_a v) (l_a_open v); Adapter 0 1 (l_pc v);
              Consumer 1 (l_got v) (l_live v)])
      (match l_caller v with BeforeFinish => [CFinish] | _ => [] end)
      (match l_caller v with InFinish => true | _ => false end)
      (match l_caller v with AfterFinish => Some None | _ => None end).

Definition adapter_start (capo capc capout : nat) a : adapter_view :=
  AView (Chan [] false capo) (Chan [] false capc) capout a true ASelect [] true BeforeFinish.

(** The moves of this system, read off [step]. *)
Inductive adapter_move : adapter_view → adapter_view → Prop :=
| lm_send_a o c n v a oa pc got live cl :
    closed o = false → length (buf o) < cap o →
    adapter_move (AView o c n (v :: a) oa pc got live cl)
                 (AView (Chan (buf o ++ [v]) false (cap o)) c n a oa pc got live cl)
| lm_close_a o c n pc got live cl :
    closed o = false →
    adapter_move (AView o c n [] true pc got live cl)
                 (AView (Chan (buf o) true (cap o)) c n [] false pc got live cl)
| lm_recv o c n v rest a oa got live cl :
    buf o = v :: rest →
    adapter_move (AView o c n a oa ASelect got live cl)
                 (AView (Chan rest (closed o) (cap o)) c n a oa (ASend v) got live cl)
| lm_recv_end o c n a oa got live cl :
    buf o = [] → closed o = true →
    adapter_move (AView o c n a oa ASelect got live cl)
                 (AView o c n a oa AClose got live cl)
| lm_ctx_done o c n a oa got live cl :
    cl ≠ BeforeFinish →
    adapter_move (AView o c n a oa ASelect got live cl)
                 (AView o c n a oa AClose got live cl)
| lm_send o c n v a oa got live cl :
    closed c = false → length (buf c) < cap c →
    adapter_move (AView o c n a oa (ASend v) got live cl)
                 (AView o (Chan (buf c ++ [v]) false (cap c)) n a oa ASelect got live cl)
| lm_close o c n a oa got live cl :
    closed c = false →
    adapter_move (AView o c n a oa AClose got live cl)
                 (AView o (Chan (buf c) true (cap c)) n a oa AExit got live cl)
| lm_take o c n v rest a oa pc got cl :
    buf c = v :: rest →
    adapter_move (AView o c n a oa pc got true cl)
                 (AView o (Chan rest (closed c) (cap c)) n a oa pc (got ++ [v]) true cl)
| lm_take_end o c n a oa pc got cl :
    buf c = [] → closed c = true →
    adapter_move (AView o c n a oa pc got true cl)
                 (AView o c n a oa pc got false cl)
| lm_hand_a o c n v a oa got live cl :
    buf o = [] → closed o = false →
    adapter_move (AView o c n (v :: a) oa ASelect got live cl)
                 (AView o c n a oa (ASend v) got live cl)
| lm_hand_send o c n v a oa got cl :
    buf c = [] → closed c = false →
    adapter_move (AView o c n a oa (ASend v) got true cl)
                 (AView o c n a oa ASelect (got ++ [v]) true cl)
| lm_finish_enter o c n a oa pc got live :
    adapter_move (AView o c n a oa pc got live BeforeFinish)
                 (AView o c n a oa pc got live InFinish)
| lm_finish_return o c n a oa pc got live :
    adapter_move (AView o c n a oa pc got live InFinish)
                 (AView o c n a oa pc got live AfterFinish).

Local Ltac aview :=
  first [ eexists (AView _ _ _ _ _ _ _ _ _); split; [reflexivity|]
        | eexists (AView _ _ _ _ _ _ _ _ BeforeFinish); split; [reflexivity|]
        | eexists (AView _ _ _ _ _ _ _ _ InFinish); split; [reflexivity|]
        | eexists (AView _ _ _ _ _ _ _ _ AfterFinish); split; [reflexivity|] ];
  by constructor.

Lemma adapter_step_move size (act : action) v s' :
  step combiner act (adapter_sys size v) = Some s' →
  ∃ v', s' = adapter_sys size v' ∧ adapter_move v v'.
Proof.
  destruct v as [o c n pa oa pc got live cl].
  destruct act as [i b|i bi j bj|]; simpl.
  - intros (st & Hrun & [= <-])%bind_Some. unfold run_goroutine in Hrun.
    apply bind_Some in Hrun as (g & Hg & Hrun).
    apply bind_Some in Hrun as (op & Ho & Hex).
    apply exec_inv in Hex.
    destruct i as [|[|[|i]]]; simpl in Hg; simplify_eq.
    + destruct pa as [|v pa]; [destruct oa|]; destruct b as [|b]; simplify_eq/=.
      * destruct Hex as (ch & ch' & [= <-] & (Hcl & ->)%chan_close_Some & ->). aview.
      * destruct Hex as (ch & ch' & [= <-] & (Hcl & Hlen & ->)%chan_send_Some & ->). aview.
    + destruct pc; [destruct b as [|[|b]]|destruct b as [|b]..]; simplify_eq/=.
      * destruct Hex as (ch & r & ch' & [= <-] &
          [(v1 & rest & Hb & -> & ->)|(Hb & Hcl & -> & ->)]%chan_recv_Some & ->); aview.
      * destruct Hex as [Hc ->]. destruct cl; simplify_eq/=; aview.
      * destruct Hex as (ch & ch' & [= <-] & (Hcl & Hlen & ->)%chan_send_Some & ->). aview.
      * destruct Hex as (ch & ch' & [= <-] & (Hcl & ->)%chan_close_Some & ->). aview.
    + destruct live; destruct b as [|b]; simplify_eq/=.
      destruct Hex as (ch & r & ch' & [= <-] &
          [(v1 & rest & Hb & -> & ->)|(Hb & Hcl & -> & ->)]%chan_recv_Some & ->); aview.
  - intros (st & Hh & [= <-])%bind_Some.
    apply handoff_inv in Hh
      as (gi & gj & c0 & v0 & ks & kr & ch & Hgi & Hgj & Hoi & Hoj & Hij & Hch & Hb & Hcl & ->).
    simpl in *.
    destruct j as [|[|[|j]]]; simpl in Hgj; simplify_eq.
    + destruct pa as [|? pa]; [destruct oa|]; destruct bj as [|bj]; simplify_eq/=.
    + destruct pc; [destruct bj as [|[|bj]]|destruct bj as [|bj]..]; simplify_eq/=.
      destruct i as [|[|[|i]]]; simpl in Hgi; simplify_eq.
      * destruct pa as [|? pa]; [destruct oa|]; destruct bi as [|bi]; simplify_eq/=. aview.
      * destruct live; destruct bi as [|bi]; simplify_eq/=.
    + destruct live; destruct bj as [|bj]; simplify_eq/=.
      destruct i as [|[|[|i]]]; simpl in Hgi; simplify_eq.
      * destruct pa as [|? pa]; [destruct oa|]; destruct bi as [|bi]; simplify_eq/=.
      * destruct pc; [destruct bi as [|[|bi]]|destruct bi as [|bi]..]; simplify_eq/=. aview.
  - unfold caller_step. destruct cl; simpl.
    + intros [= <-]. aview.
    + intros [= <-]. aview.
    + done.
Qed.

Lemma adapter_move_step size v v' :
  adapter_move v v' → ∃ act, step combiner act (adapter_sys size v) = Some (adapter_sys size v').
Proof.
  intros Hm. destruct Hm.
  - exists (Run 0 0). simpl. unfold run_goroutine. simpl.
    by rewrite (proj2 (chan_send_Some v o _) (conj H (conj H0 eq_refl))).
  - exists (Run 0 0). simpl. unfold run_goroutine. simpl.
    by rewrite (proj2 (chan_close_Some o _) (conj H eq_refl)).
  - exists (Run 1 0). simpl. unfold run_goroutine. simpl. unfold chan_recv. by rewrite H.
  - exists (Run 1 0). simpl. unfold run_goroutine. simpl. unfold chan_recv. by rewrite H, H0.
  - exists (Run 1 1). by destruct cl.
  - exists (Run 1 0). simpl. unfold run_goroutine. simpl.
    by rewrite (proj2 (chan_send_Some v c _) (conj H (conj H0 eq_refl))).
  - exists (Run 1 0). simpl. unfold run_goroutine. simpl.
    by rewrite (proj2 (chan_close_Some c _) (conj H eq_refl)).
  - exists (Run 2 0). simpl. unfold run_goroutine. simpl. unfold chan_recv. by rewrite H.
  - exists (Run 2 0). simpl. unfold run_goroutine. simpl. unfold chan_recv. by rewrite H, H0.
  - exists (Handoff 0 0 1 0). simpl. unfold handoff. simpl.
    rewrite decide_True; [done|]. by repeat split; try lia.
  - exists (Handoff 1 0 2 0). simpl. unfold handoff. simpl.
    rewrite decide_True; [done|]. by repeat split; try lia.
  - by exists Caller.
  - by exists Caller.
Qed.

(** The measure of the work left: every move lowers it. *)
Definition adapter_pc_work (pc : adapter_pc T) : nat :=
  match pc with ASelect => 2 | ASend _ => 4 | AClose => 1 | AExit => 0 end.

Definition caller_work (cl : caller_at) : nat :=
  match cl with BeforeFinish => 2 | InFinish => 1 | AfterFinish => 0 end.

Definition adapter_work (v : adapter_view) : nat :=
  4 * length (l_a v) + (if l_a_open v then 1 else 0) + 3 * length (buf (l_o v)) +
  adapter_pc_work (l_pc v) + length (buf (l_c v)) + (if l_live v then 1 else 0) +
  caller_work (l_caller v).

Lemma adapter_move_work v v' : adapter_move v v' → adapter_work v' < adapter_work v.
Proof.
  intros Hm. destruct Hm; unfold adapter_work; simpl; rewrite ?length_app; simpl;
    repeat match goal with H : buf _ = _ |- _ => rewrite H end; simpl; lia.
Qed.

(** The value the adapter holds between its receive and its send. *)
Definition in_hand (pc : adapter_pc T) : list T :=
  match pc with ASend v => [v] | _ => [] end.

(** The values of the stream [a0] from the consumer back to the
    producer, in the order of the stream. *)
Definition l_forwarded (v : adapter_view) : list T := l_got v ++ buf (l_c v).
Definition l_unread (v : adapter_view) : list T := buf (l_o v) ++ l_a v.

Definition tripped_token (v : adapter_view) : bool :=
  match l_caller v with BeforeFinish => false | _ => true end.

Definition past_select (pc : adapter_pc T) : bool :=
  match pc with AClose | AExit => true | _ => false end.

Record adapter_inv a0 (v : adapter_view) : Prop := {
  li_o : closed (l_o v) = negb (l_a_open v) ∧ (l_a_open v = false → l_a v = []);
  li_c : closed (l_c v) = true ↔ l_pc v = AExit;
  li_live : l_live v = false → closed (l_c v) = true ∧ buf (l_c v) = [];
  li_order : l_forwarded v ++ in_hand (l_pc v) ++ l_unread v = a0;
  li_exit : past_select (l_pc v) = true →
            tripped_token v = true ∨ (closed (l_o v) = true ∧ l_unread v = [])
}.

Lemma adapter_inv_start capo capc capout a :
  adapter_inv a (adapter_start capo capc capout a).
Proof. by split. Qed.

Local Ltac in_order Hord :=
  rewrite <- Hord; repeat match goal with H : buf _ = _ |- _ => rewrite H end;
  rewrite <- ?(assoc_L (++)); simpl; done.

Lemma adapter_move_inv a0 v v' : adapter_inv a0 v → adapter_move v v' → adapter_inv a0 v'.
Proof.
  intros [Ho Hc Hlive Hord Hex] Hm.
  destruct Hm; unfold l_forwarded, l_unread, tripped_token in *; simpl in *.
  - split; unfold l_forwarded, l_unread, tripped_token; simpl; try done.
    + destruct Ho as [Ho Ha]. split; [congruence|]. intros Hoa. by specialize (Ha Hoa).
    + in_order Hord.
    + intros Hp. destruct (Hex Hp) as [|[? _]]; [by left|congruence].
  - split; unfold l_forwarded, l_unread, tripped_token; simpl; try done. intros Hp. destruct (Hex Hp) as [|[? _]]; [by left|congruence].
  - split; unfold l_forwarded, l_unread, tripped_token; simpl; try done.
    + split; [|done]. by intros ?%Hc.
    + in_order Hord.
  - split; unfold l_forwarded, l_unread, tripped_token; simpl; try done.
    + split; [|done]. by intros ?%Hc.
    + intros _. right. split; [done|]. rewrite H. destruct Ho as [Ho Ha].
      rewrite Ha; [done|]. destruct oa; [|done]. simpl in Ho. congruence.
  - split; unfold l_forwarded, l_unread, tripped_token; simpl; try done.
    + split; [|done]. by intros ?%Hc.
    + intros _. left. by destruct cl.
  - split; unfold l_forwarded, l_unread, tripped_token; simpl; try done.
    + intros Hl. destruct (Hlive Hl) as [? _]. congruence.
    + in_order Hord.
  - split; unfold l_forwarded, l_unread, tripped_token; simpl; try done. intros Hl. destruct (Hlive Hl) as [? _]. congruence.
  - split; unfold l_forwarded, l_unread, tripped_token; simpl; try done. in_order Hord.
  - split; unfold l_forwarded, l_unread, tripped_token; simpl; try done.
  - split; unfold l_forwarded, l_unread, tripped_token; simpl; try done.
    + destruct Ho as [Ho Ha]. split; [done|]. intros Hoa. by specialize (Ha Hoa).
    + split; [|done]. by intros ?%Hc.
    + in_order Hord.
  - split; unfold l_forwarded, l_unread, tripped_token; simpl; try done.
    + split; [|done]. by intros ?%Hc.
    + in_order Hord.
  - split; unfold l_forwarded, l_unread, tripped_token; simpl; try done. intros; by left.
  - split; unfold l_forwarded, l_unread, tripped_token; simpl; done.
Qed.

(** The adapter has returned, the consumer has seen its queue closed and
    [Finish] has returned. *)
Definition adapter_done (v : adapter_view) : Prop :=
  l_pc v = AExit ∧ l_live v = false ∧ l_caller v = AfterFinish.

Lemma adapter_progress a0 v :
  adapter_inv a0 v → ¬ adapter_done v → ∃ v', adapter_move v v'.
Proof.
  intros [Ho Hc Hlive _ _] Hgo.
  destruct v as [o c n a oa pc got live cl]. unfold adapter_done in Hgo. simpl in *.
  destruct cl; [eexists; by apply lm_finish_enter|eexists; by apply lm_finish_return|].
  assert (pc ≠ AExit → closed c = false ∧ live = true) as Hrun.
  { intros Hpc. destruct (closed c) eqn:Hcl; [by destruct Hpc; apply Hc|].
    split; [done|]. destruct live; [done|]. destruct (Hlive eq_refl). congruence. }
  destruct pc as [|x| |].
  - eexists. by apply lm_ctx_done.
  - destruct Hrun as [Hcl ->]; [done|].
    destruct (buf c) eqn:Hb; eexists; [by apply lm_hand_send|by apply lm_take].
  - destruct Hrun as [Hcl ->]; [done|]. eexists. by apply lm_close.
  - destruct live; [|by destruct Hgo].
    destruct (buf c) eqn:Hb; eexists; [apply lm_take_end|by apply lm_take]; [done|].
    by apply Hc.
Qed.

Lemma adapter_run size a0 v sched s' :
  adapter_inv a0 v → run combiner sched (adapter_sys size v) = Some s' →
  ∃ v', s' = adapter_sys size v' ∧ adapter_inv a0 v' ∧
        length sched + adapter_work v' ≤ adapter_work v.
Proof.
  revert v. induction sched as [|act sched IH]; intros v Hinv; simpl.
  - intros [= <-]. exists v. split; [done|]. split; [done|]. lia.
  - intros (s1 & Hstep & Hrun)%bind_Some.
    apply adapter_step_move in Hstep as (v1 & -> & Hmove).
    destruct (IH v1 (adapter_move_inv _ _ _ Hinv Hmove) Hrun) as (v' & -> & Hinv' & Hwork).
    exists v'. split; [done|]. split; [done|].
    apply adapter_move_work in Hmove. lia.
Qed.

(** A leaf adapter between a source carrying the finite stream [a] and
    the consumer of its queue, under any schedule and any channel
    capacities, with a caller that calls [Finish] at some point.  At all
    times the values forwarded so far, the value in the adapter's hand and
    the values not yet read make up [a], in this order: nothing is lost,
    duplicated or reordered.  The adapter leaves its loop only with the
    token tripped or with the source closed and read to its end.  No
    schedule is longer than the work there is, and when nothing can move
    any more the adapter has closed its queue and returned, and the
    consumer holds a prefix of [a] whose remainder is still unread in the
    source. *)
Theorem leaf_adapter_forwards_in_order size capo capc capout a sched s' :
  run combiner sched (adapter_sys size (adapter_start capo capc capout a)) = Some s' →
  ∃ v, s' = adapter_sys size v ∧
       l_forwarded v ++ in_hand (l_pc v) ++ l_unread v = a ∧
       (past_select (l_pc v) = true →
        tripped_token v = true ∨ (closed (l_o v) = true ∧ l_forwarded v = a)) ∧
       length sched ≤ 4 * length a + 6 ∧
       (stuck combiner s' →
        l_pc v = AExit ∧ closed (l_c v) = true ∧ l_got v ++ l_unread v = a).
Proof.
  intros Hrun.
  destruct (adapter_run size a _ _ _ (adapter_inv_start capo capc capout a) Hrun)
    as (v & -> & Hinv & Hwork).
  exists v. split; [done|]. split; [apply Hinv|]. split; [|split].
  - intros Hp. destruct (li_exit _ _ Hinv Hp) as [|[Hcl Hnil]]; [by left|right].
    split; [done|]. pose proof (li_order _ _ Hinv) as Hord. rewrite Hnil in Hord.
    destruct (l_pc v); try done; simpl in Hord; by rewrite !app_nil_r in Hord.
  - unfold adapter_work in Hwork at 2. simpl in Hwork. lia.
  - intros Hstuck.
    assert (¬ ¬ adapter_done v) as Hnn.
    { intros Hgo. destruct (adapter_progress a v Hinv Hgo) as (v' & Hmove).
      apply (adapter_move_step size) in Hmove as (act & Hstep). by rewrite Hstuck in Hstep. }
    assert (adapter_done v) as (Hpc & Hlive & _).
    { unfold adapter_done in *.
      destruct (l_pc v), (l_live v), (l_caller v); try done; exfalso; apply Hnn; by intros (? & ? & ?). }
    destruct Hinv as [_ Hc Hl Hord _]. destruct (Hl Hlive) as [Hcl Hbuf].
    split; [done|]. split; [done|].
    unfold l_forwarded in Hord. by rewrite Hpc, Hbuf, app_nil_r in Hord.
Qed.
End leaf_adapter.


(** ** Conservation: what the tree holds adds up to what went in *)

Section conservation.
Context {T : Type}.
Variable combiner : T → T → T.
Hypothesis combiner_assoc : ∀ x y z, combiner x (combiner y z) = combiner (combiner x y) z.
Hypothesis combiner_comm : ∀ x y, combiner x y = combiner y x.
Implicit Types (st : state T) (g : goroutine T) (x y z : option T).

(** The combiner extended to "no value at all". *)
Definition plus x y : option T :=
  match x, y with
  | Some a, Some b => Some (combiner a b)
  | None, _ => y
  | _, None => x
  end.

Local Arguments plus : simpl never.

Definition total (l : list T) : option T := foldr (λ v, plus (Some v)) None l.
Definition totals (l : list (option T)) : option T := foldr plus None l.

(** The values a goroutine holds in its local variables. *)
Definition carrying g : list T :=
  match g with
  | Adapter _ _ (ASend v) | Collector _ (KSend v) | Forwarder _ _ _ (FSend v) => [v]
  | ONode _ _ _ (ORecv2 v) | ONode _ _ _ (OSend v) | ONode _ _ _ (OSendLast v) => [v]
  | UNode _ _ _ (URecv2 _ v) | UNode _ _ _ (USend _ v) | UNode _ _ _ (USendLast _ v) => [v]
  | Producer _ pending _ => pending
  | Consumer _ got _ => got
  | _ => []
  end.

(** Everything the runtime holds, combined: the buffers of all channels
    and the local variables of all goroutines. *)
Definition chan_total (ch : chan T) : option T := total (buf ch).
Definition held_total g : option T := total (carrying g).

Definition weight st : option T :=
  plus (totals (chan_total <$> chans st)) (totals (held_total <$> pool st)).

Lemma plus_None_r x : plus x None = x.
Proof. by destruct x. Qed.

Lemma plus_assoc x y z : plus x (plus y z) = plus (plus x y) z.
Proof using combiner_assoc.
  destruct x, y, z; unfold plus; try done. by rewrite combiner_assoc.
Qed.

Lemma plus_comm x y : plus x y = plus y x.
Proof using combiner_comm. destruct x, y; unfold plus; try done. by rewrite combiner_comm. Qed.

Lemma plus_swap x y z : plus x (plus y z) = plus y (plus x z).
Proof using combiner_assoc combiner_comm.
  by rewrite !plus_assoc, (plus_comm x y).
Qed.

Lemma total_app (l1 l2 : list T) : total (l1 ++ l2) = plus (total l1) (total l2).
Proof using combiner_assoc.
  induction l1 as [|v l1 IH]; simpl; [done|]. by rewrite IH, plus_assoc.
Qed.

Lemma totals_app (l1 l2 : list (option T)) :
  totals (l1 ++ l2) = plus (totals l1) (totals l2).
Proof using combiner_assoc.
  induction l1 as [|v l1 IH]; simpl; [done|]. by rewrite IH, plus_assoc.
Qed.

(** [Finish]'s loop computes the total of what it drains. *)
Lemma total_drain (final : T) (buffered : list T) :
  total (final :: buffered) = Some (drain combiner final buffered).
Proof using combiner_assoc.
  revert final. induction buffered as [|v l IH]; intros final; [done|].
  simpl drain. rewrite <- IH. simpl. by rewrite plus_assoc.
Qed.

(** Taking one summand out of a sum. *)
Lemma totals_extract {A} (f : A → option T) (l : list A) i a :
  l !! i = Some a →
  ∃ R, totals (f <$> l) = plus (f a) R ∧ ∀ b, totals (f <$> <[i := b]> l) = plus (f b) R.
Proof using combiner_assoc combiner_comm.
  revert i. induction l as [|c l IH]; intros [|i] Hi; try done.
  - injection Hi as ->. by exists (totals (f <$> l)).
  - destruct (IH i Hi) as (R & HR & Hins). exists (plus (f c) R). split.
    + change (totals (f <$> c :: l)) with (plus (f c) (totals (f <$> l))).
      by rewrite HR, plus_swap.
    + intros b.
      change (totals (f <$> <[S i := b]> (c :: l)))
        with (plus (f c) (totals (f <$> <[i := b]> l))).
      by rewrite Hins, plus_swap.
Qed.

Lemma totals_nil {A} (f : A → option T) (l : list A) :
  Forall (λ a, f a = None) l → totals (f <$> l) = None.
Proof.
  induction 1 as [|a l Ha _ IH]; [done|].
  change (totals (f <$> a :: l)) with (plus (f a) (totals (f <$> l))). by rewrite Ha, IH.
Qed.

(** What one operation does to the values its goroutine holds. *)
Lemma next_carrying t g b o :
  next combiner t g !! b = Some o →
  match o with
  | Recv _ k =>
      total (carrying (k None)) = total (carrying g) ∧
      ∀ v, total (carrying (k (Some v))) = plus (total (carrying g)) (Some v)
  | Send _ v k => total (carrying g) = plus (Some v) (total (carrying k))
  | Close _ k | StopClosed _ k | CtxDone k | Tau k | WgDone _ k | WgWait _ k =>
      carrying k = carrying g
  | Fork _ _ k => ∀ fanIn w, carrying (k fanIn w).2 = carrying g ∧
                             Forall (λ g', total (carrying g') = None) (k fanIn w).1
  end.
Proof using combiner_assoc.
  intros Ho.
  destruct g as [?src ?c []|?c []|?f ?s ?c []|?f ?s ?c []|?src ?fanIn ?w []|?fanIn ?w []
                 |?src [|?v ?rest] []|?c ?got []];
    simpl in Ho; repeat (destruct b as [|b]; simpl in Ho; try done); simplify_eq; simpl;
    try done; try (split; [done|]; intros; done).
  - intros fanIn w. split; [done|]. by repeat constructor.
  - split; [done|]. intros v. by rewrite total_app.
Qed.

Lemma totals_insert_same {A} (f : A → option T) (l : list A) i a b :
  l !! i = Some a → f b = f a → totals (f <$> <[i := b]> l) = totals (f <$> l).
Proof using combiner_assoc combiner_comm.
  intros Hi Hf. destruct (totals_extract f l i a Hi) as (R & -> & Hins).
  by rewrite Hins, Hf.
Qed.

Lemma plus_carry a b c d v :
  plus (plus a b) (plus (plus c v) d) = plus (plus (plus v a) b) (plus c d).
Proof using combiner_assoc combiner_comm.
  rewrite (plus_comm c v), <- (plus_assoc v c d), plus_swap.
  by rewrite <- (plus_assoc v a b), <- (plus_assoc v).
Qed.

Lemma weight_exec i b g o st st' :
  pool st !! i = Some g → next combiner (tr st) g !! b = Some o →
  exec i o st = Some st' → weight st' = weight st.
Proof using combiner_assoc combiner_comm.
  intros Hg Ho Hex. apply exec_inv in Hex. pose proof (next_carrying _ _ _ _ Ho) as Hcar.
  unfold weight.
  destruct o as [c k|c v k|c k|sg k|k|k|r k|r k|size n k]; simpl in *.
  - destruct Hex as (ch & r & ch' & Hch & Hrecv & ->). simpl.
    destruct Hcar as [Hnone Hsome].
    destruct (totals_extract chan_total _ _ _ Hch) as (RC & -> & ->).
    destruct (totals_extract held_total _ _ _ Hg) as (RP & -> & ->).
    apply chan_recv_Some in Hrecv as [(v & rest & Hb & -> & ->)|(Hb & Hcl & -> & ->)].
    + unfold chan_total, held_total. simpl. rewrite Hsome, Hb.
      change (total (v :: rest)) with (plus (Some v) (total rest)).
      by rewrite plus_carry.
    + unfold held_total. by rewrite Hnone.
  - destruct Hex as (ch & ch' & Hch & (Hcl & Hlen & ->)%chan_send_Some & ->). simpl.
    destruct (totals_extract chan_total _ _ _ Hch) as (RC & -> & ->).
    destruct (totals_extract held_total _ _ _ Hg) as (RP & -> & ->).
    unfold chan_total, held_total. simpl. rewrite Hcar, total_app.
    change (total [v]) with (plus (Some v) None). rewrite plus_None_r.
    rewrite (plus_comm (total (buf ch)) (Some v)), (plus_comm (Some v) (total (carrying k))).
    symmetry. apply plus_carry.
  - destruct Hex as (ch & ch' & Hch & (Hcl & ->)%chan_close_Some & ->). simpl.
    rewrite (totals_insert_same chan_total _ _ _ _ Hch) by done.
    by rewrite (totals_insert_same held_total _ _ _ _ Hg) by (unfold held_total; by rewrite Hcar).
  - destruct Hex as [_ ->]. simpl.
    by rewrite (totals_insert_same held_total _ _ _ _ Hg) by (unfold held_total; by rewrite Hcar).
  - destruct Hex as [_ ->]. simpl.
    by rewrite (totals_insert_same held_total _ _ _ _ Hg) by (unfold held_total; by rewrite Hcar).
  - subst st'. simpl.
    by rewrite (totals_insert_same held_total _ _ _ _ Hg) by (unfold held_total; by rewrite Hcar).
  - destruct r as [|x]; destruct Hex as (m & _ & ->); simpl;
      by rewrite (totals_insert_same held_total _ _ _ _ Hg) by (unfold held_total; by rewrite Hcar).
  - destruct Hex as [_ ->]. simpl.
    by rewrite (totals_insert_same held_total _ _ _ _ Hg) by (unfold held_total; by rewrite Hcar).
  - destruct Hex as (ch & [_ ->]%make_chan_Some & ->). simpl.
    destruct (Hcar (length (chans st)) (length (wgs st))) as [Hsame Hnew].
    rewrite !fmap_app, !totals_app. simpl.
    rewrite (totals_insert_same held_total _ _ _ _ Hg) by (unfold held_total; by rewrite Hsame).
    rewrite (totals_nil held_total _ Hnew).
    change (totals [chan_total (Chan [] false (Z.to_nat size))]) with (plus None None).
    by rewrite !plus_None_r.
Qed.

Lemma weight_handoff i bi j bj st st' :
  handoff combiner i bi j bj st = Some st' → weight st' = weight st.
Proof using combiner_assoc combiner_comm.
  intros (gi & gj & c & v & ks & kr & ch & Hgi & Hgj & Hoi & Hoj & Hij & _ & _ & _ & ->)
    %handoff_inv.
  pose proof (next_carrying _ _ _ _ Hoi) as Hsend.
  pose proof (next_carrying _ _ _ _ Hoj) as [_ Hrecv]. simpl in *.
  unfold weight. simpl. f_equal.
  destruct (totals_extract held_total _ _ _ Hgi) as (R1 & -> & Hins1).
  assert (<[i := ks]> (pool st) !! j = Some gj) as Hgj'
    by (by rewrite list_lookup_insert_ne).
  destruct (totals_extract held_total _ _ _ Hgj') as (R2 & Hmid & ->).
  rewrite Hins1 in Hmid. unfold held_total in *. simpl. rewrite Hrecv, Hsend.
  rewrite <- (plus_assoc (Some v)), Hmid.
  by rewrite plus_assoc, (plus_comm (Some v)).
Qed.

Lemma weight_alloc st st0 g size :
  chans st0 = chans st → pool st0 = pool st → held_total g = None →
  weight (spawn g (with_chans (chans st0 ++ [Chan [] false size]) st0)) = weight st.
Proof using combiner_assoc.
  intros Hc Hp Hg. unfold weight. simpl. rewrite Hc, Hp, !fmap_app, !totals_app. simpl.
  rewrite Hg.
  change (totals [chan_total (Chan [] false size)]) with (plus None None).
  change (totals [None]) with (plus None None). by rewrite !plus_None_r.
Qed.

Lemma weight_Add out st st' : Add out st = Some st' → weight st' = weight st.
Proof using combiner_assoc.
  intros Hadd.
  eapply (Add_preserves (λ st1, weight st1 = weight st) (λ _ st1, weight st1 = weight st)
            (λ _, True)); [..|exact Hadd]; try done.
  - intros st1 src ch <- _ [_ ->]%make_chan_Some. by apply weight_alloc.
  - intros st1 root level prev ch <- _ [_ ->]%make_chan_Some.
    destruct (ordered (tr st1));
      by apply (weight_alloc st1
                  (with_tr (with_roots (<[level := None]> (roots (tr st1))) (tr st1)) st1)).
  - intros st1 st2 <- (_ & ->)%updateCollectors_Some. unfold weight. simpl.
    rewrite fmap_app, totals_app. rewrite (totals_nil held_total (new_collectors _)).
    + by rewrite plus_None_r.
    + unfold new_collectors. apply Forall_fmap. by apply Forall_true.
  - by apply Forall_true.
Qed.

Lemma weight_Finish_resume st st' err :
  Finish_resume combiner st = Some (st', err) → weight st' = weight st.
Proof using combiner_assoc combiner_comm.
  unfold Finish_resume. destruct (wg (tr st)); [|done]. intros Hres.
  assert (∃ ch ch', chans st !! output (tr st) = Some ch ∧
                    chan_total ch' = chan_total ch ∧
                    st' = with_chans (<[output (tr st) := ch']> (chans st))
                            (if waitForAll (tr st) then cancel st else st))
    as (ch & ch' & Hch & Htot & ->).
  { destruct (waitForAll (tr st)); simpl in Hres.
    - apply bind_Some in Hres as (ch & Hch & Hres).
      apply bind_Some in Hres as (ch1 & Hfold & Hres).
      apply bind_Some in Hres as (ch2 & (_ & ->)%chan_close_Some & [= <- <-]).
      exists ch, (Chan (buf ch1) true (cap ch1)). split; [done|]. split; [|done].
      unfold chan_total. simpl.
      destruct (buf ch) as [|final buffered] eqn:Hbuf; [by simplify_eq; rewrite Hbuf|].
      apply chan_send_Some in Hfold as (_ & _ & ->). by rewrite total_drain.
    - apply bind_Some in Hres as (ch & Hch & Hres).
      apply bind_Some in Hres as (ch2 & (_ & ->)%chan_close_Some & [= <- <-]).
      by exists ch, (Chan (buf ch) true (cap ch)). }
  unfold weight. f_equal.
  - transitivity (totals (chan_total <$> <[output (tr st) := ch']> (chans st)));
      [by destruct (waitForAll (tr st))|].
    by apply (totals_insert_same chan_total _ _ ch).
  - by destruct (waitForAll (tr st)).
Qed.

(** Conservation: along any run the runtime holds, combined, what it
    held at the start. *)
Lemma weight_run sched (s s' : sys T) :
  run combiner sched s = Some s' → weight (world s') = weight (world s).
Proof using combiner_assoc combiner_comm.
  intros Hrun.
  eapply (run_preserves combiner (λ s1, weight (world s1) = weight (world s)));
    [..|exact Hrun]; simpl; [| | | | |done].
  - intros s1 st' i b g o <- Hg Ho Hex. by eapply weight_exec.
  - intros s1 st' i bi j bj <- Hh. by eapply weight_handoff.
  - intros s1 st' out rest <- _ _ Hadd. by eapply weight_Add.
  - intros s1 rest <- _ _. unfold Finish_enter. by destruct (waitForAll _).
  - intros s1 st' err <- _ Hres. by eapply weight_Finish_resume.
Qed.

(** All the values the caller's channels will carry, source by source. *)
Definition inputs (srcs : list (nat * list T)) : list T := srcs ≫= λ src, src.2.

Lemma weight_boot bufferSize w ord srcs readers p (s : sys T) :
  boot bufferSize w ord srcs readers p = Some s → weight (world s) = total (inputs srcs).
Proof using combiner_assoc.
  unfold boot, New.
  intros (st & (out & [_ ->]%make_chan_Some & [= <-])%bind_Some & [= <-])%bind_Some.
  unfold weight. simpl.
  rewrite (totals_nil chan_total).
  2:{ apply Forall_app. split; [|by repeat constructor].
      unfold source_chans. apply Forall_fmap. by apply Forall_true. }
  rewrite fmap_app, totals_app, (totals_nil held_total (consumers _ _)).
  2:{ unfold consumers. by apply Forall_replicate. }
  rewrite plus_None_r. unfold plus at 1. unfold producers.
  cut (∀ n, totals (held_total <$> imap (λ j src, Producer (n + j) src.2 true) srcs)
            = total (inputs srcs)); [intros H; apply (H 0)|].
  induction srcs as [|src srcs IH]; intros n; [done|].
  change (inputs (src :: srcs)) with (src.2 ++ inputs srcs). rewrite total_app, <- (IH (S n)).
  simpl. unfold held_total at 1. simpl. do 3 f_equal.
  apply imap_ext. intros j x _. simpl. f_equal. lia.
Qed.

(** Conservation: with an associative and commutative combiner, at every
    point of every run, in every mode, the values buffered in the channels
    and held by the goroutines combine to the combination of all the
    values of the caller's streams: the tree neither loses a value nor
    counts one twice. *)
Theorem values_are_conserved bufferSize w ord srcs readers p sched (s s' : sys T) :
  boot bufferSize w ord srcs readers p = Some s →
  run combiner sched s = Some s' →
  weight (world s') = total (inputs srcs).
Proof using combiner_assoc combiner_comm.
  intros Hboot Hrun. rewrite (weight_run _ _ _ Hrun). by eapply weight_boot.
Qed.
End conservation.


(** ** Whole-tree mode over unordered nodes: everything reaches the output *)

Section drainage.
Context {T : Type}.
Variable combiner : T → T → T.
Implicit Types (st : state T) (g k : goroutine T) (gs : list (goroutine T)).

(** A channel that is closed and has been read to its end. *)
Definition drained st (c : nat) : Prop :=
  ∃ ch, chans st !! c = Some ch ∧ closed ch = true ∧ buf ch = [].

(** What a goroutine is and which channels it was started on, whatever
    statement it has reached. *)
Inductive skel :=
| SAdapter (o c : nat) | SCollector (c : nat) | SONode (f s c : nat) | SUNode (f s c : nat)
| SForwarder (src fanIn w : nat) | SCloser (fanIn w : nat)
| SProducer (o : nat) | SConsumer (c : nat).

Definition skel_of g : skel :=
  match g with
  | Adapter o c _ => SAdapter o c
  | Collector c _ => SCollector c
  | ONode f s c _ => SONode f s c
  | UNode f s c _ => SUNode f s c
  | Forwarder src fanIn w _ => SForwarder src fanIn w
  | Closer fanIn w _ => SCloser fanIn w
  | Producer o _ _ => SProducer o
  | Consumer c _ _ => SConsumer c
  end.

(** The channel an adapter or a node writes to and closes. *)
Definition out_of_skel (sk : skel) : option nat :=
  match sk with
  | SAdapter _ c | SONode _ _ c | SUNode _ _ c => Some c
  | _ => None
  end.
Definition out_of g : option nat := out_of_skel (skel_of g).

(** The merge channel of an unordered node, once it has made it. *)
Definition fan_of g : option nat :=
  match g with
  | UNode _ _ _ (URecv1 x) | UNode _ _ _ (URecv2 x _) | UNode _ _ _ (USend x _)
  | UNode _ _ _ (USendLast x _) | UNode _ _ _ (UClose x) | UNode _ _ _ (UExit x) => Some x
  | _ => None
  end.

Definition has gs (sk : skel) : Prop := ∃ j g, gs !! j = Some g ∧ skel_of g = sk.
Definition has_fan gs (x : nat) : Prop := ∃ j g, gs !! j = Some g ∧ fan_of g = Some x.

(** What each goroutine knows when it is past its loop: an adapter and a
    forwarder have read their source to its end, a node its merge
    channel, and a closer has seen the count of its wait group at zero. *)
Definition local st g : Prop :=
  match g with
  | Adapter o _ (AClose | AExit) => drained st o
  | Forwarder src _ _ (FWgDone | FExit) => drained st src
  | Closer _ w (CClose | CExit) => wgs st !! w = Some 0
  | UNode _ _ _ (USendLast x _ | UClose x | UExit x) => drained st x
  | _ => True
  end.

(** A started node has its two forwarders and its closer; a forwarder
    has its closer and its node. *)
Definition family gs g : Prop :=
  match g with
  | UNode f s _ _ =>
      ∀ x, fan_of g = Some x →
           ∃ w, has gs (SForwarder f x w) ∧ has gs (SForwarder s x w) ∧ has gs (SCloser x w)
  | Forwarder _ x w _ => has gs (SCloser x w) ∧ has_fan gs x
  | _ => True
  end.

(** The channel [c] is read by the tree: it sits in the slot table, or
    it is an input of a node made after it, or [addOne] is carrying it. *)
Definition fed (carry : option nat) st (c : nat) : Prop :=
  (∃ level, roots (tr st) !! level = Some (Some c)) ∨
  (∃ f s c', has (pool st) (SUNode f s c') ∧ (c = f ∨ c = s) ∧ c < c') ∨
  carry = Some c.

(** The channel [x] was made by [Add] or by a node. *)
Definition made gs (x : nat) : Prop :=
  (∃ j g, gs !! j = Some g ∧ out_of g = Some x) ∨ has_fan gs x.

(** A collector of the present generation: it will look at the present
    stop signal only, or it has found its root closed. *)
Definition current st g : Prop :=
  match g with
  | Collector _ (KEnter | KSend _) => True
  | Collector _ (KSelect sg) => sg = stop (tr st)
  | Collector c (KWgDone | KExit) => drained st c
  | _ => False
  end.

Definition collected st (c : nat) : Prop :=
  ∃ j g, pool st !! j = Some g ∧ skel_of g = SCollector c ∧ current st g.

Definition unordered_kind g : Prop :=
  match g with ONode _ _ _ _ | Consumer _ _ _ => False | _ => True end.

(** The invariant, while [addOne] carries [carry]: [n] is the number of
    the caller's channels, which is the output channel. *)
Record tidy (carry : option nat) (n : nat) st : Prop := {
  td_live : cancelled (tr st) = false;
  td_mode : ordered (tr st) = false;
  td_out : output (tr st) = n ∧ n < length (chans st);
  td_carry : ∀ c, carry = Some c → c < length (chans st);
  td_slots : ∀ level c, roots (tr st) !! level = Some (Some c) → c < length (chans st);
  td_kinds : ∀ j g, pool st !! j = Some g → unordered_kind g;
  td_local : ∀ j g, pool st !! j = Some g → local st g;
  td_family : ∀ j g, pool st !! j = Some g → family (pool st) g;
  td_fed : ∀ j g c, pool st !! j = Some g → out_of g = Some c → n < c ∧ fed carry st c;
  td_made : ∀ x, n < x → x < length (chans st) → made (pool st) x
}.

(** One state follows another: what is drained stays drained, a count at
    zero stays there, goroutines keep their place and their channels. *)
Record follows st st' : Prop := {
  fw_drained : ∀ c, drained st c → drained st' c;
  fw_wgs : ∀ w, wgs st !! w = Some 0 → wgs st' !! w = Some 0;
  fw_chans : length (chans st) ≤ length (chans st');
  fw_pool : ∀ j g, pool st !! j = Some g →
            ∃ k, pool st' !! j = Some k ∧ skel_of k = skel_of g ∧
                 ∀ x, fan_of g = Some x → fan_of k = Some x
}.

Lemma has_follows st st' sk : follows st st' → has (pool st) sk → has (pool st') sk.
Proof.
  intros Hf (j & g & Hg & <-). destruct (fw_pool _ _ Hf j g Hg) as (k & Hk & Hsk & _).
  by exists j, k.
Qed.

Lemma has_fan_follows st st' x : follows st st' → has_fan (pool st) x → has_fan (pool st') x.
Proof.
  intros Hf (j & g & Hg & Hx). destruct (fw_pool _ _ Hf j g Hg) as (k & Hk & _ & Hfan).
  exists j, k. eauto.
Qed.

Lemma local_follows st st' g : follows st st' → local st g → local st' g.
Proof.
  intros [Hd Hw _ _].
  destruct g as [?src ?c []|?c []|?f ?s ?c []|?f ?s ?c []|?src ?fanIn ?w []|?fanIn ?w []
                 |?src ?vs ?cl|?c ?got ?lv]; simpl; eauto.
Qed.

Lemma family_follows st st' g : follows st st' → family (pool st) g → family (pool st') g.
Proof.
  intros Hf. destruct g as [| | |f s c pc|src x w pc| | |]; simpl; try done.
  - intros Hfam x Hx. destruct (Hfam x Hx) as (w & H1 & H2 & H3).
    exists w. repeat split; by eapply has_follows.
  - intros [H1 H2]. split; [by eapply has_follows|by eapply has_fan_follows].
Qed.

Lemma made_follows st st' x : follows st st' → made (pool st) x → made (pool st') x.
Proof.
  intros Hf [(j & g & Hg & Hx)|Hx]; [left|right; by eapply has_fan_follows].
  destruct (fw_pool _ _ Hf j g Hg) as (k & Hk & Hsk & _).
  exists j, k. split; [done|]. unfold out_of in *. by rewrite Hsk.
Qed.

Lemma current_follows st st' g :
  follows st st' → stop (tr st') = stop (tr st) → current st g → current st' g.
Proof.
  intros [Hd _ _ _] Hstop.
  destruct g as [|c []| | | | | |]; simpl; try done; [congruence|eauto..].
Qed.

(** The continuation [k] of [g] is the same goroutine, further on. *)
Definition keeps st g k : Prop :=
  skel_of k = skel_of g ∧ fan_of k = fan_of g ∧ local st k.

Lemma next_keeps st g b o :
  local st g → next combiner (tr st) g !! b = Some o →
  match o with
  | Recv c k => (∀ v, keeps st g (k (Some v))) ∧ (drained st c → keeps st g (k None))
  | Send _ _ k | Close _ k | StopClosed _ k | Tau k | WgDone _ k => keeps st g k
  | CtxDone k => skel_of k = skel_of g ∧ fan_of k = fan_of g
  | WgWait w k => wgs st !! w = Some 0 → keeps st g k
  | Fork _ _ _ => True
  end.
Proof.
  intros Hl Ho.
  destruct g as [?src ?c []|?c []|?f ?s ?c []|?f ?s ?c []|?src ?fanIn ?w []|?fanIn ?w []
                 |?src [|?v ?rest] []|?c ?got []];
    simpl in Ho; repeat (destruct b as [|b]; simpl in Ho; try done); simplify_eq;
    unfold keeps; simpl in *; try done; try (split; [intros; done|intros; done]).
Qed.

Lemma family_same gs g k :
  skel_of k = skel_of g → fan_of k = fan_of g → family gs g → family gs k.
Proof.
  destruct g, k; simpl; try done.
  - intros [= -> -> ->] Hfan Hfam x Hx. apply Hfam. by rewrite <- Hfan.
  - by intros [= -> -> ->].
Qed.

Lemma fed_follows carry st st' c :
  follows st st' → roots (tr st') = roots (tr st) → fed carry st c → fed carry st' c.
Proof.
  intros Hf Hr [(level & Hl)|[(f & s & c' & Hn & Hc)|Hc]].
  - left. exists level. by rewrite Hr.
  - right. left. exists f, s, c'. split; [by eapply has_follows|done].
  - by right; right.
Qed.

(** What a goroutine of the new state must satisfy. *)
Definition settled carry (n : nat) st k : Prop :=
  unordered_kind k ∧ local st k ∧ family (pool st) k ∧
  ∀ c, out_of k = Some c → n < c ∧ fed carry st c.

Lemma settled_follows carry carry' n st st' j g k :
  tidy carry n st → follows st st' → (∀ c, fed carry st c → fed carry' st' c) →
  pool st !! j = Some g → skel_of k = skel_of g → fan_of k = fan_of g → local st k →
  settled carry' n st' k.
Proof.
  intros Ht Hf Hfd Hg Hsk Hfan Hl. split; [|split; [|split]].
  - pose proof (td_kinds _ _ _ Ht j g Hg). by destruct g, k.
  - by eapply local_follows.
  - eapply family_follows; [done|]. eapply family_same; [done..|]. by eapply td_family.
  - intros c Hc. unfold out_of in Hc. rewrite Hsk in Hc.
    destruct (td_fed _ _ _ Ht j g c Hg Hc) as [Hn Hfed]. split; [done|]. by apply Hfd.
Qed.

Lemma tidy_step carry carry' n st st' :
  tidy carry n st → follows st st' →
  cancelled (tr st') = cancelled (tr st) →
  ordered (tr st') = ordered (tr st) → output (tr st') = output (tr st) →
  (∀ c, carry' = Some c → c < length (chans st')) →
  (∀ level c, roots (tr st') !! level = Some (Some c) → c < length (chans st')) →
  (∀ j k, pool st' !! j = Some k → settled carry' n st' k) →
  (∀ x, length (chans st) ≤ x → x < length (chans st') → made (pool st') x) →
  tidy carry' n st'.
Proof.
  intros Ht Hf Hc Ho Hout Hcarry' Hslots' Hpool Hnew.
  pose proof (fw_chans _ _ Hf) as Hlen.
  destruct Ht as [Hlive Hmode [Hn Hnl] Hcarry Hslots Hkinds Hlocal Hfam Hfed Hmade].
  split; try done.
  - congruence.
  - congruence.
  - split; [congruence|lia].
  - intros j k Hk. by destruct (Hpool j k Hk) as (? & _).
  - intros j k Hk. by destruct (Hpool j k Hk) as (_ & ? & _).
  - intros j k Hk. by destruct (Hpool j k Hk) as (_ & _ & ? & _).
  - intros j k c Hk Hkc. destruct (Hpool j k Hk) as (_ & _ & _ & H). by apply H.
  - intros x Hx Hx'. destruct (decide (x < length (chans st))) as [Hold|Hnewx].
    + eapply made_follows; [done|]. by apply Hmade.
    + apply Hnew; [lia|done].
Qed.

(** The same, for a step that leaves the slot table alone. *)
Lemma tidy_step_same carry n st st' :
  tidy carry n st → follows st st' →
  roots (tr st') = roots (tr st) → cancelled (tr st') = cancelled (tr st) →
  ordered (tr st') = ordered (tr st) → output (tr st') = output (tr st) →
  (∀ j k, pool st' !! j = Some k → settled carry n st' k) →
  (∀ x, length (chans st) ≤ x → x < length (chans st') → made (pool st') x) →
  tidy carry n st'.
Proof.
  intros Ht Hf Hr Hc Ho Hout Hpool Hnew. pose proof (fw_chans _ _ Hf) as Hlen.
  apply (tidy_step carry carry n st st'); try done.
  - intros c Hcc. pose proof (td_carry _ _ _ Ht c Hcc). lia.
  - intros level c. rewrite Hr. intros Hl. pose proof (td_slots _ _ _ Ht level c Hl). lia.
Qed.

(** The states reached by replacing goroutine [i] and starting others. *)
Lemma follows_update st st' i g k extra :
  pool st !! i = Some g → skel_of k = skel_of g →
  (∀ x, fan_of g = Some x → fan_of k = Some x) →
  pool st' = <[i := k]> (pool st) ++ extra →
  (∀ c, drained st c → drained st' c) →
  (∀ w, wgs st !! w = Some 0 → wgs st' !! w = Some 0) →
  length (chans st) ≤ length (chans st') →
  follows st st'.
Proof.
  intros Hg Hsk Hfan Hpool Hd Hw Hlen. split; try done.
  intros j g' Hj. rewrite Hpool.
  assert (j < length (<[i := k]> (pool st))) as Hlt
    by (rewrite length_insert; by eapply lookup_lt_Some).
  rewrite lookup_app_l by done.
  destruct (decide (i = j)) as [->|Hne].
  - rewrite list_lookup_insert_eq by (by eapply lookup_lt_Some).
    exists k. by simplify_eq.
  - rewrite list_lookup_insert_ne by done. by exists g'.
Qed.

Lemma drained_set st st' c ch ch' :
  chans st !! c = Some ch → chans st' = <[c := ch']> (chans st) →
  (closed ch = true → buf ch = [] → ch' = ch) →
  ∀ x, drained st x → drained st' x.
Proof.
  intros Hc Hset Hsame x (ch0 & Hx & Hcl & Hb). unfold drained. rewrite Hset.
  destruct (decide (c = x)) as [->|Hne].
  - simplify_eq. rewrite list_lookup_insert_eq by (by eapply lookup_lt_Some).
    rewrite Hsame by done. eauto.
  - rewrite list_lookup_insert_ne by done. eauto.
Qed.

Lemma tidy_update carry n st st' i g k :
  tidy carry n st → pool st !! i = Some g → keeps st g k →
  pool st' = <[i := k]> (pool st) →
  (∀ c, drained st c → drained st' c) →
  (∀ w, wgs st !! w = Some 0 → wgs st' !! w = Some 0) →
  length (chans st') = length (chans st) →
  roots (tr st') = roots (tr st) → cancelled (tr st') = cancelled (tr st) →
  ordered (tr st') = ordered (tr st) → output (tr st') = output (tr st) →
  tidy carry n st'.
Proof.
  intros Ht Hg (Hsk & Hfan & Hl) Hpool Hd Hw Hlen Hr Hc Ho Hout.
  assert (follows st st') as Hf.
  { eapply (follows_update st st' i g k []); try done.
    - intros x. by rewrite Hfan.
    - by rewrite app_nil_r.
    - lia. }
  apply (tidy_step_same carry n st st'); try done; [|intros; lia].
  intros j k' Hj. rewrite Hpool in Hj.
  destruct (decide (i = j)) as [->|Hne].
  - rewrite list_lookup_insert_eq in Hj by (by eapply lookup_lt_Some). simplify_eq.
    eapply settled_follows; try done. intros c. by apply fed_follows.
  - rewrite list_lookup_insert_ne in Hj by done.
    eapply (settled_follows carry carry n st st' j k' k'); try done;
      [intros c; by apply fed_follows|by eapply td_local].
Qed.

Lemma wgs_zero_set (ws : list nat) w m :
  ws !! w = Some (S m) → ∀ w', ws !! w' = Some 0 → <[w := m]> ws !! w' = Some 0.
Proof.
  intros Hw w' Hw'. destruct (decide (w = w')) as [->|Hne]; [congruence|].
  by rewrite list_lookup_insert_ne.
Qed.

Lemma tidy_exec n i b g o st st' :
  tidy None n st → pool st !! i = Some g →
  next combiner (tr st) g !! b = Some o → exec i o st = Some st' →
  tidy None n st'.
Proof.
  intros Ht Hg Ho Hex.
  pose proof (next_keeps st g b o (td_local _ _ _ Ht i g Hg) Ho) as Hk.
  apply exec_inv in Hex.
  destruct o as [c k|c v k|c k|sg k|k|k|r k|r k|size m k]; simpl in *.
  - destruct Hex as (ch & r & ch' & Hch & Hrecv & ->). destruct Hk as [Hsome Hnone].
    apply chan_recv_Some in Hrecv as [(v & rest & Hb & -> & ->)|(Hb & Hcl & -> & ->)].
    + eapply (tidy_update _ n st _ i g (k (Some v))); try done; simpl;
        [|by rewrite length_insert].
      eapply drained_set; [done..|]. intros _ Hnil. by rewrite Hb in Hnil.
    + eapply (tidy_update _ n st _ i g (k None)); try done; simpl;
        [| |by rewrite length_insert].
      * apply Hnone. by exists ch.
      * by eapply drained_set.
  - destruct Hex as (ch & ch' & Hch & (Hcl & Hlen & ->)%chan_send_Some & ->).
    eapply (tidy_update _ n st _ i g); try done; simpl; [|by rewrite length_insert].
    eapply drained_set; [done..|]. intros Hcl'. congruence.
  - destruct Hex as (ch & ch' & Hch & (Hcl & ->)%chan_close_Some & ->).
    eapply (tidy_update _ n st _ i g); try done; simpl; [|by rewrite length_insert].
    eapply drained_set; [done..|]. intros Hcl'. congruence.
  - destruct Hex as [_ ->]. by eapply (tidy_update _ n st _ i g).
  - destruct Hex as [Hc _]. rewrite (td_live _ _ _ Ht) in Hc. done.
  - subst st'. by eapply (tidy_update _ n st _ i g).
  - destruct r as [|w]; destruct Hex as (m & Hm & ->).
    + by eapply (tidy_update _ n st _ i g).
    + eapply (tidy_update _ n st _ i g); try done. simpl. by apply wgs_zero_set.
  - destruct Hex as [Hz ->]. eapply (tidy_update _ n st _ i g); try done. by apply Hk.
  - destruct Hex as (ch & Hmk & ->).
    destruct (next_Fork _ _ _ _ _ _ _ Ho) as (_ & _ & f & s & c & -> & _ & ->). simpl.
    set (x := length (chans st)). set (w := length (wgs st)).
    set (st' := with_pool _ _).
    assert (length (<[i := UNode f s c (URecv1 x)]> (pool st)) = length (pool st)) as Hlen
      by apply length_insert.
    assert (i < length (pool st)) as Hi by (by eapply lookup_lt_Some).
    assert (pool st' !! i = Some (UNode f s c (URecv1 x))) as Hnode.
    { simpl. rewrite lookup_app_l by lia. by rewrite list_lookup_insert_eq. }
    assert (∀ d g', [Forwarder f x w FRecv; Forwarder s x w FRecv; Closer x w CWait] !! d
                    = Some g' → pool st' !! (length (pool st) + d) = Some g') as Hextra.
    { intros d g' Hd. simpl. rewrite lookup_app_r by lia.
      by replace (length (pool st) + d - length (<[i := UNode f s c (URecv1 x)]> (pool st)))
        with d by lia. }
    assert (follows st st') as Hf.
    { eapply (follows_update st st' i (UNode f s c UStart) (UNode f s c (URecv1 x))
                [Forwarder f x w FRecv; Forwarder s x w FRecv; Closer x w CWait]);
        try done; simpl.
      - intros c0 (ch0 & Hc0 & Hcl). exists ch0. split; [|done].
        by apply lookup_app_l_Some.
      - intros w0 Hw0. by apply lookup_app_l_Some.
      - rewrite length_app. lia. }
    apply (tidy_step_same None n st st'); try done.
    + intros j k' Hj.
      destruct (decide (j < length (pool st))) as [Hold|Hnew].
      * simpl in Hj. rewrite lookup_app_l in Hj by lia.
        destruct (decide (i = j)) as [->|Hne].
        -- rewrite list_lookup_insert_eq in Hj by done. simplify_eq.
           split; [done|]. split; [done|]. split.
           ++ intros x' [= <-]. exists w.
              split; [|split].
              ** exists (length (pool st) + 0), (Forwarder f x w FRecv).
                 split; [by apply Hextra|done].
              ** exists (length (pool st) + 1), (Forwarder s x w FRecv).
                 split; [by apply Hextra|done].
              ** exists (length (pool st) + 2), (Closer x w CWait).
                 split; [by apply Hextra|done].
           ++ intros c' Hc'.
              destruct (td_fed _ _ _ Ht j (UNode f s c UStart) c' Hg Hc') as [Hn Hfed].
              split; [done|]. by eapply fed_follows.
        -- rewrite list_lookup_insert_ne in Hj by done.
           eapply (settled_follows None None n st st' j k' k'); try done;
             [intros c0; by apply fed_follows|by eapply td_local].
      * simpl in Hj. rewrite lookup_app_r in Hj by lia. rewrite Hlen in Hj.
        assert (has (pool st') (SCloser x w)) as Hcloser.
        { exists (length (pool st) + 2), (Closer x w CWait). split; [by apply Hextra|done]. }
        assert (has_fan (pool st') x) as Hfan.
        { exists i, (UNode f s c (URecv1 x)). split; [exact Hnode|done]. }
        destruct (j - length (pool st)) as [|[|[|d]]]; simplify_eq/=; by repeat split.
    + intros x' Hx' Hx''. simpl in Hx''. rewrite length_app in Hx''. simpl in Hx''.
      assert (x' = x) as -> by (unfold x; lia).
      right. exists i, (UNode f s c (URecv1 x)). split; [exact Hnode|done].
Qed.

Lemma tidy_handoff n i bi j bj st st' :
  tidy None n st → handoff combiner i bi j bj st = Some st' → tidy None n st'.
Proof.
  intros Ht (gi & gj & c & v & ks & kr & ch & Hgi & Hgj & Hoi & Hoj & Hij & _ & _ & _ & ->)
    %handoff_inv.
  pose proof (next_keeps st gi bi _ (td_local _ _ _ Ht i gi Hgi) Hoi) as Hsend.
  pose proof (next_keeps st gj bj _ (td_local _ _ _ Ht j gj Hgj) Hoj) as [Hrecv _].
  simpl in *.
  assert (tidy None n (with_pool (<[i := ks]> (pool st)) st)) as Ht1
    by (by eapply (tidy_update None n st _ i gi ks)).
  eapply (tidy_update None n _ _ j gj (kr (Some v)) Ht1); try done.
  - simpl. by rewrite list_lookup_insert_ne.
  - apply Hrecv.
Qed.

(** States that only grow: new channels and new goroutines at the end. *)
Lemma follows_extend st st' more extra :
  chans st' = chans st ++ more → pool st' = pool st ++ extra → wgs st' = wgs st →
  follows st st'.
Proof.
  intros Hc Hp Hw. split.
  - intros c (ch & Hch & Hcl). exists ch. rewrite Hc. split; [by apply lookup_app_l_Some|done].
  - intros w. by rewrite Hw.
  - rewrite Hc, length_app. lia.
  - intros j g Hg. exists g. rewrite Hp. split; [by apply lookup_app_l_Some|done].
Qed.

(** A goroutine that was there before a growing step. *)
Lemma settled_old carry carry' n st st' j g :
  tidy carry n st → follows st st' → (∀ c, fed carry st c → fed carry' st' c) →
  pool st !! j = Some g → settled carry' n st' g.
Proof.
  intros Ht Hf Hfd Hg.
  eapply (settled_follows carry carry' n st st' j g g); try done. by eapply td_local.
Qed.

Lemma tidy_leaf n st (src : nat) ch :
  tidy None n st → make_chan (bufSize (tr st)) = Some ch →
  tidy (Some (length (chans st))) n
       (spawn (Adapter src (length (chans st)) ASelect) (with_chans (chans st ++ [ch]) st)).
Proof.
  intros Ht _. set (c := length (chans st)). set (st' := spawn _ _).
  assert (follows st st') as Hf by (by eapply (follows_extend st st' [ch] [_])).
  assert (∀ c0, fed None st c0 → fed (Some c) st' c0) as Hfd.
  { intros c0 [Hl|[(f & s & c' & Hn & Hc)|Hc]]; [by left| |done].
    right. left. exists f, s, c'. split; [by eapply has_follows|done]. }
  destruct (td_out _ _ _ Ht) as [Hout Hn].
  apply (tidy_step None (Some c) n st st'); try done; simpl.
  - intros c0 [= <-]. rewrite length_app. simpl. unfold c. lia.
  - intros level c0 Hl. pose proof (td_slots _ _ _ Ht level c0 Hl). rewrite length_app. lia.
  - intros j k Hj. destruct (decide (j < length (pool st))) as [Hold|Hnew].
    + rewrite lookup_app_l in Hj by done. by eapply settled_old.
    + rewrite lookup_app_r in Hj by lia.
      destruct (j - length (pool st)) as [|d]; simplify_eq/=.
      split; [done|]. split; [done|]. split; [done|].
      intros c0 [= <-]. split; [unfold c; lia|]. by right; right.
  - intros x Hx Hx'. rewrite length_app in Hx'. simpl in Hx'.
    assert (x = c) as -> by (unfold c; lia).
    left. exists (length (pool st)), (Adapter src c ASelect). split; [|done].
    rewrite lookup_app_r by lia. by rewrite Nat.sub_diag.
Qed.

Lemma tidy_grow n st root level :
  tidy (Some root) n st →
  tidy (Some root) n (with_tr (with_roots (extend level (roots (tr st))) (tr st)) st).
Proof.
  intros Ht. set (st' := with_tr _ st).
  assert (follows st st') as Hf.
  { eapply (follows_extend st st' [] []); simpl; by rewrite ?app_nil_r. }
  assert (∀ l c, roots (tr st') !! l = Some (Some c) → roots (tr st) !! l = Some (Some c))
    as Hsame.
  { intros l c. simpl. destruct (extend_lookup (roots (tr st)) level l) as [-> | ->]; done. }
  apply (tidy_step (Some root) (Some root) n st st'); try done.
  - apply (td_carry _ _ _ Ht).
  - intros l c Hl. apply (td_slots _ _ _ Ht l c). by apply Hsame.
  - intros j k Hj. eapply (settled_old (Some root) (Some root) n st st' j k); try done.
    intros c [(l & Hl)|[Hc|Hc]]; [left|by right; left|by right; right].
    exists l. simpl. unfold extend. by apply lookup_app_l_Some.
  - simpl. intros; lia.
Qed.

Lemma tidy_store n st root level :
  tidy (Some root) n st → roots (tr st) !! level = Some None →
  tidy None n (with_tr (with_roots (<[level := Some root]> (roots (tr st))) (tr st)) st).
Proof.
  intros Ht Hslot. set (st' := with_tr _ st).
  assert (level < length (roots (tr st))) as Hlevel by (by eapply lookup_lt_Some).
  assert (follows st st') as Hf.
  { eapply (follows_extend st st' [] []); simpl; by rewrite ?app_nil_r. }
  apply (tidy_step (Some root) None n st st'); try done.
  - intros l c. simpl. destruct (decide (level = l)) as [->|Hne].
    + rewrite list_lookup_insert_eq by done. intros [= <-]. by apply (td_carry _ _ _ Ht).
    + rewrite list_lookup_insert_ne by done. apply (td_slots _ _ _ Ht).
  - intros j k Hj. eapply (settled_old (Some root) None n st st' j k); try done.
    intros c [(l & Hl)|[Hc|[= <-]]]; [left|by right; left|left].
    + exists l. simpl. rewrite list_lookup_insert_ne; [done|]. intros ->. congruence.
    + exists level. simpl. by rewrite list_lookup_insert_eq.
  - simpl. intros; lia.
Qed.

Lemma tidy_pair n st root level prev ch :
  tidy (Some root) n st → roots (tr st) !! level = Some (Some prev) →
  make_chan (bufSize (tr st)) = Some ch →
  tidy (Some (length (chans st))) n
       (spawn (if ordered (tr st)
               then ONode prev root (length (chans st)) ORecv1
               else UNode prev root (length (chans st)) UStart)
          (with_chans (chans st ++ [ch])
             (with_tr (with_roots (<[level := None]> (roots (tr st))) (tr st)) st))).
Proof.
  intros Ht Hslot _. rewrite (td_mode _ _ _ Ht).
  set (c := length (chans st)). set (st' := spawn _ _).
  assert (follows st st') as Hf by (by eapply (follows_extend st st' [ch] [_])).
  destruct (td_out _ _ _ Ht) as [Hout Hn].
  pose proof (td_slots _ _ _ Ht level prev Hslot) as Hprev.
  pose proof (td_carry _ _ _ Ht root eq_refl) as Hroot.
  assert (pool st' !! length (pool st) = Some (UNode prev root c UStart)) as Hnode.
  { simpl. rewrite lookup_app_r by lia. by rewrite Nat.sub_diag. }
  assert (has (pool st') (SUNode prev root c)) as Hhas by (by eexists _, _).
  apply (tidy_step (Some root) (Some c) n st st'); try done; simpl.
  - intros c0 [= <-]. rewrite length_app. simpl. unfold c. lia.
  - intros l c0. destruct (decide (level = l)) as [->|Hne].
    + rewrite list_lookup_insert_eq by (by eapply lookup_lt_Some). done.
    + rewrite list_lookup_insert_ne by done. intros Hl.
      pose proof (td_slots _ _ _ Ht l c0 Hl). rewrite length_app. lia.
  - intros j k Hj. destruct (decide (j < length (pool st))) as [Hold|Hnew].
    + rewrite lookup_app_l in Hj by done.
      eapply (settled_old (Some root) (Some c) n st st' j k); try done.
      intros c0 [(l & Hl)|[(f & s & c' & Hh & Hc)|[= <-]]].
      * destruct (decide (level = l)) as [->|Hne].
        -- right. left. exists prev, root, c. split; [done|]. simplify_eq. split; [by left|done].
        -- left. exists l. simpl. by rewrite list_lookup_insert_ne.
      * right. left. exists f, s, c'. split; [by eapply has_follows|done].
      * right. left. exists prev, root, c. split; [done|]. split; [by right|done].
    + assert (j = length (pool st)) as ->.
      { apply lookup_lt_Some in Hj. rewrite length_app in Hj. simpl in Hj. lia. }
      rewrite lookup_app_r in Hj by lia. rewrite Nat.sub_diag in Hj. simplify_eq/=. split; [done|]. split; [done|]. split; [done|].
      intros c0 [= <-]. split; [unfold c; lia|]. by right; right.
  - intros x Hx Hx'. rewrite length_app in Hx'. simpl in Hx'.
    assert (x = c) as -> by (unfold c; lia).
    left. by exists (length (pool st)), (UNode prev root c UStart).
Qed.

Lemma tidy_collect n st st' :
  tidy None n st → updateCollectors st = Some st' → tidy None n st'.
Proof.
  intros Ht (_ & ->)%updateCollectors_Some. set (st' := State _ _ _ _ _).
  assert (follows st st') as Hf.
  { eapply (follows_extend st st' [] (new_collectors (roots (tr st)))); simpl;
      by rewrite ?app_nil_r. }
  apply (tidy_step_same None n st st'); try done; [|simpl; intros; lia].
  intros j k Hj. simpl in Hj. destruct (decide (j < length (pool st))) as [Hold|Hnew].
  - rewrite lookup_app_l in Hj by done.
    eapply (settled_old None None n st st' j k); try done. intros c. by apply fed_follows.
  - rewrite lookup_app_r in Hj by lia. unfold new_collectors in Hj.
    apply list_lookup_fmap_Some in Hj as (c & -> & _).
    split; [done|]. split; [done|]. split; [done|]. by intros c0.
Qed.

Lemma tidy_Add n out st st' : tidy None n st → Add out st = Some st' → tidy None n st'.
Proof.
  intros Ht Hadd.
  eapply (Add_preserves (tidy None n) (λ root, tidy (Some root) n) (λ _, True));
    [..|exact Ht| |exact Hadd].
  - intros st1 src ch Ht1 _ Hmk. by apply tidy_leaf.
  - intros st1 root level. apply tidy_grow.
  - intros st1 root level. apply tidy_store.
  - intros st1 root level prev ch. apply tidy_pair.
  - apply tidy_collect.
  - by apply Forall_true.
Qed.

(** Every step leads to a state that follows. *)
Lemma next_skel t g b o :
  next combiner t g !! b = Some o →
  match o with
  | Recv _ k => ∀ r, skel_of (k r) = skel_of g ∧ ∀ x, fan_of g = Some x → fan_of (k r) = Some x
  | Send _ _ k | Close _ k | StopClosed _ k | CtxDone k | Tau k | WgDone _ k | WgWait _ k =>
      skel_of k = skel_of g ∧ ∀ x, fan_of g = Some x → fan_of k = Some x
  | Fork _ _ k => ∀ x w, skel_of (k x w).2 = skel_of g ∧ fan_of g = None
  end.
Proof.
  intros Ho.
  destruct g as [?src ?c []|?c []|?f ?s ?c []|?f ?s ?c []|?src ?fanIn ?w []|?fanIn ?w []
                 |?src [|?v ?rest] []|?c ?got []];
    simpl in Ho; repeat (destruct b as [|b]; simpl in Ho; try done); simplify_eq; simpl;
    try done; try (by intros []).
Qed.

Lemma drained_exec i b g o st st' :
  next combiner (tr st) g !! b = Some o → exec i o st = Some st' →
  ∀ c, drained st c → drained st' c.
Proof.
  intros Ho Hex. apply exec_inv in Hex.
  destruct o as [c k|c v k|c k|sg k|k|k|r k|r k|size m k]; simpl in *.
  - destruct Hex as (ch & r & ch' & Hch & Hrecv & ->).
    eapply drained_set; [done..|]. intros Hcl Hb.
    apply chan_recv_Some in Hrecv as [(v & rest & Hb' & _)|(_ & _ & _ & ->)]; [|done].
    by rewrite Hb in Hb'.
  - destruct Hex as (ch & ch' & Hch & (Hcl & Hlen & ->)%chan_send_Some & ->).
    eapply drained_set; [done..|]. intros Hcl'. congruence.
  - destruct Hex as (ch & ch' & Hch & (Hcl & ->)%chan_close_Some & ->).
    eapply drained_set; [done..|]. intros Hcl'. congruence.
  - by destruct Hex as [_ ->].
  - by destruct Hex as [_ ->].
  - by subst.
  - by destruct r; destruct Hex as (? & _ & ->).
  - by destruct Hex as [_ ->].
  - destruct Hex as (ch & _ & ->). intros c (ch0 & Hc & Hcl). exists ch0.
    split; [by apply lookup_app_l_Some|done].
Qed.

Lemma pool_exec i b g o st st' :
  pool st !! i = Some g → next combiner (tr st) g !! b = Some o → exec i o st = Some st' →
  ∃ k extra, pool st' = <[i := k]> (pool st) ++ extra ∧ skel_of k = skel_of g ∧
             (∀ x, fan_of g = Some x → fan_of k = Some x) ∧
             match o with
             | Recv c k' => ∃ ch r, chans st !! c = Some ch ∧ k = k' r ∧
                                    (r = None → closed ch = true ∧ buf ch = [])
             | Send _ _ k' | Close _ k' | Tau k' | WgDone _ k' | WgWait _ k' | CtxDone k' =>
                 k = k'
             | StopClosed sg k' => k = k' ∧ sigs st !! sg = Some true
             | Fork _ _ _ => True
             end.
Proof.
  intros Hg Ho Hex. pose proof (next_skel _ _ _ _ Ho) as Hsk. apply exec_inv in Hex.
  destruct o as [c k|c v k|c k|sg k|k|k|r k|r k|size m k]; simpl in *.
  - destruct Hex as (ch & r & ch' & Hch & Hrecv & ->). destruct (Hsk r) as [? ?].
    exists (k r), []. rewrite app_nil_r. repeat split; try done. exists ch, r.
    split; [done|]. split; [done|]. intros ->.
    by apply chan_recv_Some in Hrecv as [(? & ? & ? & ? & _)|(? & ? & _)].
  - destruct Hex as (ch & ch' & Hch & _ & ->). destruct Hsk.
    exists k, []. by rewrite app_nil_r.
  - destruct Hex as (ch & ch' & Hch & _ & ->). destruct Hsk.
    exists k, []. by rewrite app_nil_r.
  - destruct Hex as [? ->]. destruct Hsk. exists k, []. by rewrite app_nil_r.
  - destruct Hex as [? ->]. destruct Hsk. exists k, []. by rewrite app_nil_r.
  - subst. destruct Hsk. exists k, []. by rewrite app_nil_r.
  - destruct Hsk. destruct r; destruct Hex as (? & _ & ->); exists k, [];
      by rewrite app_nil_r.
  - destruct Hex as [? ->]. destruct Hsk. exists k, []. by rewrite app_nil_r.
  - destruct Hex as (ch & _ & ->).
    destruct (Hsk (length (chans st)) (length (wgs st))) as [? Hnone].
    eexists _, _. split; [reflexivity|]. split; [done|]. split; [|done].
    intros x. by rewrite Hnone.
Qed.

Lemma follows_exec i b g o st st' :
  pool st !! i = Some g → next combiner (tr st) g !! b = Some o → exec i o st = Some st' →
  follows st st'.
Proof.
  intros Hg Ho Hex.
  destruct (pool_exec _ _ _ _ _ _ Hg Ho Hex) as (k & extra & Hpool & Hsk & Hfan & _).
  eapply (follows_update st st' i g k extra); try done.
  - by eapply drained_exec.
  - apply exec_inv in Hex.
    destruct o as [c k'|c v k'|c k'|sg k'|k'|k'|r k'|r k'|size m k']; simpl in *;
      repeat match goal with H : ∃ _, _ |- _ => destruct H end; destruct_and?; subst;
      try done.
    + destruct r; repeat match goal with H : ∃ _, _ |- _ => destruct H end;
        destruct_and?; subst; simpl; [done|]. by apply wgs_zero_set.
    + simpl. intros w' Hw'. by apply lookup_app_l_Some.
  - apply exec_inv in Hex.
    destruct o as [c k'|c v k'|c k'|sg k'|k'|k'|r k'|r k'|size m k']; simpl in *;
      repeat match goal with H : ∃ _, _ |- _ => destruct H end; destruct_and?; subst;
      simpl; rewrite ?length_insert, ?length_app; try lia.
    destruct r; repeat match goal with H : ∃ _, _ |- _ => destruct H end;
      destruct_and?; subst; simpl; lia.
Qed.

Lemma next_current st g b o :
  current st g → next combiner (tr st) g !! b = Some o →
  match o with
  | Recv c k => (∀ v, current st (k (Some v))) ∧ (drained st c → current st (k None))
  | StopClosed sg k => sg = stop (tr st)
  | Send _ _ k | Tau k | WgDone _ k => current st k
  | _ => True
  end.
Proof.
  intros Hc Ho. destruct g as [|c []| | | | | |]; try done;
    simpl in Ho; repeat (destruct b as [|b]; simpl in Ho; try done); simplify_eq; simpl;
    done.
Qed.

Lemma collected_exec i b g o st st' c :
  sigs st !! stop (tr st) = Some false →
  pool st !! i = Some g → next combiner (tr st) g !! b = Some o → exec i o st = Some st' →
  collected st c → collected st' c.
Proof.
  intros Hopen Hg Ho Hex (j & gc & Hj & Hsk & Hcur).
  pose proof (follows_exec _ _ _ _ _ _ Hg Ho Hex) as Hf.
  destruct (exec_frame _ _ _ _ _ _ _ Ho Hex) as (_ & _ & _ & _ & _ & _ & Hstop & _).
  destruct (pool_exec _ _ _ _ _ _ Hg Ho Hex) as (k & extra & Hpool & Hsk' & _ & Hop).
  assert (j < length (<[i := k]> (pool st))) as Hlt
    by (rewrite length_insert; by eapply lookup_lt_Some).
  destruct (decide (i = j)) as [->|Hne].
  - assert (gc = g) as -> by congruence. clear Hj.
    exists j, k. split; [|split; [congruence|]].
    { rewrite Hpool, lookup_app_l by done.
      rewrite list_lookup_insert_eq; [done|by rewrite length_insert in Hlt]. }
    pose proof (next_current _ _ _ _ Hcur Ho) as Hnext.
    assert (∃ c0 pc, g = Collector c0 pc) as (c0 & pc & ->).
    { destruct g; try done. eauto. }
    destruct pc; simpl in Ho; repeat (destruct b as [|b]; simpl in Ho; try done);
      simplify_eq; simpl in *; subst; try (by eapply current_follows).
    + done.
    + destruct Hop as [_ Hsg]. congruence.
    + destruct Hop as (ch & r & Hch & -> & Hnone). destruct Hnext as [Hs Hn].
      eapply current_follows; [done..|]. destruct r as [v|]; [done|].
      apply Hn. exists ch. by destruct Hnone.
    + done.
    + by apply (fw_drained _ _ Hf).
  - exists j, gc. split; [|split; [done|by eapply current_follows]].
    rewrite Hpool, lookup_app_l by done. by rewrite list_lookup_insert_ne.
Qed.

Lemma collected_handoff i bi j bj st st' c :
  handoff combiner i bi j bj st = Some st' → collected st c → collected st' c.
Proof.
  intros (gi & gj & c0 & v & ks & kr & ch & Hgi & Hgj & Hoi & Hoj & Hij & _ & _ & _ & ->)
    %handoff_inv (jc & gc & Hjc & Hsk & Hcur).
  pose proof (next_skel _ _ _ _ Hoi) as [Hski _].
  pose proof (next_skel _ _ _ _ Hoj (Some v)) as [Hskj _].
  assert (i < length (pool st)) as Hi by (by eapply lookup_lt_Some).
  assert (j < length (pool st)) as Hj by (by eapply lookup_lt_Some).
  unfold collected. simpl.
  destruct (decide (jc = j)) as [->|Hnj].
  - assert (gc = gj) as -> by congruence.
    exists j, (kr (Some v)). rewrite list_lookup_insert_eq by (by rewrite length_insert).
    split; [done|]. split; [congruence|].
    exact (proj1 (next_current _ _ _ _ Hcur Hoj) v).
  - destruct (decide (jc = i)) as [->|Hni].
    + assert (gc = gi) as -> by congruence.
      exists i, ks. rewrite list_lookup_insert_ne, list_lookup_insert_eq by done.
      split; [done|]. split; [congruence|]. exact (next_current _ _ _ _ Hcur Hoi).
    + exists jc, gc. by rewrite !list_lookup_insert_ne.
Qed.

(** After [Add] every occupied slot has a collector of the new
    generation. *)
Lemma collected_Add out st st' level c :
  Add out st = Some st' → roots (tr st') !! level = Some (Some c) → collected st' c.
Proof.
  intros (st1 & _ & (_ & ->)%updateCollectors_Some)%bind_Some. simpl. intros Hl.
  assert (c ∈ omap id (roots (tr st1))) as Hin.
  { apply list_elem_of_omap. exists (Some c). split; [|done].
    by eapply list_elem_of_lookup_2. }
  apply list_elem_of_lookup_1 in Hin as (d & Hd).
  exists (length (pool st1) + d), (Collector c KEnter). simpl. split; [|done].
  rewrite lookup_app_r by lia. replace (length (pool st1) + d - length (pool st1)) with d by lia.
  unfold new_collectors. by rewrite list_lookup_fmap, Hd.
Qed.

(** The invariant of a whole-tree run over unordered nodes, as long as
    [Finish] has not returned. *)
Definition neat (n : nat) (s : sys T) : Prop :=
  waitForAll (tr (world s)) = true ∧
  (result s = None →
   tidy None n (world s) ∧
   ∀ level c, roots (tr (world s)) !! level = Some (Some c) → collected (world s) c).

Lemma neat_step n a (s s' : sys T) :
  sys_wf s → neat n s → step combiner a s = Some s' → neat n s'.
Proof.
  intros [Hwf _] [Hmode Hn] Hstep. destruct a as [i b|i bi j bj|]; simpl in Hstep.
  - apply bind_Some in Hstep as (st & Hrun & [= <-]). unfold run_goroutine in Hrun.
    apply bind_Some in Hrun as (g & Hg & Hrun).
    apply bind_Some in Hrun as (o & Ho & Hex).
    destruct (exec_frame _ _ _ _ _ _ _ Ho Hex) as (_ & _ & _ & Hw & _ & Hr & _).
    split; simpl; [congruence|]. intros Hres. destruct (Hn Hres) as [Ht Hcol].
    split; [by eapply tidy_exec|]. intros level c. rewrite Hr. intros Hl.
    eapply collected_exec; [apply (wf_stop _ Hwf)|done..|]. by eapply Hcol.
  - apply bind_Some in Hstep as (st & Hh & [= <-]).
    pose proof Hh as (? & ? & ? & ? & ? & ? & ? & Hinv)%handoff_inv.
    assert (tr st = tr (world s)) as Htr by (by destruct_and!; subst).
    split; simpl; [by rewrite Htr|]. intros Hres. destruct (Hn Hres) as [Ht Hcol].
    split; [by eapply tidy_handoff|]. intros level c. rewrite Htr. intros Hl.
    eapply collected_handoff; [done|]. by eapply Hcol.
  - unfold caller_step in Hstep. destruct (waiting s) eqn:Hwait.
    + apply bind_Some in Hstep as ([st err] & Hres & [= <-]).
      destruct (Finish_resume_frame _ _ _ _ Hres) as (_ & _ & Hw & _).
      split; simpl; [congruence|done].
    + destruct (prog s) as [|[out|] rest] eqn:Hp; [done| |].
      * apply bind_Some in Hstep as (st & Hadd & [= <-]).
        pose proof (Add_frame _ _ _ Hadd) as Hf. unfold same_frame in Hf.
        split; simpl; [by destruct Hf as (_ & _ & _ & -> & _)|].
        intros Hres. destruct (Hn Hres) as [Ht Hcol].
        split; [by eapply tidy_Add|]. intros level c. by eapply collected_Add.
      * injection Hstep as <-. unfold Finish_enter. rewrite Hmode. by split.
Qed.

Lemma neat_run n sched (s s' : sys T) :
  sys_wf s → neat n s → run combiner sched s = Some s' → neat n s'.
Proof.
  revert s. induction sched as [|a sched IH]; intros s Hwf Hn; simpl; [by intros [= <-]|].
  intros (s1 & Hstep & Hrun)%bind_Some.
  eapply (IH s1); [by eapply sys_wf_step|by eapply neat_step|done].
Qed.

Lemma neat_boot bufferSize srcs p (s : sys T) :
  boot bufferSize true false srcs 0 p = Some s → neat (length srcs) s.
Proof.
  unfold boot, New.
  intros (st & (out & _ & [= <-])%bind_Some & [= <-])%bind_Some.
  split; [done|]. intros _. simpl. split.
  - split; simpl; rewrite ?length_app, ?source_chans_length; simpl; try done.
    + split; [done|lia].
    + intros level c Hl. do 20 (destruct level as [|level]; [done|]). done.
    + intros j g. rewrite app_nil_r. unfold producers. rewrite list_lookup_imap.
      by intros (src & _ & ->)%fmap_Some.
    + intros j g. rewrite app_nil_r. unfold producers. rewrite list_lookup_imap.
      by intros (src & _ & ->)%fmap_Some.
    + intros j g. rewrite app_nil_r. unfold producers. rewrite list_lookup_imap.
      by intros (src & _ & ->)%fmap_Some.
    + intros j g c. rewrite app_nil_r. unfold producers. rewrite list_lookup_imap.
      by intros (src & _ & ->)%fmap_Some.
    + intros x. lia.
  - intros level c Hl. do 20 (destruct level as [|level]; [done|]). done.
Qed.
End drainage.


(** ** When the barrier is at zero, everything has reached the output *)

Section settled_tree.
Context {T : Type}.
Variable combiner : T → T → T.
Variable st : state T.
Variable n : nat.
Hypothesis Ht : tidy None n st.
Hypothesis Hcol : ∀ level c, roots (tr st) !! level = Some (Some c) → collected st c.
Hypothesis Hwf : wf st.
Hypothesis Hbar : barriers st.
Hypothesis Hown : owners st.
Hypothesis Hzero : wg (tr st) = 0.
Implicit Types (g : goroutine T).

Lemma owner_done j g c :
  pool st !! j = Some g → c ∈ owned g → drained st c → finished g = true.
Proof using Hown. intros Hg Hc (ch & Hch & Hcl & _). by eapply (own_open _ Hown). Qed.

Lemma root_drained level c : roots (tr st) !! level = Some (Some c) → drained st c.
Proof using Hcol Hbar Hzero.
  intros Hl. destruct (Hcol level c Hl) as (j & g & Hg & Hsk & Hcur).
  destruct g as [|c' pc| | | | | |]; try done. simpl in Hsk. injection Hsk as ->.
  by rewrite (barrier_zero _ Hbar Hzero j c pc Hg) in Hcur.
Qed.

Lemma forwarder_done j g src x w :
  pool st !! j = Some g → skel_of g = SForwarder src x w →
  has (pool st) (SCloser x w) → drained st x →
  g = Forwarder src x w FExit ∧ drained st src.
Proof using Ht Hbar Hown.
  intros Hg Hsk (jc & gc & Hgc & Hskc) Hx.
  destruct gc as [| | | | |x' w' pk| |]; try done. simpl in Hskc. injection Hskc as -> ->.
  assert (pk = CExit) as ->.
  { pose proof (owner_done jc (Closer x w pk) x Hgc) as Hfin. simpl in Hfin.
    destruct pk; try done; discriminate Hfin; (by left) || done. }
  pose proof (td_local _ _ _ Ht jc _ Hgc) as Hw. simpl in Hw.
  destruct Hbar as [_ Hnode]. pose proof (Hnode w 0 Hw) as Hsum. symmetry in Hsum.
  apply sum_list_zero in Hsum. pose proof (Forall_lookup_1 _ _ _ _ Hsum Hg) as Hfw.
  destruct g as [| | | |src' x' w' pc| | |]; try done. simpl in Hsk.
  injection Hsk as -> -> ->. simpl in Hfw.
  destruct pc; try (by rewrite decide_True in Hfw).
  split; [done|]. exact (td_local _ _ _ Ht j _ Hg).
Qed.

Lemma node_drained j g f s c :
  pool st !! j = Some g → skel_of g = SUNode f s c → drained st c →
  ∃ x, g = UNode f s c (UExit x) ∧ drained st x ∧ drained st f ∧ drained st s.
Proof using Ht Hbar Hown.
  intros Hg Hsk Hc. destruct g as [| | |f' s' c' pc| | | |]; try done. simpl in Hsk.
  injection Hsk as -> -> ->.
  pose proof (owner_done j _ c Hg) as Hfin. simpl in Hfin.
  destruct pc as [| | | | | |x]; try (discriminate Hfin; [by left|done]).
  exists x. split; [done|].
  pose proof (td_local _ _ _ Ht j _ Hg) as Hx. simpl in Hx. split; [done|].
  destruct (td_family _ _ _ Ht j _ Hg x eq_refl) as (w & (j1 & g1 & H1 & Hs1) &
    (j2 & g2 & H2 & Hs2) & Hcl).
  split.
  - by destruct (forwarder_done j1 g1 f x w).
  - by destruct (forwarder_done j2 g2 s x w).
Qed.

Lemma out_owned g c : out_of g = Some c → c ∈ owned g.
Proof. destruct g; simpl; intros [= <-]; by left. Qed.

Lemma out_lt j g c : pool st !! j = Some g → out_of g = Some c → c < length (chans st).
Proof using Hwf.
  intros Hg Hc. eapply owned_lt; [|by apply out_owned].
  by eapply Forall_lookup_1; [apply (wf_pool _ Hwf)|].
Qed.

(** Every queue an adapter or a node writes to is drained: from the
    slots of the table down to the leaves. *)
Lemma out_drained j g c : pool st !! j = Some g → out_of g = Some c → drained st c.
Proof using Ht Hcol Hwf Hbar Hown Hzero.
  remember (length (chans st) - c) as m eqn:Hm. revert j g c Hm.
  induction (lt_wf m) as [m _ IH]. intros j g c -> Hg Hc.
  destruct (td_fed _ _ _ Ht j g c Hg Hc) as [_ [(level & Hl)|[(f & s & c' & Hn & Hin & Hlt)|?]]];
    [by eapply root_drained| |done].
  destruct Hn as (j' & g' & Hg' & Hsk').
  assert (out_of g' = Some c') as Hout by (unfold out_of; by rewrite Hsk').
  pose proof (out_lt _ _ _ Hg' Hout) as Hc'.
  assert (drained st c') as Hd.
  { eapply (IH (length (chans st) - c')); [lia|done..]. }
  destruct (node_drained j' g' f s c' Hg' Hsk' Hd) as (x & _ & _ & Hf & Hs).
  by destruct Hin as [-> | ->].
Qed.

Lemma made_drained x : n < x → x < length (chans st) → drained st x.
Proof using Ht Hcol Hwf Hbar Hown Hzero.
  intros Hx Hx'.
  destruct (td_made _ _ _ Ht x Hx Hx') as [(j & g & Hg & Hout)|(j & g & Hg & Hfan)];
    [by eapply out_drained|].
  destruct g as [| | |f s c pc| | | |]; try done.
  assert (drained st c) as Hc by (by eapply (out_drained j (UNode f s c pc))).
  destruct (node_drained j _ f s c Hg eq_refl Hc) as (x' & Heq & Hd & _).
  rewrite Heq in Hfan. simpl in Hfan. by injection Hfan as <-.
Qed.

Lemma source_drained o j c pc : pool st !! j = Some (Adapter o c pc) → drained st o.
Proof using Ht Hcol Hwf Hbar Hown Hzero.
  intros Hg. assert (drained st c) as Hc by (by eapply (out_drained j (Adapter o c pc))).
  pose proof (owner_done j _ c Hg) as Hfin. simpl in Hfin.
  pose proof (td_local _ _ _ Ht j _ Hg) as Hl.
  destruct pc; try (discriminate Hfin; [by left|done]). exact Hl.
Qed.

(** Every source has been given to [Add]. *)
Hypothesis Hadded : ∀ o, o < n → ∃ j c pc, pool st !! j = Some (Adapter o c pc).

Lemma all_drained x : x < length (chans st) → x ≠ n → drained st x.
Proof using Ht Hcol Hwf Hbar Hown Hzero Hadded.
  intros Hx Hne. destruct (decide (x < n)) as [Hsrc|Hmade].
  - destruct (Hadded x Hsrc) as (j & c & pc & Hg). by eapply source_drained.
  - apply made_drained; [lia|done].
Qed.

Lemma owned_not_output j g c : pool st !! j = Some g → c ∈ owned g → c ≠ n.
Proof using Ht Hown.
  intros Hg Hc ->. destruct (td_out _ _ _ Ht) as [Hout _].
  apply (own_output _ Hown). rewrite Hout. apply list_elem_of_bind. exists g.
  split; [done|]. by eapply list_elem_of_lookup_2.
Qed.

Lemma all_quiet j g : pool st !! j = Some g → carrying g = [].
Proof using Ht Hcol Hwf Hbar Hown Hzero Hadded.
  intros Hg.
  assert (∀ c, c ∈ owned g → finished g = true) as Hfin.
  { intros c Hc. eapply (owner_done j g c); [done..|]. apply all_drained.
    - eapply owned_lt; [|done]. by eapply Forall_lookup_1; [apply (wf_pool _ Hwf)|].
    - by eapply owned_not_output. }
  pose proof (td_kinds _ _ _ Ht j g Hg) as Hkind.
  destruct g as [o c pc|c pc| |f s c pc|src x w pc|x w pk|o vs cl|]; try done.
  - specialize (Hfin c). simpl in Hfin. by destruct pc; try (discriminate Hfin; by left).
  - by rewrite (barrier_zero _ Hbar Hzero j c pc Hg).
  - specialize (Hfin c). simpl in Hfin. by destruct pc; try (discriminate Hfin; by left).
  - destruct (td_family _ _ _ Ht j _ Hg) as [Hcl _].
    assert (drained st x) as Hx.
    { destruct Hcl as (jc & gc & Hgc & Hskc).
      destruct gc as [| | | | |x' w' pk| |]; try done. simpl in Hskc.
      injection Hskc as -> ->. apply all_drained.
      - eapply (owned_lt _ _ _ (Closer x w pk)); [|by left].
        by eapply Forall_lookup_1; [apply (wf_pool _ Hwf)|].
      - eapply (owned_not_output jc (Closer x w pk)); [done|by left]. }
    by destruct (forwarder_done j _ src x w Hg eq_refl Hcl Hx) as [[= ->] _].
  - specialize (Hfin o). simpl in Hfin. destruct vs; [done|]. discriminate Hfin. by left.
Qed.
End settled_tree.

Section whole_tree_fold.
Context {T : Type}.
Variable combiner : T → T → T.
Hypothesis combiner_assoc : ∀ x y z, combiner x (combiner y z) = combiner (combiner x y) z.
Hypothesis combiner_comm : ∀ x y, combiner x y = combiner y x.

Lemma folded_total (l : list T) : folded combiner l = option_list (total combiner l).
Proof using combiner_assoc.
  destruct l as [|v l]; [done|].
  rewrite (total_drain combiner combiner_assoc). simpl. by rewrite drain_fold_left.
Qed.

(** With every other channel drained and nothing in any goroutine's
    hands, all there is sits in the output channel. *)
Lemma weight_settled (st : state T) n ch :
  chans st !! n = Some ch →
  (∀ x, x < length (chans st) → x ≠ n → drained st x) →
  (∀ j g, pool st !! j = Some g → carrying g = []) →
  weight combiner st = total combiner (buf ch).
Proof using combiner_assoc combiner_comm.
  intros Hch Hdr Hq. unfold weight.
  rewrite (totals_nil combiner (held_total combiner) (pool st)).
  2:{ apply Forall_lookup. intros j g Hg. unfold held_total. by rewrite (Hq j g Hg). }
  rewrite plus_None_r.
  destruct (totals_extract combiner combiner_assoc combiner_comm (chan_total combiner)
              (chans st) n ch Hch) as (R & -> & Hins).
  specialize (Hins (Chan [] true 0)).
  rewrite (totals_nil combiner) in Hins.
  - assert (R = None) as -> by (symmetry; exact Hins). by rewrite plus_None_r.
  - apply Forall_lookup. intros x c Hx.
    destruct (decide (x = n)) as [->|Hne].
    + rewrite list_lookup_insert_eq in Hx by (by eapply lookup_lt_Some). by simplify_eq.
    + rewrite list_lookup_insert_ne in Hx by done.
      destruct (Hdr x) as (c' & Hc' & _ & Hb); [by eapply lookup_lt_Some|done|].
      simplify_eq. unfold chan_total. by rewrite Hb.
Qed.

(** Whole-tree mode over unordered nodes, with an associative and
    commutative combiner and nobody reading the output channel before
    [Finish]: when [Finish] returns, every source having been given to
    [Add], the output channel is closed and holds the fold of all the
    values of all the sources, and nothing else; nothing at all when the
    sources carried no value. *)
Theorem whole_tree_unordered_fold bufferSize srcs p sched (s s1 s2 : sys T) :
  calls_ok (length srcs) p →
  boot bufferSize true false srcs 0 p = Some s →
  run combiner sched s = Some s1 →
  result s1 = None → waiting s1 = true →
  (∀ o, o < length srcs → ∃ j c pc, pool (world s1) !! j = Some (Adapter o c pc)) →
  step combiner Caller s1 = Some s2 →
  result s2 = Some None ∧
  ∃ ch, chans (world s2) !! Output (world s2) = Some ch ∧ closed ch = true ∧
        buf ch = folded combiner (inputs srcs).
Proof using combiner_assoc combiner_comm.
  intros Hp Hboot Hrun Hres Hwait Hadded Hstep.
  destruct (steady_run combiner _ _ _ (steady_boot _ _ _ _ _ _ _ Hp Hboot) Hrun)
    as ([[Hwf _] Hbar] & Hown & _).
  destruct (neat_run combiner _ _ _ _ (sys_wf_boot _ _ _ _ _ _ _ Hp Hboot)
              (neat_boot _ _ _ _ Hboot) Hrun) as [Hmode Hneat].
  destruct (Hneat Hres) as [Ht Hcol].
  simpl in Hstep. unfold caller_step in Hstep. rewrite Hwait in Hstep.
  apply bind_Some in Hstep as ([st err] & Hfin & [= <-]). simpl.
  pose proof (Finish_resume_err _ _ _ _ Hfin) as ->. split; [done|].
  unfold Finish_resume in Hfin. destruct (wg (tr (world s1))) eqn:Hzero; [|done].
  rewrite Hmode in Hfin. simpl in Hfin.
  apply bind_Some in Hfin as (ch & Hch & Hfin).
  apply bind_Some in Hfin as (ch1 & Hfold & Hfin).
  apply bind_Some in Hfin as (ch2 & (_ & ->)%chan_close_Some & [= <-]).
  destruct (td_out _ _ _ Ht) as [Hout Hn].
  exists (Chan (buf ch1) true (cap ch1)). unfold Output. simpl.
  split; [by rewrite list_lookup_insert_eq by (by eapply lookup_lt_Some)|].
  split; [done|]. simpl.
  assert (weight combiner (world s1) = total combiner (buf ch)) as Hw.
  { apply (weight_settled _ (length srcs)); [by rewrite <- Hout| |].
    - intros x Hx Hne. by eapply (all_drained (world s1) (length srcs)).
    - intros j g Hg. by eapply (all_quiet (world s1) (length srcs)). }
  rewrite (weight_run combiner combiner_assoc combiner_comm _ _ _ Hrun) in Hw.
  rewrite (weight_boot combiner combiner_assoc _ _ _ _ _ _ _ Hboot) in Hw.
  rewrite folded_total, Hw.
  destruct (buf ch) as [|final buffered] eqn:Hbuf.
  - simplify_eq. by rewrite Hbuf.
  - apply chan_send_Some in Hfold as (_ & _ & ->).
    by rewrite (total_drain combiner combiner_assoc).
Qed.
End whole_tree_fold.


(** ** No send on a closed channel *)

Section send_safety.
Context {T : Type}.
Variable combiner : T → T → T.
Implicit Types (st : state T) (g k : goroutine T).

(** A closer past its wait has seen the count at zero; a forwarder has
    the closer of its merge channel beside it. *)
Definition kin st g : Prop :=
  match g with
  | Closer _ w (CClose | CExit) => wgs st !! w = Some 0
  | Forwarder _ x w _ => has (pool st) (SCloser x w)
  | _ => True
  end.

Definition kindred st : Prop := ∀ j g, pool st !! j = Some g → kin st g.

Lemma kin_follows st st' g : follows st st' → kin st g → kin st' g.
Proof.
  intros Hf. destruct g as [| | | |src x w pc|x w []| |]; simpl; try done.
  - by apply has_follows.
  - apply (fw_wgs _ _ Hf).
  - apply (fw_wgs _ _ Hf).
Qed.

Lemma next_kin st g b o :
  kin st g → next combiner (tr st) g !! b = Some o →
  match o with
  | Recv _ k => ∀ r, kin st (k r)
  | WgWait w k => wgs st !! w = Some 0 → kin st k
  | Fork _ _ _ => True
  | Send _ _ k | Close _ k | StopClosed _ k | CtxDone k | Tau k | WgDone _ k => kin st k
  end.
Proof.
  intros Hk Ho.
  destruct g as [?src ?c []|?c []|?f ?s ?c []|?f ?s ?c []|?src ?fanIn ?w []|?fanIn ?w []
                 |?src [|?v ?rest] []|?c ?got []];
    simpl in Ho; repeat (destruct b as [|b]; simpl in Ho; try done); simplify_eq; simpl;
    try done; by intros [].
Qed.

Lemma kindred_update st st' i k :
  kindred st → follows st st' → pool st' = <[i := k]> (pool st) → kin st k → kindred st'.
Proof.
  intros Hk Hf Hpool Hkin j g' Hj. rewrite Hpool in Hj.
  destruct (decide (i = j)) as [->|Hne].
  - apply lookup_lt_Some in Hj as Hlt. rewrite length_insert in Hlt.
    rewrite list_lookup_insert_eq in Hj by done. simplify_eq. by eapply kin_follows.
  - rewrite list_lookup_insert_ne in Hj by done. eapply kin_follows; [done|]. by eapply Hk.
Qed.

Lemma kindred_exec i b g o st st' :
  kindred st → pool st !! i = Some g → next combiner (tr st) g !! b = Some o →
  exec i o st = Some st' → kindred st'.
Proof.
  intros Hk Hg Ho Hex. pose proof (follows_exec _ _ _ _ _ _ _ Hg Ho Hex) as Hf.
  pose proof (next_kin _ _ _ _ (Hk i g Hg) Ho) as Hnext.
  apply exec_inv in Hex.
  destruct o as [c k|c v k|c k|sg k|k|k|r k|r k|size m k]; simpl in *.
  - destruct Hex as (ch & r & ch' & _ & _ & Hst).
    eapply (kindred_update st st' i (k r)); try done. by subst.
  - destruct Hex as (ch & ch' & _ & _ & Hst).
    eapply (kindred_update st st' i k); try done. by subst.
  - destruct Hex as (ch & ch' & _ & _ & Hst).
    eapply (kindred_update st st' i k); try done. by subst.
  - destruct Hex as [_ Hst]. eapply (kindred_update st st' i k); try done. by subst.
  - destruct Hex as [_ Hst]. eapply (kindred_update st st' i k); try done. by subst.
  - eapply (kindred_update st st' i k); try done. by subst.
  - destruct r; destruct Hex as (? & _ & Hst);
      (eapply (kindred_update st st' i k); try done; by subst).
  - destruct Hex as [Hz Hst]. eapply (kindred_update st st' i k); try done; [by subst|].
    by apply Hnext.
  - destruct Hex as (ch & _ & Hst).
    destruct (next_Fork _ _ _ _ _ _ _ Ho) as (_ & _ & f & s & c & -> & _ & ->).
    simpl in Hst. set (x := length (chans st)) in *. set (w := length (wgs st)) in *.
    assert (i < length (pool st)) as Hi by (by eapply lookup_lt_Some).
    assert (has (pool st') (SCloser x w)) as Hcl.
    { exists (length (pool st) + 2), (Closer x w CWait). split; [|done]. subst st'. simpl.
      rewrite lookup_app_r by (rewrite length_insert; lia). rewrite length_insert.
      by replace (length (pool st) + 2 - length (pool st)) with 2 by lia. }
    intros j g' Hj.
    destruct (decide (j < length (pool st))) as [Hold|Hnew].
    + assert (<[i := UNode f s c (URecv1 x)]> (pool st) !! j = Some g') as Hj'.
      { subst st'. simpl in Hj. by rewrite lookup_app_l in Hj by (by rewrite length_insert). }
      destruct (decide (i = j)) as [->|Hne].
      * rewrite list_lookup_insert_eq in Hj' by done. by simplify_eq.
      * rewrite list_lookup_insert_ne in Hj' by done. eapply kin_follows; [done|].
        by eapply Hk.
    + assert ([Forwarder f x w FRecv; Forwarder s x w FRecv; Closer x w CWait]
                !! (j - length (pool st)) = Some g') as Hj'.
      { subst st'. simpl in Hj. rewrite lookup_app_r in Hj by (rewrite length_insert; lia).
        by rewrite length_insert in Hj. }
      destruct (j - length (pool st)) as [|[|[|d]]]; by simplify_eq/=.
Qed.

Lemma kindred_handoff i bi j bj st st' :
  kindred st → handoff combiner i bi j bj st = Some st' → kindred st'.
Proof.
  intros Hk (gi & gj & c & v & ks & kr & ch & Hgi & Hgj & Hoi & Hoj & Hij & _ & _ & _ & ->)
    %handoff_inv.
  pose proof (next_kin _ _ _ _ (Hk i gi Hgi) Hoi) as Hsend.
  pose proof (next_kin _ _ _ _ (Hk j gj Hgj) Hoj (Some v)) as Hrecv. simpl in *.
  pose proof (next_skel _ _ _ _ _ Hoi) as [Hski Hfi].
  pose proof (next_skel _ _ _ _ _ Hoj (Some v)) as [Hskj Hfj].
  set (st1 := with_pool (<[i := ks]> (pool st)) st).
  assert (follows st st1) as Hf1.
  { eapply (follows_update st st1 i gi ks []); try done. by rewrite app_nil_r. }
  assert (kindred st1) as Hk1 by (by eapply (kindred_update st st1 i ks)).
  assert (pool st1 !! j = Some gj) as Hgj1 by (simpl; by rewrite list_lookup_insert_ne).
  set (st2 := with_pool _ st).
  assert (follows st1 st2) as Hf2.
  { eapply (follows_update st1 st2 j gj (kr (Some v)) []); try done. by rewrite app_nil_r. }
  eapply (kindred_update st1 st2 j (kr (Some v))); try done.
  by eapply kin_follows.
Qed.

Lemma kindred_grow st st' more extra :
  kindred st → chans st' = chans st ++ more → pool st' = pool st ++ extra →
  wgs st' = wgs st → Forall (kin st') extra → kindred st'.
Proof.
  intros Hk Hc Hp Hw Hnew j g Hj.
  pose proof (follows_extend st st' more extra Hc Hp Hw) as Hf.
  rewrite Hp in Hj. apply lookup_app_Some in Hj as [Hj|[_ Hj]].
  - eapply kin_follows; [done|]. by eapply Hk.
  - by eapply Forall_lookup_1.
Qed.

Lemma kindred_Add out st st' : kindred st → Add out st = Some st' → kindred st'.
Proof.
  intros Hk Hadd.
  eapply (Add_preserves kindred (λ _, kindred) (λ _, True)); [..|exact Hk| |exact Hadd].
  - intros st1 src ch Hk1 _ _.
    eapply (kindred_grow st1 _ [ch] [_]); try done. by repeat constructor.
  - intros st1 root level Hk1. by eapply (kindred_grow st1 _ [] []); rewrite ?app_nil_r.
  - intros st1 root level Hk1 _. by eapply (kindred_grow st1 _ [] []); rewrite ?app_nil_r.
  - intros st1 root level prev ch Hk1 _ _.
    eapply (kindred_grow st1 _ [ch] [_]); try done.
    by destruct (ordered (tr st1)); repeat constructor.
  - intros st1 st2 Hk1 (_ & ->)%updateCollectors_Some.
    eapply (kindred_grow st1 _ [] (new_collectors _)); simpl; rewrite ?app_nil_r; try done.
    unfold new_collectors. apply Forall_fmap. by apply Forall_true.
  - by apply Forall_true.
Qed.

Lemma kindred_run sched (s s' : sys T) :
  kindred (world s) → run combiner sched s = Some s' → kindred (world s').
Proof.
  apply (run_preserves combiner (λ s1, kindred (world s1))); simpl.
  - intros s1 st' i b g o Hk Hg Ho Hex. by eapply kindred_exec.
  - intros s1 st' i bi j bj Hk Hh. by eapply kindred_handoff.
  - intros s1 st' out rest Hk _ _ Hadd. by eapply kindred_Add.
  - intros s1 rest Hk _ _. unfold Finish_enter. by destruct (waitForAll _).
  - intros s1 st' err Hk _ Hres.
    destruct (Finish_resume_frame _ _ _ _ Hres) as (_ & _ & _ & _ & _ & Hp & _ & Hw & _).
    intros j g. rewrite Hp. intros Hj. specialize (Hk j g Hj).
    destruct g as [| | | |src x w pc|x w []| |]; simpl in *; try done;
      [by rewrite Hp|by rewrite Hw..].
Qed.

Lemma kindred_boot bufferSize w ord srcs readers p (s : sys T) :
  boot bufferSize w ord srcs readers p = Some s → kindred (world s).
Proof.
  unfold boot, New.
  intros (st & (out & _ & [= <-])%bind_Some & [= <-])%bind_Some. simpl.
  intros j g. simpl. intros [Hj|[_ Hj]]%lookup_app_Some.
  - unfold producers in Hj. rewrite list_lookup_imap in Hj.
    by apply fmap_Some in Hj as (src & _ & ->).
  - unfold consumers in Hj. by apply lookup_replicate in Hj as [-> _].
Qed.

(** As long as [Finish] has not returned, a goroutine that stands at a
    send finds its channel open: no run sends on a closed channel. *)
Theorem send_finds_open_channel bufferSize w ord srcs readers p sched (s s' : sys T)
    i b g c v k :
  calls_ok (length srcs) p →
  boot bufferSize w ord srcs readers p = Some s →
  run combiner sched s = Some s' →
  result s' = None →
  pool (world s') !! i = Some g →
  next combiner (tr (world s')) g !! b = Some (Send c v k) →
  is_open (world s') c.
Proof.
  intros Hp Hboot Hrun Hres Hg Ho.
  destruct (steady_run combiner _ _ _ (steady_boot _ _ _ _ _ _ _ Hp Hboot) Hrun)
    as ([[Hwf _] [_ Hbar]] & Hown & Hout).
  pose proof (kindred_run _ _ _ (kindred_boot _ _ _ _ _ _ _ Hboot) Hrun i g Hg) as Hkin.
  pose proof (Forall_lookup_1 _ _ _ _ (wf_pool _ Hwf) Hg) as Hids.
  destruct (next_ids_ok combiner _ _ _ _ Hwf Hids Ho) as [Hc _].
  destruct (lookup_lt_is_Some_2 _ _ Hc) as [ch Hch].
  exists ch. split; [done|]. destruct (closed ch) eqn:Hcl; [exfalso|done].
  assert (∀ j g', pool (world s') !! j = Some g' → c ∈ owned g' → finished g' = true)
    as Hfin by (intros j g' Hj Hin; by eapply (own_open _ Hown)).
  destruct g as [?src ?c []|?c []|?f ?s ?c []|?f ?s ?c []|?src ?fanIn ?x []|?fanIn ?x []
                 |?src [|?v ?rest] []|?c ?got []];
    simpl in Ho; repeat (destruct b as [|b]; simpl in Ho; try done); simplify_eq;
    try (by discriminate (Hfin i _ Hg); left).
  - destruct (Hout Hres) as (ch' & Hch' & Hopen). congruence.
  - simpl in Hkin. destruct Hkin as (jc & gc & Hgc & Hskc).
    destruct gc as [| | | | |x' w' pk| |]; try done. simpl in Hskc. injection Hskc as -> ->.
    pose proof (Hfin jc _ Hgc) as Hdone. simpl in Hdone.
    destruct pk; try (discriminate Hdone; by left).
    pose proof (kindred_run _ _ _ (kindred_boot _ _ _ _ _ _ _ Hboot) Hrun jc _ Hgc) as Hz.
    simpl in Hz. pose proof (Hbar _ _ Hz) as Hsum. symmetry in Hsum.
    apply sum_list_zero in Hsum. pose proof (Forall_lookup_1 _ _ _ _ Hsum Hg) as Hfw.
    simpl in Hfw. by rewrite decide_True in Hfw.
Qed.
End send_safety.
(** ** Instances on integers with addition *)


(** The first test of the repository's suite, in whole-tree mode: four
    leaves carrying 1, 2, 3 and 4, one [Add], then [Finish]. *)
Definition four_leaves : list (nat * list Z) :=
  [(5, [1%Z]); (5, [2%Z]); (5, [3%Z]); (5, [4%Z])].

Definition four_leaves_schedule : list action :=
  [Caller; Caller; Run 0 0; Run 0 0; Run 1 0; Run 1 0; Run 2 0; Run 2 0; Run 3 0; Run 3 0;
   Run 4 0; Run 4 0; Run 4 0; Run 4 0; Run 5 0; Run 5 0; Run 5 0; Run 5 0;
   Run 6 0; Run 6 0; Run 6 0; Run 6 0; Run 6 0; Run 7 0; Run 7 0; Run 7 0; Run 7 0;
   Run 8 0; Run 8 0; Run 8 0; Run 8 0; Run 9 0; Run 9 0; Run 9 0; Run 9 0; Run 9 0;
   Run 10 0; Run 10 0; Run 10 0; Run 10 0; Run 10 0;
   Run 11 0; Run 11 1; Run 11 0; Run 11 0; Run 11 1; Run 11 0; Caller].

Lemma Finish_returns_nil_witness :
  ∃ s s' err,
    boot 10 true true four_leaves 0 [CAdd [0; 1; 2; 3]; CFinish] = Some s ∧
    run Z.add four_leaves_schedule s = Some s' ∧
    result s' = Some err ∧ err = None.
Proof.
  eexists _, _, _. split; [reflexivity|]. split; [vm_compute; reflexivity|].
  split; [reflexivity|].
  eapply (Finish_returns_nil Z.add 10 true true four_leaves 0 [CAdd [0; 1; 2; 3]; CFinish]
            four_leaves_schedule); [reflexivity|vm_compute; reflexivity|reflexivity].
Defined.


(** Three leaves in whole-tree mode, unordered: two roots, so two values
    reach the output channel before the final fold. *)
Definition three_leaves : list (nat * list Z) := [(1, [1%Z]); (1, [2%Z]); (1, [3%Z])].

Definition three_leaves_schedule : list action :=
  [Caller; Caller; Run 0 0; Run 0 0; Run 1 0; Run 1 0; Run 2 0; Run 2 0;
   Run 3 0; Run 3 0; Run 3 0; Run 3 0; Run 4 0; Run 4 0; Run 4 0; Run 4 0;
   Run 5 0; Run 6 0; Run 6 0; Run 6 0; Run 6 0;
   Run 7 0; Run 7 1; Run 7 0; Run 7 0; Run 7 1; Run 7 0;
   Run 8 0; Run 9 0; Run 9 0; Run 5 0; Run 9 0; Run 9 0; Run 10 0; Run 10 0;
   Run 5 0; Run 5 0; Run 8 1; Run 8 0; Run 8 0; Run 10 0; Run 10 0; Run 11 0; Run 11 0;
   Run 5 0; Run 5 0; Run 8 1; Run 8 0].


(** Streaming mode, ordered: the first stream is empty, the second has
    two values and the buffers hold one. *)
Definition uneven_pair : list (nat * list Z) := [(1, []); (2, [1%Z; 2%Z])].

Definition uneven_pair_schedule : list action :=
  [Caller; Run 0 0; Run 1 0; Run 1 0; Run 1 0; Run 3 0; Run 3 0; Run 3 0;
   Run 2 0; Run 2 0; Run 4 0; Run 4 0; Run 5 0; Run 5 1; Run 5 0; Caller].

Lemma Finish_streaming_waits_for_collectors_witness :
  ∃ s s1 s2,
    boot 1 false true uneven_pair 0 [CAdd [0; 1]; CFinish] = Some s ∧
    run Z.add uneven_pair_schedule s = Some s1 ∧
    step Z.add Caller s1 = Some s2 ∧
    cancelled (tr (world s1)) = true ∧
    collectors_exited (pool (world s1)).
Proof.
  destruct (boot 1 false true uneven_pair 0 [CAdd [0; 1]; CFinish]) as [s|] eqn:Hs;
    [|discriminate].
  destruct (run Z.add uneven_pair_schedule s) as [s1|] eqn:Hs1;
    [|vm_compute in Hs; injection Hs as <-; vm_compute in Hs1; discriminate].
  destruct (step Z.add Caller s1) as [s2|] eqn:Hs2;
    [|vm_compute in Hs; injection Hs as <-; vm_compute in Hs1; injection Hs1 as <-;
      vm_compute in Hs2; discriminate].
  exists s, s1, s2. split; [done|]. split; [done|]. split; [done|].
  destruct (Finish_streaming_waits_for_collectors Z.add 1 true uneven_pair 0
              [CAdd [0; 1]; CFinish] uneven_pair_schedule s s1 s2) as (Hc & Hk & _); try done.
  - repeat constructor; simpl; lia.
  - vm_compute in Hs. injection Hs as <-. vm_compute in Hs1. by injection Hs1 as <-.
Defined.

(** C5 as stated fails: the barrier does not count leaf adapters.  In
    the run above [Finish] returns and the output channel is closed while
    the adapter of the second stream is still there, holding the value 2
    it has read; its queue is full and its reader has returned, so it
    stays blocked for good. *)
Lemma Finish_streaming_leaves_adapter_running :
  ∃ s s2,
    boot 1 false true uneven_pair 0 [CAdd [0; 1]; CFinish] = Some s ∧
    run Z.add (uneven_pair_schedule ++ [Caller]) s = Some s2 ∧
    result s2 = Some None ∧
    chans (world s2) !! Output (world s2) = Some (Chan [] true 1) ∧
    pool (world s2) !! 3 = Some (Adapter 1 4 (ASend 2%Z)) ∧
    finished (Adapter 1 4 (ASend 2%Z)) = false ∧
    stuck Z.add s2.
Proof.
  eexists _, _. split; [reflexivity|]. split; [vm_compute; reflexivity|].
  split; [reflexivity|]. split; [reflexivity|]. split; [reflexivity|].
  split; [reflexivity|]. apply quiescent_stuck. vm_compute. reflexivity.
Qed.

(** Streaming mode, one leaf whose source holds the value 7. *)
Definition one_leaf : list (nat * list Z) := [(1, [7%Z])].

(** C7 as stated fails in its last part: a [select] with both cases
    ready may take either.  Here the token is tripped while the value 7
    is still unread in the source; the adapter then takes the receive
    case and forwards 7 into its queue all the same. *)
Lemma adapter_forwards_after_cancellation :
  ∃ s s1 s2,
    boot 1 false false one_leaf 0 [CAdd [0]; CFinish] = Some s ∧
    run Z.add [Run 0 0; Run 0 0; Caller; Caller] s = Some s1 ∧
    cancelled (tr (world s1)) = true ∧
    chans (world s1) !! 0 = Some (Chan [7%Z] true 1) ∧
    pool (world s1) !! 1 = Some (Adapter 0 2 ASelect) ∧
    chans (world s1) !! 2 = Some (Chan [] false 1) ∧
    run Z.add [Run 1 0; Run 1 0] s1 = Some s2 ∧
    chans (world s2) !! 0 = Some (Chan [] true 1) ∧
    chans (world s2) !! 2 = Some (Chan [7%Z] false 1).
Proof.
  eexists _, _, _. split; [reflexivity|]. split; [vm_compute; reflexivity|].
  split; [reflexivity|]. split; [reflexivity|]. split; [reflexivity|].
  split; [reflexivity|]. split; [vm_compute; reflexivity|]. split; reflexivity.
Qed.

(** Whole-tree mode, ordered: the first stream is empty, the second
    carries the value 5. *)
Definition lopsided : list (nat * list Z) := [(1, []); (1, [5%Z])].

Definition lopsided_schedule : list action :=
  [Caller; Run 0 0; Run 1 0; Run 1 0; Run 2 0; Run 2 0; Run 3 0; Run 3 0; Run 3 0; Run 3 0;
   Run 4 0; Run 4 0; Run 5 0; Run 5 1; Run 5 0; Caller; Caller].

(** C1 as stated fails in ordered mode: the node stops when its first
    stream ends, the value 5 stays in the queue of the second adapter, and
    [Finish] closes an empty output channel. *)
Lemma ordered_whole_tree_drops_values :
  ∃ s s2,
    boot 10 true true lopsided 0 [CAdd [0; 1]; CFinish] = Some s ∧
    run Z.add lopsided_schedule s = Some s2 ∧
    result s2 = Some None ∧
    chans (world s2) !! Output (world s2) = Some (Chan [] true 10) ∧
    chans (world s2) !! 4 = Some (Chan [5%Z] true 10) ∧
    stuck Z.add s2.
Proof.
  eexists _, _. split; [reflexivity|]. split; [vm_compute; reflexivity|].
  split; [reflexivity|]. split; [reflexivity|]. split; [reflexivity|].
  apply quiescent_stuck. vm_compute. reflexivity.
Qed.

(** Two calls of [Add], streaming mode: a first leaf carrying 1 and 2,
    then a second leaf. *)
Definition two_adds : list (nat * list Z) := [(2, [1%Z; 2%Z]); (1, [10%Z])].

(** The collector started by the first [Add] has received the value 1 and
    is about to send it when the second [Add] closes its stop signal and
    installs a new one.  Back at the top of its loop it reads [t.stop]
    again, finds the new signal, and goes on collecting: it now competes
    for channel 3 with the node that the second [Add] has put over it. *)
Lemma collector_outlives_its_generation :
  ∃ s s1 s2,
    boot 1 false false two_adds 0 [CAdd [0]; CAdd [1]] = Some s ∧
    run Z.add [Run 0 0; Run 0 0; Run 0 0; Run 1 0; Run 1 0;
               Caller; Run 2 0; Run 2 0; Run 3 0; Run 3 1; Caller] s = Some s1 ∧
    pool (world s1) !! 3 = Some (Collector 3 (KSend 1%Z)) ∧
    pool (world s1) !! 5 = Some (UNode 3 4 5 UStart) ∧
    sigs (world s1) = [true; true; false] ∧
    stop (tr (world s1)) = 2 ∧
    run Z.add [Run 3 0; Run 3 0] s1 = Some s2 ∧
    pool (world s2) !! 3 = Some (Collector 3 (KSelect 2)) ∧
    sigs (world s2) !! 2 = Some false.
Proof.
  eexists _, _, _. split; [reflexivity|]. split; [vm_compute; reflexivity|].
  split; [reflexivity|]. split; [reflexivity|]. split; [reflexivity|].
  split; [reflexivity|]. split; [vm_compute; reflexivity|]. split; reflexivity.
Qed.

(** An ordered node between an unbuffered first input carrying 1, 2, 3
    and a second input carrying 10, 20: the run below ends with nothing
    left to move, the consumer holding 11, 22 and the unpaired 3. *)
Definition lockstep_schedule : list action :=
  [Run 1 0; Handoff 0 0 2 0; Run 2 0; Run 1 0; Run 1 0; Handoff 2 0 3 0; Handoff 0 0 2 0;
   Run 2 0; Handoff 2 0 3 0; Handoff 0 0 2 0; Run 0 0; Run 2 0; Handoff 2 0 3 0; Run 2 0;
   Run 3 0].

Lemma ordered_node_lockstep_witness :
  ∃ s' v,
    run Z.add lockstep_schedule (onode_sys (onode_start 0 1 0 [1%Z; 2%Z; 3%Z] [10%Z; 20%Z])) = Some s' ∧
    s' = onode_sys v ∧ stuck Z.add s' ∧
    o_pc v = OExit ∧ closed (o_c v) = true ∧ o_got v = [11%Z; 22%Z; 3%Z].
Proof.
  destruct (run Z.add lockstep_schedule (onode_sys (onode_start 0 1 0 [1%Z; 2%Z; 3%Z] [10%Z; 20%Z])))
    as [s'|] eqn:Hs1; [|vm_compute in Hs1; discriminate].
  destruct (ordered_node_lockstep Z.add 0 1 0 [1%Z; 2%Z; 3%Z] [10%Z; 20%Z] lockstep_schedule s' Hs1)
    as (v & Hv & _ & _ & Hstuck).
  assert (stuck Z.add s') as Hq.
  { apply quiescent_stuck. vm_compute in Hs1. injection Hs1 as <-. vm_compute. reflexivity. }
  destruct (Hstuck Hq) as (Hpc & Hcl & Hgot & _).
  exists s', v. split; [reflexivity|]. split; [exact Hv|]. split; [exact Hq|].
  split; [exact Hpc|]. split; [exact Hcl|]. rewrite Hgot. reflexivity.
Defined.



(** In the streaming run above, once its source is closed the first
    adapter stands at [close(c)] with its queue, channel 3, open. *)
Lemma close_finds_open_channel_witness :
  ∃ s s',
    boot 1 false true uneven_pair 0 [CAdd [0; 1]; CFinish] = Some s ∧
    run Z.add [Caller; Run 0 0; Run 2 0] s = Some s' ∧
    pool (world s') !! 2 = Some (Adapter 0 3 AClose) ∧
    is_open (world s') 3 ∧ is_Some (step Z.add (Run 2 0) s').
Proof.
  destruct (boot 1 false true uneven_pair 0 [CAdd [0; 1]; CFinish]) as [s|] eqn:Hs;
    [|discriminate].
  destruct (run Z.add [Caller; Run 0 0; Run 2 0] s) as [s'|] eqn:Hs1;
    [|vm_compute in Hs; injection Hs as <-; vm_compute in Hs1; discriminate].
  assert (pool (world s') !! 2 = Some (Adapter 0 3 AClose)) as Hg.
  { vm_compute in Hs. injection Hs as <-. vm_compute in Hs1. injection Hs1 as <-.
    reflexivity. }
  destruct (close_finds_open_channel Z.add 1 false true uneven_pair 0 [CAdd [0; 1]; CFinish]
              [Caller; Run 0 0; Run 2 0] s s' 2 0 (Adapter 0 3 AClose) 3 (Adapter 0 3 AExit))
    as [Hopen Hstep].
  - repeat constructor; simpl; lia.
  - exact Hs.
  - exact Hs1.
  - exact Hg.
  - reflexivity.
  - exists s, s'. split; [reflexivity|]. split; [exact Hs1|]. split; [exact Hg|].
    split; [exact Hopen|exact Hstep].
Defined.

(** Further on the node has closed the root, and the collector, having
    found it closed, stands at [t.wg.Done()] with the counter at one. *)
Lemma wg_Done_finds_positive_counter_witness :
  ∃ s s',
    boot 1 false true uneven_pair 0 [CAdd [0; 1]; CFinish] = Some s ∧
    run Z.add [Caller; Run 0 0; Run 2 0; Run 2 0; Run 4 0; Run 4 0; Run 5 0; Run 5 1] s
      = Some s' ∧
    pool (world s') !! 5 = Some (Collector 5 KWgDone) ∧
    0 < wg (tr (world s')) ∧ is_Some (step Z.add (Run 5 0) s').
Proof.
  destruct (boot 1 false true uneven_pair 0 [CAdd [0; 1]; CFinish]) as [s|] eqn:Hs;
    [|discriminate].
  destruct (run Z.add [Caller; Run 0 0; Run 2 0; Run 2 0; Run 4 0; Run 4 0; Run 5 0; Run 5 1] s)
    as [s'|] eqn:Hs1;
    [|vm_compute in Hs; injection Hs as <-; vm_compute in Hs1; discriminate].
  assert (pool (world s') !! 5 = Some (Collector 5 KWgDone)) as Hg.
  { vm_compute in Hs. injection Hs as <-. vm_compute in Hs1. injection Hs1 as <-.
    reflexivity. }
  destruct (wg_Done_finds_positive_counter Z.add 1 false true uneven_pair 0
              [CAdd [0; 1]; CFinish]
              [Caller; Run 0 0; Run 2 0; Run 2 0; Run 4 0; Run 4 0; Run 5 0; Run 5 1]
              s s' 5 0 (Collector 5 KWgDone) TreeWg (Collector 5 KExit))
    as [Hpos Hstep].
  - repeat constructor; simpl; lia.
  - exact Hs.
  - exact Hs1.
  - exact Hg.
  - reflexivity.
  - exists s, s'. split; [reflexivity|]. split; [exact Hs1|]. split; [exact Hg|].
    split; [exact Hpos|exact Hstep].
Defined.

Lemma Add_returns_witness :
  ∃ s s'',
    boot 1 false true uneven_pair 0 [CAdd [0; 1]; CFinish] = Some s ∧
    step Z.add Caller s = Some s'' ∧ prog s'' = [CFinish] ∧ waiting s'' = false ∧
    result s'' = result s.
Proof.
  destruct (boot 1 false true uneven_pair 0 [CAdd [0; 1]; CFinish]) as [s|] eqn:Hs;
    [|discriminate].
  destruct (Add_returns Z.add 1 false true uneven_pair 0 [CAdd [0; 1]; CFinish] [] s s
              [0; 1] [CFinish]) as (s'' & Hstep & Hrest).
  - repeat constructor; simpl; lia.
  - exact Hs.
  - reflexivity.
  - vm_compute in Hs. injection Hs as <-. reflexivity.
  - vm_compute in Hs. injection Hs as <-. reflexivity.
  - exists s, s''. split; [reflexivity|]. split; [exact Hstep|exact Hrest].
Defined.

(** After the [Add], channel 5 is the queue of the node over the two
    leaves. *)
Lemma tree_channels_sized_by_bufferSize_witness :
  ∃ s s' ch,
    boot 1 false true uneven_pair 0 [CAdd [0; 1]; CFinish] = Some s ∧
    run Z.add [Caller] s = Some s' ∧
    chans (world s') !! 5 = Some ch ∧
    cap ch = 1 ∧ length (buf ch) ≤ 1.
Proof.
  destruct (boot 1 false true uneven_pair 0 [CAdd [0; 1]; CFinish]) as [s|] eqn:Hs;
    [|discriminate].
  destruct (run Z.add [Caller] s) as [s'|] eqn:Hs1;
    [|vm_compute in Hs; injection Hs as <-; vm_compute in Hs1; discriminate].
  assert (chans (world s') !! 5 = Some (Chan [] false 1)) as Hch.
  { vm_compute in Hs. injection Hs as <-. vm_compute in Hs1. injection Hs1 as <-.
    reflexivity. }
  destruct (tree_channels_sized_by_bufferSize Z.add 1 false true uneven_pair 0
              [CAdd [0; 1]; CFinish] [Caller] s s' 5 (Chan [] false 1)) as [Hcap Hlen].
  - repeat constructor; simpl; lia.
  - exact Hs.
  - exact Hs1.
  - simpl. lia.
  - exact Hch.
  - exists s, s', (Chan [] false 1). split; [reflexivity|]. split; [exact Hs1|].
    split; [exact Hch|]. split; [exact Hcap|exact Hlen].
Defined.

Lemma Output_open_until_Finish_returns_witness :
  ∃ s s',
    boot 1 false true uneven_pair 0 [CAdd [0; 1]; CFinish] = Some s ∧
    run Z.add [Caller] s = Some s' ∧
    Output (world s') = 2 ∧ is_open (world s') (Output (world s')).
Proof.
  destruct (boot 1 false true uneven_pair 0 [CAdd [0; 1]; CFinish]) as [s|] eqn:Hs;
    [|discriminate].
  destruct (run Z.add [Caller] s) as [s'|] eqn:Hs1;
    [|vm_compute in Hs; injection Hs as <-; vm_compute in Hs1; discriminate].
  destruct (Output_open_until_Finish_returns Z.add 1 false true uneven_pair 0
              [CAdd [0; 1]; CFinish] [Caller] s s') as (Hout & _ & Hopen).
  - repeat constructor; simpl; lia.
  - exact Hs.
  - exact Hs1.
  - exists s, s'. split; [reflexivity|]. split; [exact Hs1|]. split; [exact Hout|].
    apply Hopen. vm_compute in Hs. injection Hs as <-. vm_compute in Hs1.
    injection Hs1 as <-. reflexivity.
Defined.

(** A leaf adapter on a source carrying 7, 8, 9 with buffers of one
    value: 7 is forwarded and received, then [Finish] trips the token, the
    adapter takes the cancellation case and closes its queue, and 8 and 9
    stay unread, one in the source's buffer and one with the producer. *)
Definition cancelled_leaf_schedule : list action :=
  [Run 0 0; Run 1 0; Run 1 0; Run 2 0; Caller; Run 0 0; Run 1 1; Run 1 0; Run 2 0; Caller].

Lemma leaf_adapter_forwards_in_order_witness :
  ∃ s' v,
    run Z.add cancelled_leaf_schedule
        (adapter_sys 1 (adapter_start 1 1 1 [7%Z; 8%Z; 9%Z])) = Some s' ∧
    s' = adapter_sys 1 v ∧ stuck Z.add s' ∧
    l_pc v = AExit ∧ closed (l_c v) = true ∧ l_got v ++ l_unread v = [7%Z; 8%Z; 9%Z].
Proof.
  destruct (run Z.add cancelled_leaf_schedule
              (adapter_sys 1 (adapter_start 1 1 1 [7%Z; 8%Z; 9%Z])))
    as [s'|] eqn:Hs1; [|vm_compute in Hs1; discriminate].
  destruct (leaf_adapter_forwards_in_order Z.add 1 1 1 1 [7%Z; 8%Z; 9%Z]
              cancelled_leaf_schedule s' Hs1) as (v & Hv & _ & _ & _ & Hstuck).
  assert (stuck Z.add s') as Hq.
  { apply quiescent_stuck. vm_compute in Hs1. injection Hs1 as <-. vm_compute. reflexivity. }
  destruct (Hstuck Hq) as (Hpc & Hcl & Hgot).
  exists s', v. split; [reflexivity|]. split; [exact Hv|]. split; [exact Hq|].
  split; [exact Hpc|]. split; [exact Hcl|exact Hgot].
Defined.

(** Conservation in the whole-tree run over three leaves: once the
    collectors have delivered, the two values in the output channel add up
    to 1 + 2 + 3. *)
Lemma values_are_conserved_witness :
  ∃ s s',
    boot 10 true false three_leaves 0 [CAdd [0; 1; 2]; CFinish] = Some s ∧
    run Z.add three_leaves_schedule s = Some s' ∧
    weight Z.add (world s') = Some 6%Z.
Proof.
  destruct (boot 10 true false three_leaves 0 [CAdd [0; 1; 2]; CFinish]) as [s|] eqn:Hs;
    [|discriminate].
  destruct (run Z.add three_leaves_schedule s) as [s'|] eqn:Hs1;
    [|vm_compute in Hs; injection Hs as <-; vm_compute in Hs1; discriminate].
  exists s, s'. split; [reflexivity|]. split; [exact Hs1|].
  rewrite (values_are_conserved Z.add Z.add_assoc Z.add_comm 10 true false three_leaves 0
             [CAdd [0; 1; 2]; CFinish] three_leaves_schedule s s' Hs Hs1).
  reflexivity.
Defined.

(** The whole-tree run over three leaves again: all adapters have
    returned, and [Finish] leaves 6 = 1 + 2 + 3 in the closed output
    channel. *)
Lemma whole_tree_unordered_fold_witness :
  ∃ s s1 s2,
    boot 10 true false three_leaves 0 [CAdd [0; 1; 2]; CFinish] = Some s ∧
    run Z.add three_leaves_schedule s = Some s1 ∧
    step Z.add Caller s1 = Some s2 ∧
    result s2 = Some None ∧
    ∃ ch, chans (world s2) !! Output (world s2) = Some ch ∧ closed ch = true ∧
          buf ch = [6%Z].
Proof.
  destruct (boot 10 true false three_leaves 0 [CAdd [0; 1; 2]; CFinish]) as [s|] eqn:Hs;
    [|discriminate].
  destruct (run Z.add three_leaves_schedule s) as [s1|] eqn:Hs1;
    [|vm_compute in Hs; injection Hs as <-; vm_compute in Hs1; discriminate].
  destruct (step Z.add Caller s1) as [s2|] eqn:Hs2;
    [|vm_compute in Hs; injection Hs as <-; vm_compute in Hs1; injection Hs1 as <-;
      vm_compute in Hs2; discriminate].
  destruct (whole_tree_unordered_fold Z.add Z.add_assoc Z.add_comm 10 three_leaves
              [CAdd [0; 1; 2]; CFinish] three_leaves_schedule s s1 s2)
    as (Hres & ch & Hch & Hcl & Hbuf).
  - repeat constructor; simpl; lia.
  - exact Hs.
  - exact Hs1.
  - vm_compute in Hs. injection Hs as <-. vm_compute in Hs1. by injection Hs1 as <-.
  - vm_compute in Hs. injection Hs as <-. vm_compute in Hs1. by injection Hs1 as <-.
  - vm_compute in Hs. injection Hs as <-. vm_compute in Hs1. injection Hs1 as <-.
    intros [|[|[|o]]] Ho; simpl in Ho.
    + by exists 3, 4, AExit.
    + by exists 4, 5, AExit.
    + by exists 6, 7, AExit.
    + lia.
  - exact Hs2.
  - exists s, s1, s2. split; [reflexivity|]. split; [exact Hs1|]. split; [exact Hs2|].
    split; [exact Hres|]. exists ch. split; [exact Hch|]. split; [exact Hcl|exact Hbuf].
Defined.

Definition forwarding_schedule : list action := take 29 three_leaves_schedule.

(** In the whole-tree run over three leaves, the first forwarder of the
    root node stands at its send of 1 with the merge channel, channel 8,
    open. *)
Lemma send_finds_open_channel_witness :
  ∃ s s',
    boot 10 true false three_leaves 0 [CAdd [0; 1; 2]; CFinish] = Some s ∧
    run Z.add forwarding_schedule s = Some s' ∧
    pool (world s') !! 9 = Some (Forwarder 4 8 0 (FSend 1%Z)) ∧
    is_open (world s') 8.
Proof.
  destruct (boot 10 true false three_leaves 0 [CAdd [0; 1; 2]; CFinish]) as [s|] eqn:Hs;
    [|discriminate].
  destruct (run Z.add forwarding_schedule s) as [s'|] eqn:Hs1;
    [|vm_compute in Hs; injection Hs as <-; vm_compute in Hs1; discriminate].
  assert (pool (world s') !! 9 = Some (Forwarder 4 8 0 (FSend 1%Z)) ∧ result s' = None)
    as [Hg Hres].
  { vm_compute in Hs. injection Hs as <-. vm_compute in Hs1. injection Hs1 as <-.
    split; reflexivity. }
  pose proof (send_finds_open_channel Z.add 10 true false three_leaves 0
                [CAdd [0; 1; 2]; CFinish] forwarding_schedule s s' 9 0
                (Forwarder 4 8 0 (FSend 1%Z)) 8 1%Z (Forwarder 4 8 0 FRecv)) as Hopen.
  exists s, s'. split; [reflexivity|]. split; [exact Hs1|]. split; [exact Hg|].
  apply Hopen.
  - repeat constructor; simpl; lia.
  - exact Hs.
  - exact Hs1.
  - exact Hres.
  - exact Hg.
  - reflexivity.
Defined.
